(** * cyber_pijack: a shallow embedding of the pixel-jacking script

    The script loads one picture, saves it untouched as step 0, pushes it
    N times through an escalating chain of filters (saving every step) and
    finally writes a caption thread that refers to the saved files.

    Python values are embedded as follows.
    - [int] is [Z]; [float] is an IEEE-754 binary64 number, given by the
      specification floats of the standard library ([spec_float] with
      [prec = 53], [emax = 1024]), so every rounding of the script is kept.
    - [str] is [string], holding the UTF-8 bytes of the text.
    - an exception is a [Raise] in the [result] type; effects (files,
      console, random draws) are threaded through a state-and-error monad
      that keeps the state reached when an exception escapes.
    - an RGB picture is its size and its pixel accessor, a mode "L" band
      likewise.
    - the operations of the imaging library that the script only composes
      (blur, enhancers, edge detection, median filter, compositing) are the
      fields of the [Imaging] class; the ones whose arguments the script
      computes with care (pixel access, split / offset / merge, posterize,
      the sizes the rank filter takes) are written out, with the errors
      they raise on arguments they cannot take.
    - the disk is seen through the journal of the files written, the oldest
      entries being the files found at the start; a path is known by its
      spelling. Whether a directory can be made is asked of the [Storage]
      class; a write into a directory that is there is taken to succeed. *)

From Stdlib Require Import ZArith QArith Qround Qminmax Lia SpecFloat.
From stdpp Require Import base list strings pretty.
From Stdlib Require Import Ascii String.

Open Scope Z_scope.

(** ** Exceptions and the error monad *)

Inductive exn :=
  | ZeroDivisionError
  | OverflowError
  | ValueError
  | IndexError
  | TypeError
  | FileNotFoundError
  | FileExistsError
  | UnidentifiedImageError.

Inductive result (A : Type) :=
  | Ok (a : A)
  | Raise (e : exn).

Arguments Ok {A} a.
Arguments Raise {A} e.

#[global] Instance result_ret : MRet result := @Ok.

#[global] Instance result_bind : MBind result := λ A B f m,
  match m with
  | Ok a => f a
  | Raise e => Raise e
  end.

(** [for x in xs: acc = body(acc, x)] where the body may raise. *)
Fixpoint for_result {A S : Type} (body : S → A → result S) (xs : list A) (s : S)
  : result S :=
  match xs with
  | [] => Ok s
  | x :: rest => s' ← body s x; for_result body rest s'
  end.

(** [[f(x) for x in xs]] where [f] may raise. *)
Fixpoint map_result {A B : Type} (f : A → result B) (xs : list A) : result (list B) :=
  match xs with
  | [] => Ok []
  | x :: rest => y ← f x; ys ← map_result f rest; Ok (y :: ys)
  end.

(** ** Binary64 floats *)

Module Float64.

Definition prec : Z := 53.
Definition emax : Z := 1024.

Definition fmul : spec_float → spec_float → spec_float := SFmul prec emax.
Definition fadd : spec_float → spec_float → spec_float := SFadd prec emax.
Definition fdiv : spec_float → spec_float → spec_float := SFdiv prec emax.

(** An integer seen as an unrounded significand with exponent 0. *)
Definition of_mantissa (z : Z) : spec_float :=
  match z with
  | Z0 => S754_zero false
  | Zpos p => S754_finite false p 0
  | Zneg p => S754_finite true p 0
  end.

(** The correctly rounded quotient of two integers. *)
Definition quotient (a b : Z) : spec_float := fdiv (of_mantissa a) (of_mantissa b).

(** Decimal literals of the source: [lit n d] is the double nearest n/d. *)
Definition lit (n d : positive) : spec_float := quotient (Zpos n) (Zpos d).

(** [a / b] on Python ints (true division). *)
Definition int_truediv (a b : Z) : result spec_float :=
  if b =? 0 then Raise ZeroDivisionError
  else match quotient a b with
       | S754_infinity _ => Raise OverflowError
       | f => Ok f
       end.

(** [float(z)], as in mixed int/float arithmetic. *)
Definition float_of_int (z : Z) : result spec_float :=
  match binary_normalize prec emax z 0 false with
  | S754_infinity _ => Raise OverflowError
  | f => Ok f
  end.

(** [int(x)]: truncation toward zero. *)
Definition py_int (x : spec_float) : result Z :=
  match x with
  | S754_zero _ => Ok 0
  | S754_finite s m e =>
      Ok (cond_Zopp s
            (match e with
             | Zneg k => Zpos m / 2 ^ Zpos k
             | _ => Zpos m * 2 ^ e
             end))
  | S754_infinity _ => Raise OverflowError
  | S754_nan => Raise ValueError
  end.

(** The rational number a finite float stands for (0 for the others). *)
Definition SF2Q (x : spec_float) : Q :=
  match x with
  | S754_finite s m e =>
      let q := match e with
               | Zneg k => Zpos m # (2 ^ k)%positive
               | _ => inject_Z (Zpos m * 2 ^ e)
               end in
      if s then (- q)%Q else q
  | _ => 0%Q
  end.

Definition is_finite (x : spec_float) : bool :=
  match x with
  | S754_zero _ | S754_finite _ _ _ => true
  | _ => false
  end.

(** [x >= 0]: true on both zeros, false on NaN. *)
Definition nonneg (x : spec_float) : bool :=
  match x with
  | S754_zero _ => true
  | S754_finite s _ _ | S754_infinity s => negb s
  | S754_nan => false
  end.

(** The float constants that appear in the script. *)
Definition f0_1 : spec_float := lit 1 10.
Definition f0_2 : spec_float := lit 2 10.
Definition f0_3 : spec_float := lit 3 10.
Definition f0_4 : spec_float := lit 4 10.
Definition f0_5 : spec_float := lit 5 10.
Definition f1_0 : spec_float := lit 1 1.
Definition f1_1 : spec_float := lit 11 10.
Definition f1_5 : spec_float := lit 15 10.
Definition f2 : spec_float := lit 2 1.
Definition f3 : spec_float := lit 3 1.
Definition f30 : spec_float := lit 30 1.

End Float64.

Import Float64.

(** ** POSIX paths ([os.path]) *)

Module Path.

Definition sep : ascii := "/"%char.

Definition is_sep (c : ascii) : bool := Ascii.eqb c sep.

Definition startswith_sep (p : string) : bool :=
  match p with
  | String c _ => is_sep c
  | EmptyString => false
  end.

Fixpoint endswith_sep (p : string) : bool :=
  match p with
  | EmptyString => false
  | String c EmptyString => is_sep c
  | String _ rest => endswith_sep rest
  end.

(** [os.path.join(a, b)] *)
Definition join (a b : string) : string :=
  if startswith_sep b then b
  else if (String.eqb a "" || endswith_sep a)%bool then a +:+ b
  else a +:+ String sep b.

(** [(p[:i], p[i:])] for [i = p.rfind('/') + 1] *)
Fixpoint rsplit (p : string) : string * string :=
  match p with
  | EmptyString => (EmptyString, EmptyString)
  | String c rest =>
      let '(h, t) := rsplit rest in
      match h with
      | EmptyString => if is_sep c then (String c EmptyString, rest)
                       else (EmptyString, String c t)
      | _ => (String c h, t)
      end
  end.

Fixpoint all_sep (p : string) : bool :=
  match p with
  | EmptyString => true
  | String c rest => is_sep c && all_sep rest
  end.

(** [p.rstrip('/')] *)
Fixpoint rstrip_sep (p : string) : string :=
  match p with
  | EmptyString => EmptyString
  | String c rest =>
      match rstrip_sep rest with
      | EmptyString => if is_sep c then EmptyString else String c EmptyString
      | r => String c r
      end
  end.

(** [os.path.dirname(p)] *)
Definition dirname (p : string) : string :=
  let head := fst (rsplit p) in
  if (negb (String.eqb head "") && negb (all_sep head))%bool
  then rstrip_sep head else head.

(** [os.path.basename(p)] *)
Definition basename (p : string) : string := snd (rsplit p).

End Path.

(** ** Pictures *)

Definition pixel : Type := Z * Z * Z.

(** A picture of mode "RGB": [size] and the accessor given by [load()]. *)
Record Image := {
  width : Z;
  height : Z;
  pixel_at : Z → Z → pixel;
}.

(** A single band (mode "L"). *)
Record Band := {
  band_width : Z;
  band_height : Z;
  value_at : Z → Z → Z;
}.

Definition in_bounds (w h x y : Z) : bool :=
  (0 <=? x) && (x <? w) && (0 <=? y) && (y <? h).

(** [pixels[x, y]] *)
Definition getpixel (img : Image) (x y : Z) : result pixel :=
  if in_bounds (width img) (height img) x y then Ok (pixel_at img x y)
  else Raise IndexError.

(** [pixels[x, y] = p] *)
Definition putpixel (img : Image) (x y : Z) (p : pixel) : result Image :=
  if in_bounds (width img) (height img) x y
  then Ok {| width := width img; height := height img;
             pixel_at := λ x' y', if (x' =? x) && (y' =? y) then p
                                  else pixel_at img x' y' |}
  else Raise IndexError.

(** [img.split()] *)
Definition split (img : Image) : Band * Band * Band :=
  let band f := {| band_width := width img; band_height := height img;
                   value_at := λ x y, f (pixel_at img x y) |} in
  (band (λ p, p.1.1), band (λ p, p.1.2), band (λ p, p.2)).

(** [Image.merge("RGB", (r, g, b))] *)
Definition merge (r g b : Band) : result Image :=
  if (band_width g =? band_width r) && (band_height g =? band_height r)
     && (band_width b =? band_width r) && (band_height b =? band_height r)
  then Ok {| width := band_width r; height := band_height r;
             pixel_at := λ x y, (value_at r x y, value_at g x y, value_at b x y) |}
  else Raise ValueError.

(** An integer that fits the [int] of the C side of the imaging library. *)
Definition c_int (z : Z) : bool := (- 2 ^ 31 <=? z) && (z <? 2 ^ 31).

(** [ImageChops.offset(band, xoffset, yoffset)]: the two offsets are handed
    over as C integers, which raises OverflowError for an offset that does
    not fit; the data wraps around. *)
Definition offset (c : Band) (xoffset yoffset : Z) : result Band :=
  if c_int xoffset && c_int yoffset
  then Ok {| band_width := band_width c; band_height := band_height c;
             value_at := λ x y, value_at c ((x - xoffset) mod band_width c)
                                           ((y - yoffset) mod band_height c) |}
  else Raise OverflowError.

(** [ImageOps.posterize(img, bits)]: keep the [bits] high bits of a channel. *)
Definition posterize_lut (bits v : Z) : Z := Z.land v (Z.lnot (2 ^ (8 - bits) - 1)).

(** More than 8 bits are refused (with TypeError or, in later versions of
    the library, ValueError; no fact below depends on which). *)
Definition posterize (img : Image) (bits : Z) : result Image :=
  if 8 <? bits then Raise TypeError
  else Ok {| width := width img; height := height img;
             pixel_at := λ x y, let '(r, g, b) := pixel_at img x y in
                                (posterize_lut bits r, posterize_lut bits g,
                                 posterize_lut bits b) |}.

(** [band.point(f)] on a mode "L" band: a 256-entry table is built first. *)
Definition point (f : Z → result Z) (c : Band) : result Band :=
  lut ← map_result f (seqZ 0 256);
  Ok {| band_width := band_width c; band_height := band_height c;
        value_at := λ x y, default 0 (lut !! Z.to_nat (value_at c x y)) |}.

(** The operations of the imaging library that the script only composes. *)
Class Imaging := {
  picture : Type;
  rgba : Type;
  convert_RGB : picture → Image;
  gaussian_blur : spec_float → Image → Image;
  enhance_contrast : Image → spec_float → Image;
  enhance_color : Image → spec_float → Image;
  enhance_brightness : Image → spec_float → Image;
  enhance_sharpness : Image → spec_float → Image;
  find_edges : Image → Image;
  emboss : Image → Image;
  blend : Image → Image → spec_float → Image;
  rank_median : Z → Image → Image;
  convert_L : Image → Band;
  new_RGBA : Z * Z → Z * Z * Z * Z → rgba;
  new_L : Z * Z → Z → Band;
  paste_mask : rgba → Band → Band → rgba;
  to_RGBA : Image → rgba;
  alpha_composite : rgba → rgba → rgba;
  rgba_to_RGB : rgba → Image;
}.

(** [random.randint]: [randint_at t a b] is the outcome of the [t]-th draw
    of the run when it is asked for an integer of [a..b]. *)
Class Random := {
  randint_at : nat → Z → Z → Z;
  randint_range : ∀ t a b, a ≤ b → a ≤ randint_at t a b ≤ b;
}.

(** The disk of a run as [os.makedirs] finds it: [makedirs_refusal name] is
    the error that the operating system answers when the directory [name]
    is asked for (the name, however it is spelled, is taken by something
    that is no directory, a parent cannot be entered or written, ...), and
    [None] when the directory is there afterwards. *)
Class Storage := {
  makedirs_refusal : string → option exn;
}.

(** ** The world of a run: files, console and random draws *)

Section Script.

Context `{Imaging} `{Random} `{Storage}.

Inductive file :=
  | FPicture (p : picture)
  | FImage (img : Image)
  | FText (s : string).

(** [fs] is the journal of the file system, newest entry first: reading a
    path finds its newest entry, writing adds one. *)
Record World := {
  fs : list (string * file);
  dirs : list string;
  console : list string;
  draws : nat;
}.

(** The world [w] after random draws have been consumed up to number [d]. *)
Definition with_draws (w : World) (d : nat) : World :=
  {| fs := fs w; dirs := dirs w; console := console w; draws := d |}.

(** A computation on the world: its outcome and the world it leaves, which
    is kept when an exception escapes. *)
Definition M (A : Type) : Type := World → result A * World.

#[global] Instance M_ret : MRet M := λ A a w, (Ok a, w).

#[global] Instance M_bind : MBind M := λ A B f m w,
  match m w with
  | (Ok a, w') => f a w'
  | (Raise e, w') => (Raise e, w')
  end.

(** A computation that does not touch the world. *)
Definition lift {A : Type} (r : result A) : M A := λ w, (r, w).

(** [for x in xs: s = body(s, x)] on the world. *)
Fixpoint for_M {A S : Type} (body : S → A → M S) (xs : list A) (s : S) : M S :=
  match xs with
  | [] => mret s
  | x :: rest => s' ← body s x; for_M body rest s'
  end.

(** The newest entry of the journal under [path]. *)
Fixpoint read_file (journal : list (string * file)) (path : string) : option file :=
  match journal with
  | [] => None
  | (p, f) :: older => if String.eqb p path then Some f else read_file older path
  end.

(** [Image.open(path).convert("RGB")] *)
Definition open_RGB (path : string) : M Image := λ w,
  match read_file (fs w) path with
  | None => (Raise FileNotFoundError, w)
  | Some (FPicture p) => (Ok (convert_RGB p), w)
  | Some (FImage img) => (Ok img, w)
  | Some (FText _) => (Raise UnidentifiedImageError, w)
  end.

(** [os.makedirs(dir, exist_ok=True)]: the empty name is no directory; a
    name under which a file is recorded cannot become one (FileExistsError,
    the directory that exists already is the only case [exist_ok]
    forgives); otherwise the operating system decides. *)
Definition makedirs (dir : string) : M unit := λ w,
  if String.eqb dir "" then (Raise FileNotFoundError, w)
  else match read_file (fs w) dir with
       | Some _ => (Raise FileExistsError, w)
       | None =>
           match makedirs_refusal dir with
           | Some e => (Raise e, w)
           | None => (Ok tt, {| fs := fs w; dirs := dir :: dirs w;
                                console := console w; draws := draws w |})
           end
       end.

(** Writing a file; the write itself is taken to succeed (the directory
    of the path is there and the disk takes the data). *)
Definition write_file (path : string) (f : file) : M unit := λ w,
  (Ok tt, {| fs := (path, f) :: fs w; dirs := dirs w;
             console := console w; draws := draws w |}).

(** [img.save(path)] *)
Definition save (img : Image) (path : string) : M unit := write_file path (FImage img).

(** [print(line)] *)
Definition print (line : string) : M unit := λ w,
  (Ok tt, {| fs := fs w; dirs := dirs w;
             console := console w ++ [line]; draws := draws w |}).

(** [random.randint(a, b)] *)
Definition randint (a b : Z) : M Z := λ w,
  if b <? a then (Raise ValueError, w)
  else (Ok (randint_at (draws w) a b),
        {| fs := fs w; dirs := dirs w; console := console w;
           draws := S (draws w) |}).

(** ** The effect pipeline *)

(** [max(0, min(255, v))] *)
Definition clamp255 (v : Z) : Z := Z.max 0 (Z.min 255 v).

(** [int(intensity * 30)] *)
Definition noise_bound (intensity : spec_float) : result Z :=
  py_int (fmul intensity f30).

(** The body of the two loops: the pixel at [(x, y)] gets its noise. The
    bound [int(intensity * 30)] is evaluated twice, as in the source. *)
Definition noise_pixel (intensity : spec_float) (x : Z) (pixels : Image) (y : Z)
  : M Image :=
  '(r, g, b) ← lift (getpixel pixels x y);
  lo ← lift (noise_bound intensity);
  hi ← lift (noise_bound intensity);
  noise ← randint (- lo) hi;
  lift (putpixel pixels x y
          (clamp255 (r + noise), clamp255 (g + noise), clamp255 (b + noise))).

(** The picture is changed in place and returned; the caller never uses
    the old value again, so the change is modelled by the returned value. *)
Definition add_pixel_noise (img : Image) (intensity : spec_float) : M Image :=
  let width := width img in
  let height := height img in
  let pixels := img in
  for_M (λ pixels x, for_M (noise_pixel intensity x) (seqZ 0 height) pixels)
    (seqZ 0 width) pixels.

(** [int(intensity * 2)] and [-int(intensity * 1)] *)
Definition red_offset (intensity : spec_float) : result Z :=
  py_int (fmul intensity f2).

Definition green_offset (intensity : spec_float) : result Z :=
  d ← py_int (fmul intensity f1_0); Ok (- d).

Definition chromatic_aberration (img : Image) (intensity : spec_float) : result Image :=
  let '(r, g, b) := split img in
  dr ← red_offset intensity;
  r_shifted ← offset r dr 0;
  dg ← green_offset intensity;
  g_shifted ← offset g dg 0;
  merge r_shifted g_shifted b.

(** [lambda p: max(0, min(255, int(p * intensity * 0.5)))] *)
Definition etch_mask_value (intensity : spec_float) (p : Z) : result Z :=
  fp ← float_of_int p;
  v ← py_int (fmul (fmul fp intensity) f0_5);
  Ok (Z.max 0 (Z.min 255 v)).

Definition circuit_etch (img : Image) (intensity : spec_float) : result Image :=
  let edges := convert_L (find_edges img) in
  mask ← point (etch_mask_value intensity) edges;
  let size := (width img, height img) in
  let glow_layer := new_RGBA size (0, 0, 0, 0) in
  let solid_green := new_L size 200 in
  let glow_layer := paste_mask glow_layer solid_green mask in
  Ok (rgba_to_RGB (alpha_composite (to_RGBA img) glow_layer)).

(** The sizes that the rank filter of the library can take: it works on
    [size * size] values of four bytes, counted in a C integer. *)
Definition rank_size_fits (size : Z) : bool :=
  (1 <=? size) && (size <=? (2 ^ 31 - 1) / size)
  && (size <=? (2 ^ 31 - 1) / (size * 4)).

(** [img.filter(ImageFilter.MedianFilter(size=size))]: the rank filter
    refuses an even size and a size it cannot take. (For a size that is
    too large the library fails in one of several ways, by the size and
    the memory at hand; it is rendered as ValueError here.) *)
Definition median_filter (size : Z) (img : Image) : result Image :=
  if Z.even size then Raise ValueError
  else if rank_size_fits size then Ok (rank_median size img)
  else Raise ValueError.

(** The two lines that make the kernel size odd and at least 3. *)
Definition odd_size (raw_size : Z) : Z :=
  let size := if raw_size mod 2 =? 1 then raw_size else raw_size + 1 in
  Z.max 3 size.

(** The kernel size handed to the median filter. *)
Definition median_size (intensity : spec_float) : result Z :=
  raw_size ← py_int (fadd f3 (fmul intensity f2));
  Ok (odd_size raw_size).

Definition simulate_oil_paint (img : Image) (intensity : spec_float) : result Image :=
  size ← median_size intensity;
  oiled ← median_filter size img;
  Ok (enhance_sharpness oiled (fadd f1_0 (fmul intensity f0_5))).

Definition watercolor_wash (img : Image) (intensity : spec_float) : Image :=
  let washed := gaussian_blur (fmul intensity f1_0) img in
  let tint_factor := fadd f1_0 (fmul intensity f0_1) in
  enhance_color washed tint_factor.

(** [relief.convert("RGB")] is a copy of a picture that is RGB already. *)
Definition emboss_relief (img : Image) (intensity : spec_float) : Image :=
  let embossed := emboss img in
  let relief := enhance_contrast embossed (fmul intensity f0_4) in
  blend img relief (fmul intensity f0_4).

(** [(step / max_steps) * 1.5] *)
Definition ramp (step max_steps : Z) : result spec_float :=
  ratio ← int_truediv step max_steps;
  Ok (fmul ratio f1_5).

(** [max(1, 8 - int(intensity * 2))] *)
Definition poster_bits (intensity : spec_float) : result Z :=
  t ← py_int (fmul intensity f2);
  Ok (Z.max 1 (8 - t)).

(** The stack of effects at a given intensity ([edged.convert("RGB")] is a
    copy of a picture that is RGB already). *)
Definition effect_pipeline (img : Image) (intensity : spec_float) : M Image :=
  let blurred := gaussian_blur (fmul intensity f1_5) img in
  let contrasted := enhance_contrast blurred (fadd f1_0 (fmul intensity f0_5)) in
  let color_surge := enhance_color contrasted (fadd f1_1 (fmul intensity f0_4)) in
  bits ← lift (poster_bits intensity);
  posterized ← lift (posterize color_surge bits);
  noised ← add_pixel_noise posterized intensity;
  let edged := find_edges noised in
  let edged := enhance_brightness edged (fmul intensity f0_3) in
  let glitched := blend noised edged (fmul intensity f0_2) in
  aberrated ← lift (chromatic_aberration glitched intensity);
  etched ← lift (circuit_etch aberrated intensity);
  oiled ← lift (simulate_oil_paint etched intensity);
  let washed := watercolor_wash oiled intensity in
  let relieved := emboss_relief washed intensity in
  mret relieved.

Definition progressive_glitch (img : Image) (step max_steps : Z) : M Image :=
  intensity ← lift (ramp step max_steps);
  effect_pipeline img intensity.

(** ** The variant generator *)

(** [f"jack_{i}.png"] *)
Definition jack_name (i : Z) : string := "jack_" +:+ pretty i +:+ ".png".

(** One turn of the loop of the generator: step [i] is computed from the
    previous one, saved and recorded. *)
Definition jack_step (num_images : Z) (output_dir : string)
    (state : Image * list string) (i : Z) : M (Image * list string) :=
  let '(current, variants) := state in
  current ← progressive_glitch current i num_images;
  let output_path := Path.join output_dir (jack_name i) in
  save current output_path;;
  let variants := variants ++ [output_path] in
  print ("Jack'd: " +:+ output_path +:+ " (step " +:+ pretty i +:+ "/"
         +:+ pretty num_images +:+ " intensity)");;
  mret (current, variants).

Definition generate_jack_variants (input_path : string) (num_images : Z)
    (output_dir : string) : M (list string) :=
  base_image ← open_RGB input_path;
  makedirs output_dir;;
  let variants := [] in
  let base_path := Path.join output_dir "jack_0.png" in
  save base_image base_path;;
  let variants := variants ++ [base_path] in
  print ("Jack'd: " +:+ base_path +:+ " (step 0 - pristine cyber sip)");;
  '(current, variants) ←
    for_M (jack_step num_images output_dir) (seqZ 1 num_images)
      (base_image, variants);
  mret variants.

(** ** The caption generator *)

Definition nl : string := String (ascii_of_nat 10) EmptyString.

Definition header : string :=
  "ðŸ§µ Cyber Splash Pijack: Neon waifu unravelsâ€”fringes flare, circuits etch, oils drip in the grid. Bench-born glow. #CyberGlitch #NeonArt" +:+ nl +:+ nl.

Definition footer : string :=
  "Grid collapse. Which pulse hooks you? Quote to hack. ðŸŒðŸ’¨".

Definition dash : string := "â€”".

Definition effects : list string :=
  [ "chromatic fringes tease the blue haze";
    "saturation surges, wires glow faint";
    "watercolor bleeds into tattoo veins";
    "oil strokes slick the cyber storm";
    "emboss relief fractures the sip" ].

Definition fallback : string := "matrix meltdown peaks".

Definition len {A : Type} (l : list A) : Z := Z.of_nat (List.length l).

(** [l[i]], with Python's negative indices *)
Definition list_get {A : Type} (l : list A) (i : Z) : result A :=
  let j := if i <? 0 then len l + i else i in
  if j <? 0 then Raise IndexError
  else match l !! Z.to_nat j with
       | Some x => Ok x
       | None => Raise IndexError
       end.

(** [enumerate(xs, start)] *)
Fixpoint enumerate {A : Type} (start : Z) (xs : list A) : list (Z * A) :=
  match xs with
  | [] => []
  | x :: rest => (start, x) :: enumerate (start + 1) rest
  end.

(** The truth value of [watermark_text]: [None] and the empty string are false. *)
Definition truthy (watermark_text : option string) : bool :=
  match watermark_text with
  | Some s => negb (String.eqb s "")
  | None => false
  end.

(** [effects[i-1] if i <= len(effects) else 'matrix meltdown peaks'] *)
Definition phrase (i : Z) : result string :=
  if i <=? len effects then list_get effects (i - 1) else Ok fallback.

(** One turn of the caption loop: the paragraph of variant [i]. *)
Definition caption (variants : list string) (watermark_text : option string)
    (i : Z) (path : string) : result string :=
  p ← phrase i;
  let cap := pretty i +:+ "/" +:+ pretty (len variants - 1) +:+ ": Ramp "
             +:+ pretty i +:+ dash +:+ p +:+ ". Portrait pulses. " in
  let cap := if truthy watermark_text
             then cap +:+ default "" watermark_text +:+ " " else cap in
  let cap := cap +:+ nl +:+ "[Neon Fracture: " +:+ Path.basename path +:+ "]"
             +:+ nl +:+ nl in
  Ok cap.

Definition caption_name : string := "cyber_jack_thread.txt".

(** One turn of the caption loop. *)
Definition caption_step (variants : list string) (watermark_text : option string)
    (thread : string) (numbered : Z * string) : result string :=
  let '(i, path) := numbered in
  cap ← caption variants watermark_text i path;
  Ok (thread +:+ cap).

Definition jack_thread_captions (variants : list string)
    (watermark_text : option string) : M string :=
  let thread := header in
  thread ← lift (for_result (caption_step variants watermark_text)
                   (enumerate 1 (tail variants)) thread);
  let thread := thread +:+ footer in
  let output_dir := match variants with
                    | first :: _ => Path.dirname first
                    | [] => "."
                    end in
  let caption_file := Path.join output_dir caption_name in
  write_file caption_file (FText thread);;
  print ("Cyber jack thread ready: " +:+ caption_file);;
  mret thread.

(** ** The entry point *)

Record Args := {
  input : string;
  num_images : Z;
  output_dir : string;
  watermark_text : option string;
}.

Definition main (args : Args) : M unit :=
  variants ← generate_jack_variants (input args) (num_images args) (output_dir args);
  thread ← jack_thread_captions variants (watermark_text args);
  print (nl +:+ "--- CYBER JACK THREAD ---" +:+ nl +:+ " " +:+ thread).

End Script.

(** ** Auxiliary definitions for the proofs *)

(** Where the remainder of [a / b] lies with respect to one half. *)
Definition classify (a b : Z) : location :=
  if a mod b =? 0 then loc_Exact else loc_Inexact (2 * (a mod b) ?= b).

(** A shift record stands for the rational [a / b]: it holds its integer
    part and the position of its fractional part. *)
Definition Rep (mrs : shr_record) (a b : Z) : Prop :=
  shr_m mrs = a / b ∧ loc_of_shr_record mrs = classify a b.

(** The integer nearest to [a / b], ties going to the even one. *)
Definition rnd_Z (a b : Z) : Z :=
  let q := a / b in
  match 2 * (a mod b) ?= b with
  | Lt => q
  | Eq => if Z.even q then q else q + 1
  | Gt => q + 1
  end.

(** The number of low bits dropped from a significand [m] at exponent [e]. *)
Definition shift_amount (m e : Z) : Z := Z.max 0 (fexp prec emax (Zdigits2 m + e) - e).

(** What [binary_round_aux] computes on the rational [a / b] scaled by [2^e],
    with the two shifts and the rounding in closed form. *)
Definition round_model (s : bool) (a b e : Z) : spec_float :=
  let n1 := shift_amount (a / b) e in
  let E := e + n1 in
  let m1 := rnd_Z a (b * 2 ^ n1) in
  let n2 := shift_amount m1 E in
  match m1 / 2 ^ n2 with
  | Z0 => S754_zero s
  | Zpos p => if E + n2 <=? emax - prec then S754_finite s p (E + n2) else S754_infinity s
  | Zneg _ => S754_nan
  end.

(** The scaling of the dividend chosen by the division of two integers. *)
Definition quot_scale (i N : Z) : Z := - Z.min (fexp prec emax (Zdigits2 i - Zdigits2 N)) 0.

(** A non-negative finite float below [2^B]. *)
Definition Small (B : Z) (f : spec_float) : Prop :=
  match f with
  | S754_zero s => s = false
  | S754_finite s m e => s = false ∧ Zdigits2 (Z.pos m) + e ≤ B
  | _ => False
  end.

(** A pixel after the noise [n] has been added to its three channels. *)
Definition noisy (p : pixel) (n : Z) : pixel :=
  let '(r, g, b) := p in
  (clamp255 (r + n), clamp255 (g + n), clamp255 (b + n)).

(** An RGB picture holds 8-bit channels. *)
Definition rgb8 (img : Image) : Prop :=
  ∀ x y, in_bounds (width img) (height img) x y = true →
    let '(r, g, b) := pixel_at img x y in
    0 ≤ r ≤ 255 ∧ 0 ≤ g ≤ 255 ∧ 0 ≤ b ≤ 255.

(** The rational [a / b] is rounded at the exponent [-t]: it has at most 53
    bits above that exponent, and exactly 53 unless [-t] is the least exponent. *)
Definition at_scale (a b t : Z) : Prop :=
  0 ≤ t ≤ 1074 ∧ a * 2 ^ t < 2 ^ 53 * b ∧ (t = 1074 ∨ 2 ^ 52 * b ≤ a * 2 ^ t).

(** The float [f] stands for [r / 2^t]. *)
Definition has_value (f : spec_float) (r t : Z) : Prop :=
  match f with
  | S754_zero s => s = false ∧ r = 0
  | S754_finite s m e => s = false ∧ 0 ≤ e + t ∧ r = Z.pos m * 2 ^ (e + t)
  | _ => False
  end.

(** The bit depth in the words of the specification: max(1, 8 - 2 * intensity). *)
Definition spec_poster_depth (intensity : spec_float) : Q :=
  Qmax 1 (8 - 2 * SF2Q intensity).

(** What [os.path.join] puts in front of a relative second component. *)
Definition join_prefix (a : string) : string :=
  if (String.eqb a "" || Path.endswith_sep a)%bool then a else a +:+ String Path.sep "".

Fixpoint last_char (s : string) : option ascii :=
  match s with
  | EmptyString => None
  | String c EmptyString => Some c
  | String _ rest => last_char rest
  end.

(** The path of the picture of step [i]. *)
Definition jack_path (dir : string) (i : Z) : string := Path.join dir (jack_name i).

(** The path of the caption file of a run that writes into [dir]. *)
Definition caption_path (dir : string) : string :=
  Path.join (Path.dirname (jack_path dir 0)) caption_name.

Definition is_image `{Imaging} (entry : string * file) : Prop :=
  ∃ img, entry.2 = FImage img.

(** The phrase of paragraph [i], in the words of the specification: the
    [i]-th entry of the bank while it lasts, the fallback afterwards. *)
Definition chosen_phrase (i : Z) : string :=
  if i <=? 5 then nth (Z.to_nat (i - 1)) effects fallback else fallback.

Definition numbered_line (total i : Z) (ph : string) : string :=
  pretty i +:+ "/" +:+ pretty total +:+ ": Ramp " +:+ pretty i +:+ dash +:+ ph
  +:+ ". Portrait pulses. ".

Definition watermark_part (watermark_text : option string) : string :=
  match watermark_text with
  | Some s => if String.eqb s "" then "" else s +:+ " "
  | None => ""
  end.

Definition reference_line (path : string) : string :=
  nl +:+ "[Neon Fracture: " +:+ Path.basename path +:+ "]" +:+ nl +:+ nl.

(** Paragraph [i] of a thread over [total] variants. *)
Definition paragraph (total : Z) (watermark_text : option string) (ip : Z * string) : string :=
  (numbered_line total ip.1 (chosen_phrase ip.1) +:+ watermark_part watermark_text)
  +:+ reference_line ip.2.

(** The concatenation of a list of strings. *)
Definition join_all (l : list string) : string := foldr String.append "" l.

(** ** Fixtures for the worked examples *)

(** An imaging library whose filters leave the picture as it is. *)
Definition plain_imaging : Imaging :=
  {| picture := Image;
     rgba := Image;
     convert_RGB := λ p, p;
     gaussian_blur := λ _ img, img;
     enhance_contrast := λ img _, img;
     enhance_color := λ img _, img;
     enhance_brightness := λ img _, img;
     enhance_sharpness := λ img _, img;
     find_edges := λ img, img;
     emboss := λ img, img;
     blend := λ a _ _, a;
     rank_median := λ _ img, img;
     convert_L := λ img, (split img).1.1;
     new_RGBA := λ size _, {| width := size.1; height := size.2;
                              pixel_at := λ _ _, (0, 0, 0) |};
     new_L := λ size v, {| band_width := size.1; band_height := size.2;
                           value_at := λ _ _, v |};
     paste_mask := λ layer _ _, layer;
     to_RGBA := λ img, img;
     alpha_composite := λ a _, a;
     rgba_to_RGB := λ img, img |}.

(** A generator that alternates between the two ends of the range. *)
Definition swing_random : Random :=
  {| randint_at := λ t a b, if Nat.even t then a else b;
     randint_range := λ t a b Hab,
       match Nat.even t as c return a ≤ (if c then a else b) ≤ b with
       | true => conj (Z.le_refl a) Hab
       | false => conj Hab (Z.le_refl b)
       end |}.

(** A disk on which every directory can be made. *)
Definition open_disk : Storage := {| makedirs_refusal := λ _, None |}.

(** A 2 x 2 picture. *)
Definition tile : Image :=
  {| width := 2; height := 2; pixel_at := λ x y, (100 + x, 250 + y, 3) |}.

Definition attic : @World plain_imaging :=
  {| fs := [("in.jpg", @FPicture plain_imaging tile)]; dirs := []; console := []; draws := 0 |}.

Definition two_steps : Args :=
  {| input := "in.jpg"; num_images := 2; output_dir := "out";
     watermark_text := Some "@me" |}.

Definition no_step : Args :=
  {| input := "in.jpg"; num_images := 0; output_dir := "out";
     watermark_text := None |}.

(** ** Auxiliary definitions for the further properties *)

(** The console line of step [i] of a run over [N] steps. *)
Definition jack_line (N : Z) (dir : string) (i : Z) : string :=
  "Jack'd: " +:+ jack_path dir i +:+ " (step " +:+ pretty i +:+ "/" +:+ pretty N
  +:+ " intensity)".

(** Each picture of [imgs] comes out of the step that is run on the picture
    before it, the first one on [prev] at step [i]. *)
Fixpoint glitch_chain `{Imaging} `{Random} (N : Z) (prev : Image) (i : Z)
    (imgs : list Image) : Prop :=
  match imgs with
  | [] => True
  | img :: rest =>
      (∃ w d, progressive_glitch prev i N w = (Ok img, with_draws w d))
      ∧ glitch_chain N img (i + 1) rest
  end.

(** The exception raised by [Image.open(path).convert("RGB")] on what the
    path holds, if any: a missing file or a file that is no picture. *)
Definition load_error `{Imaging} (found : option file) : option exn :=
  match found with
  | None => Some FileNotFoundError
  | Some (FText _) => Some UnidentifiedImageError
  | Some _ => None
  end.

(** The arguments of a run with the step count replaced. *)
Definition with_num_images (args : Args) (n : Z) : Args :=
  {| input := input args; num_images := n; output_dir := output_dir args;
     watermark_text := watermark_text args |}.

(** The console line of step 0. *)
Definition pristine_line (dir : string) : string :=
  "Jack'd: " +:+ jack_path dir 0 +:+ " (step 0 - pristine cyber sip)".

(** The last console line of a run: the banner and the thread. *)
Definition thread_line (text : string) : string :=
  nl +:+ "--- CYBER JACK THREAD ---" +:+ nl +:+ " " +:+ text.

Definition lost_source : Args :=
  {| input := "gone.jpg"; num_images := 2; output_dir := "out";
     watermark_text := None |}.

(** A run whose output directory is named like its source file. *)
Definition onto_source : Args :=
  {| input := "in.jpg"; num_images := 0; output_dir := "in.jpg";
     watermark_text := None |}.

Definition nowhere : Args :=
  {| input := "in.jpg"; num_images := 2; output_dir := "";
     watermark_text := None |}.

(** A computation that touches nothing of the world but the counter of the
    random draws, which it never turns back. *)
Definition only_draws `{Imaging} {A : Type} (m : M A) : Prop :=
  ∀ w, ∃ r d, m w = (r, with_draws w d) ∧ (draws w ≤ d)%nat.

(** [z] is the least odd integer that is at least 3 and at least [raw]. *)
Definition least_odd_size (raw z : Z) : Prop :=
  Z.odd z = true ∧ 3 ≤ z ∧ raw ≤ z
  ∧ ∀ z', Z.odd z' = true → 3 ≤ z' → raw ≤ z' → z ≤ z'.

(** A picture without any pixel. *)
Definition blank : Image := {| width := 0; height := 5; pixel_at := λ _ _, (0, 0, 0) |}.

(** A computation that never raises ZeroDivisionError. *)
Definition never_divides `{Imaging} {A : Type} (m : M A) : Prop :=
  ∀ w w', m w ≠ (Raise ZeroDivisionError, w').

(** The picture that a step posterizes: blurred, contrasted, saturated. *)
Definition color_surge `{Imaging} (img : Image) (intensity : spec_float) : Image :=
  enhance_color
    (enhance_contrast (gaussian_blur (fmul intensity f1_5) img)
       (fadd f1_0 (fmul intensity f0_5)))
    (fadd f1_1 (fmul intensity f0_4)).

(** A float constant of full precision: its significand has 53 bits. *)
Definition full_constant (C : positive) : Prop := 2 ^ 52 ≤ Z.pos C < 2 ^ 53.

(** A string without any path separator. *)
Fixpoint no_sep (s : string) : bool :=
  match s with
  | EmptyString => true
  | String c rest => negb (Path.is_sep c) && no_sep rest
  end.

(** Paragraph [i] of the thread of a run over [N] steps: it names the
    picture of the step by its file name. *)
Definition thread_paragraph (N : Z) (watermark_text : option string) (i : Z) : string :=
  (numbered_line N i (chosen_phrase i) +:+ watermark_part watermark_text)
  +:+ nl +:+ "[Neon Fracture: " +:+ jack_name i +:+ "]" +:+ nl +:+ nl.

(** The thread of a run over [N] steps. *)
Definition thread_text (N : Z) (watermark_text : option string) : string :=
  header +:+ join_all (thread_paragraph N watermark_text <$> seqZ 1 N) +:+ footer.

(** What [os.path.dirname] makes of the head of a split path. *)
Definition trim_head (head : string) : string :=
  if (negb (String.eqb head "") && negb (Path.all_sep head))%bool
  then Path.rstrip_sep head else head.

(** * Facts about binary64 rounding *)

Lemma digits2_pos_bounds p :
  2 ^ (Z.pos (digits2_pos p) - 1) ≤ Z.pos p < 2 ^ Z.pos (digits2_pos p).
Proof.
  induction p as [p IH|p IH|]; simpl digits2_pos; [| |simpl; lia].
  all: rewrite Pos2Z.inj_succ;
    replace (Z.succ (Z.pos (digits2_pos p)) - 1) with (Z.succ (Z.pos (digits2_pos p) - 1)) by lia;
    rewrite !Z.pow_succ_r by lia; lia.
Qed.

Lemma Zdigits2_bounds m :
  0 < m → 2 ^ (Zdigits2 m - 1) ≤ m < 2 ^ Zdigits2 m.
Proof.
  destruct m as [|p|p]; try lia. intros _. apply digits2_pos_bounds.
Qed.

Lemma Zdigits2_nonneg m : 0 ≤ Zdigits2 m.
Proof. destruct m; simpl; lia. Qed.

Lemma Zdigits2_le m k : 0 ≤ m → 0 ≤ k → m < 2 ^ k → Zdigits2 m ≤ k.
Proof.
  intros Hm Hk Hlt. destruct (Z.eq_dec m 0) as [->|Hne]; [simpl; lia|].
  destruct (Zdigits2_bounds m) as [Hlo _]; [lia|].
  destruct (Z_le_gt_dec (Zdigits2 m) k) as [|Hgt]; [assumption|].
  exfalso. assert (2 ^ k ≤ 2 ^ (Zdigits2 m - 1)) by (apply Z.pow_le_mono_r; lia). lia.
Qed.

Lemma Zdigits2_gt m k : 0 ≤ k → 2 ^ k ≤ m → k < Zdigits2 m.
Proof.
  intros Hk Hle. assert (0 < m) by (pose proof (Z.pow_pos_nonneg 2 k); lia).
  destruct (Zdigits2_bounds m) as [_ Hhi]; [lia|].
  destruct (Z_lt_le_dec k (Zdigits2 m)) as [|Hge]; [assumption|].
  exfalso. assert (2 ^ Zdigits2 m ≤ 2 ^ k) by (apply Z.pow_le_mono_r; lia). lia.
Qed.

Lemma iter_pos_invariant {A : Type} (f : A → A) (R : Z → A → Prop) :
  (∀ k x, 0 ≤ k → R k x → R (k + 1) (f x)) →
  ∀ p k x, 0 ≤ k → R k x → R (k + Z.pos p) (SpecFloat.iter_pos f p x).
Proof.
  intros Hstep. induction p as [p IH|p IH|]; intros k x Hk HR; simpl.
  - replace (k + Z.pos p~1) with (k + 1 + Z.pos p + Z.pos p) by lia.
    apply IH; [lia|]. apply IH; [lia|]. apply Hstep; assumption.
  - replace (k + Z.pos p~0) with (k + Z.pos p + Z.pos p) by lia.
    apply IH; [lia|]. apply IH; assumption.
  - apply Hstep; assumption.
Qed.

Lemma classify_cases a b :
  0 < b →
  (a mod b = 0 ∧ classify a b = loc_Exact) ∨
  (0 < a mod b ∧ 2 * (a mod b) < b ∧ classify a b = loc_Inexact Lt) ∨
  (2 * (a mod b) = b ∧ classify a b = loc_Inexact Eq) ∨
  (b < 2 * (a mod b) ∧ classify a b = loc_Inexact Gt).
Proof.
  intros Hb. pose proof (Z.mod_pos_bound a b Hb) as Hr. unfold classify.
  destruct (Z.eqb_spec (a mod b) 0) as [E|E]; [left; done|right].
  destruct (Z.compare_spec (2 * (a mod b)) b); [right; left|left|right; right]; split_and?; try done; lia.
Qed.

Lemma shr_1_Rep mrs a b :
  0 ≤ a → 0 < b → Rep mrs a b → Rep (shr_1 mrs) a (2 * b).
Proof.
  intros Ha Hb [Hm Hl].
  assert (Hdiv : a / (2 * b) = (a / b) / 2).
  { rewrite (Z.mul_comm 2 b). rewrite Z.div_div by lia. reflexivity. }
  assert (Hmod : a mod (2 * b) = a mod b + b * ((a / b) mod 2)).
  { rewrite (Z.mul_comm 2 b). apply Z.rem_mul_r; lia. }
  pose proof (Z.mod_pos_bound a b Hb) as Hr.
  pose proof (Z.div_pos a b Ha Hb) as Hq.
  pose proof (Z.div_mod (a / b) 2 ltac:(lia)) as Hq2.
  pose proof (Z.mod_pos_bound (a / b) 2 ltac:(lia)) as Hr2.
  assert (Hs : orb (shr_r mrs) (shr_s mrs) = negb (a mod b =? 0)).
  { destruct (classify_cases a b Hb) as [[E1 E2]|[(E0 & E1 & E2)|[[E1 E2]|[E1 E2]]]];
      rewrite E2 in Hl; destruct mrs as [m [] []]; simpl in *; try discriminate;
      symmetry; try (apply negb_true_iff, Z.eqb_neq; lia).
    rewrite E1. reflexivity. }
  destruct mrs as [m r s]. simpl in Hm, Hs. subst m.
  unfold Rep. rewrite Hdiv.
  assert (Hshape : shr_1 {| shr_m := a / b; shr_r := r; shr_s := s |} =
                   {| shr_m := a / b / 2; shr_r := Z.odd (a / b); shr_s := orb r s |}).
  { rewrite <- Z.div2_div. destruct (a / b) as [|p|p] eqn:E; [reflexivity| |lia].
    destruct p; reflexivity. }
  rewrite Hshape. simpl. split; [reflexivity|].
  rewrite Hs. unfold classify. rewrite Hmod.
  rewrite Zmod_odd in *. destruct (Z.odd (a / b)); simpl.
  - destruct (Z.eqb_spec (a mod b) 0) as [E|E]; simpl.
    + destruct (Z.eqb_spec (a mod b + b * 1) 0); [lia|].
      f_equal. symmetry. apply Z.compare_eq_iff. lia.
    + destruct (Z.eqb_spec (a mod b + b * 1) 0); [lia|].
      f_equal. symmetry. apply Z.compare_gt_iff. lia.
  - destruct (Z.eqb_spec (a mod b) 0) as [E|E]; simpl.
    + destruct (Z.eqb_spec (a mod b + b * 0) 0); [reflexivity|lia].
    + destruct (Z.eqb_spec (a mod b + b * 0) 0); [lia|].
      f_equal. symmetry. apply Z.compare_lt_iff. lia.
Qed.

Lemma iter_shr_Rep p mrs a b :
  0 ≤ a → 0 < b → Rep mrs a b → Rep (SpecFloat.iter_pos shr_1 p mrs) a (b * 2 ^ Z.pos p).
Proof.
  intros Ha Hb HR.
  assert (Hstep : ∀ k x, 0 ≤ k → Rep x a (b * 2 ^ k) → Rep (shr_1 x) a (b * 2 ^ (k + 1))).
  { intros k x Hk Hx. rewrite Z.pow_add_r by lia.
    replace (b * (2 ^ k * 2 ^ 1)) with (2 * (b * 2 ^ k)) by lia.
    apply shr_1_Rep; [lia| |assumption].
    pose proof (Z.pow_pos_nonneg 2 k); nia. }
  pose proof (iter_pos_invariant shr_1 (λ k x, Rep x a (b * 2 ^ k)) Hstep p 0 mrs) as Hinv.
  simpl in Hinv. apply Hinv; [lia|]. rewrite Z.mul_1_r. assumption.
Qed.

Lemma Rep_of_loc a b :
  0 < b → Rep (shr_record_of_loc (a / b) (classify a b)) a b.
Proof.
  intros Hb. split.
  - destruct (classify a b) as [|[]]; reflexivity.
  - destruct (classify a b) as [|[]]; reflexivity.
Qed.

Lemma shr_Rep mrs a b e n :
  0 ≤ a → 0 < b → Rep mrs a b →
  ∃ mrs', shr mrs e n = (mrs', e + Z.max 0 n) ∧ Rep mrs' a (b * 2 ^ Z.max 0 n).
Proof.
  intros Ha Hb HR. destruct n as [|p|p]; simpl.
  - exists mrs. rewrite Z.add_0_r, Z.mul_1_r. done.
  - exists (SpecFloat.iter_pos shr_1 p mrs). split; [reflexivity|].
    apply iter_shr_Rep; assumption.
  - exists mrs. rewrite Z.add_0_r, Z.mul_1_r. done.
Qed.

Lemma round_nearest_even_Rep mrs a b :
  0 < b → Rep mrs a b →
  round_nearest_even (shr_m mrs) (loc_of_shr_record mrs) = rnd_Z a b.
Proof.
  intros Hb [Hm Hl]. rewrite Hm, Hl. unfold rnd_Z.
  destruct (classify_cases a b Hb) as [[E1 E2]|[(E0 & E1 & E2)|[[E1 E2]|[E1 E2]]]];
    rewrite E2; simpl;
    destruct (Z.compare_spec (2 * (a mod b)) b); try lia; reflexivity.
Qed.

Lemma binary_round_aux_model s a b e :
  0 ≤ a → 0 < b →
  binary_round_aux prec emax s (a / b) e (classify a b) = round_model s a b e.
Proof.
  intros Ha Hb. unfold binary_round_aux, round_model, shr_fexp.
  destruct (shr_Rep (shr_record_of_loc (a / b) (classify a b)) a b e
              (fexp prec emax (Zdigits2 (a / b) + e) - e) Ha Hb (Rep_of_loc a b Hb))
    as (mrs' & -> & HR').
  fold (shift_amount (a / b) e) in *.
  assert (Hb' : 0 < b * 2 ^ shift_amount (a / b) e).
  { pose proof (Z.pow_pos_nonneg 2 (shift_amount (a / b) e)). unfold shift_amount in *. nia. }
  rewrite (round_nearest_even_Rep _ _ _ Hb' HR').
  set (m1 := rnd_Z a (b * 2 ^ shift_amount (a / b) e)).
  assert (Hm1 : 0 ≤ m1).
  { unfold m1, rnd_Z. pose proof (Z.div_pos a _ Ha Hb').
    destruct (_ ?= _); [destruct (Z.even _)| |]; lia. }
  set (E := e + shift_amount (a / b) e).
  assert (HR1 : Rep (shr_record_of_loc m1 loc_Exact) m1 1).
  { split; simpl; [symmetry; apply Z.div_1_r|]. unfold classify. rewrite Z.mod_1_r. reflexivity. }
  destruct (shr_Rep _ m1 1 E (fexp prec emax (Zdigits2 m1 + E) - E) Hm1 ltac:(lia) HR1)
    as (mrs'' & -> & [Hm'' _]).
  fold (shift_amount m1 E) in *. rewrite Hm'', Z.mul_1_l. reflexivity.
Qed.

Lemma rnd_Z_bounds a b : 0 < b → a / b ≤ rnd_Z a b ≤ a / b + 1.
Proof.
  intros Hb. unfold rnd_Z. cbv zeta.
  destruct (2 * (a mod b) ?= b); try destruct (Z.even (a / b)); lia.
Qed.

Lemma rnd_Z_exact c b : 0 < b → rnd_Z (c * b) b = c.
Proof.
  intros Hb. unfold rnd_Z. rewrite Z.mod_mul, Z.div_mul by lia.
  destruct (Z.compare_spec (2 * 0) b); lia.
Qed.

Lemma rnd_Z_scale a b c : 0 < b → 0 < c → rnd_Z (a * c) (b * c) = rnd_Z a b.
Proof.
  intros Hb Hc. unfold rnd_Z.
  rewrite Z.div_mul_cancel_r by lia.
  rewrite Z.mul_mod_distr_r by lia.
  assert ((2 * (a mod b * c) ?= b * c) = (2 * (a mod b) ?= b)) as ->; [|reflexivity].
  replace (2 * (a mod b * c)) with (2 * (a mod b) * c) by lia.
  destruct (Z.compare_spec (2 * (a mod b)) b); [apply Z.compare_eq_iff|apply Z.compare_lt_iff|apply Z.compare_gt_iff]; nia.
Qed.

Lemma rnd_Z_le_int a b c : 0 < b → a ≤ c * b → rnd_Z a b ≤ c.
Proof.
  intros Hb Hle. unfold rnd_Z.
  pose proof (Z.div_mod a b ltac:(lia)). pose proof (Z.mod_pos_bound a b Hb).
  assert (a / b ≤ c) by nia.
  destruct (Z.compare_spec (2 * (a mod b)) b); try destruct (Z.even _); try lia; nia.
Qed.

Lemma rnd_Z_ge_int a b c : 0 < b → c * b ≤ a → c ≤ rnd_Z a b.
Proof.
  intros Hb Hle. pose proof (rnd_Z_bounds a b Hb).
  pose proof (Z.div_mod a b ltac:(lia)). pose proof (Z.mod_pos_bound a b Hb).
  assert (c ≤ a / b) by nia. lia.
Qed.

Lemma rnd_Z_mono a1 b1 a2 b2 :
  0 < b1 → 0 < b2 → a1 * b2 ≤ a2 * b1 → rnd_Z a1 b1 ≤ rnd_Z a2 b2.
Proof.
  intros Hb1 Hb2 Hle.
  pose proof (Z.div_mod a1 b1 ltac:(lia)) as D1. pose proof (Z.mod_pos_bound a1 b1 Hb1) as M1.
  pose proof (Z.div_mod a2 b2 ltac:(lia)) as D2. pose proof (Z.mod_pos_bound a2 b2 Hb2) as M2.
  assert (Hq : a1 / b1 ≤ a2 / b2).
  { destruct (Z_le_gt_dec (a1 / b1) (a2 / b2)); [assumption|]. exfalso.
    assert (Hs : a2 / b2 + 1 ≤ a1 / b1) by lia.
    assert (0 < b1 * b2) by nia.
    assert (b1 * b2 * (a2 / b2 + 1) ≤ b1 * b2 * (a1 / b1)) by (apply Z.mul_le_mono_nonneg_l; lia).
    assert (a1 mod b1 * b2 >= 0) by nia.
    assert (a2 mod b2 * b1 < b2 * b1) by nia.
    assert (a1 * b2 = b1 * b2 * (a1 / b1) + a1 mod b1 * b2) by (rewrite D1 at 1; ring).
    assert (a2 * b1 = b1 * b2 * (a2 / b2) + a2 mod b2 * b1) by (rewrite D2 at 1; ring).
    lia. }
  destruct (Z.eq_dec (a1 / b1) (a2 / b2)) as [Heq|Hne].
  - unfold rnd_Z. rewrite <- Heq.
    assert (Hr : (a1 mod b1) * b2 ≤ (a2 mod b2) * b1).
    { assert (a1 * b2 = b1 * b2 * (a1 / b1) + a1 mod b1 * b2) by (rewrite D1 at 1; ring).
      assert (a2 * b1 = b1 * b2 * (a1 / b1) + a2 mod b2 * b1) by (rewrite D2 at 1; rewrite Heq; ring).
      lia. }
    destruct (Z.compare_spec (2 * (a1 mod b1)) b1);
      destruct (Z.compare_spec (2 * (a2 mod b2)) b2);
      destruct (Z.even (a1 / b1)); try lia; nia.
  - pose proof (rnd_Z_bounds a1 b1 Hb1). pose proof (rnd_Z_bounds a2 b2 Hb2). lia.
Qed.

Lemma new_location_classify a b : 0 < b → new_location b (a mod b) = classify a b.
Proof.
  intros Hb. pose proof (Z.mod_pos_bound a b Hb) as Hr.
  unfold new_location, classify, new_location_even, new_location_odd.
  destruct (Z.even b) eqn:Ev; destruct (Z.eqb_spec (a mod b) 0); try reflexivity.
  f_equal.
  assert (Hodd : Z.odd b = true) by (rewrite <- Z.negb_even, Ev; reflexivity).
  apply Z.odd_spec in Hodd. destruct Hodd as [k Hk].
  destruct (Z.compare_spec (2 * (a mod b) + 1) b);
    destruct (Z.compare_spec (2 * (a mod b)) b); try reflexivity; lia.
Qed.

Lemma Small_weaken B B' f : B ≤ B' → Small B f → Small B' f.
Proof. intros HB. destruct f; simpl; try done. intros [? ?]. split; [done|lia]. Qed.

Lemma fexp_le k : fexp prec emax k ≤ Z.max k (-1074).
Proof. unfold fexp, emin, prec, emax. lia. Qed.

Lemma fexp_ge k : -1074 ≤ fexp prec emax k.
Proof. unfold fexp, emin, prec, emax. lia. Qed.

Lemma div_pow2_lt m D n : 0 ≤ m → 0 ≤ D → 0 ≤ n → m < 2 ^ D → m / 2 ^ n < 2 ^ Z.max (D - n) 0.
Proof.
  intros Hm HD Hn Hlt.
  assert (Hp : 0 < 2 ^ n) by (apply Z.pow_pos_nonneg; lia).
  destruct (Z_le_gt_dec n D) as [Hle|Hgt].
  - rewrite Z.max_l by lia. apply Z.div_lt_upper_bound; [lia|].
    rewrite <- Z.pow_add_r by lia. replace (n + (D - n)) with D by lia. assumption.
  - rewrite Z.max_r by lia. simpl. apply Z.div_lt_upper_bound; [lia|].
    assert (2 ^ D ≤ 2 ^ n) by (apply Z.pow_le_mono_r; lia). lia.
Qed.

Lemma round_model_small s a b e B :
  0 ≤ a → 0 < b → Zdigits2 (a / b) + e ≤ B → -1074 ≤ B ≤ 971 → s = false →
  Small (B + 1) (round_model s a b e).
Proof.
  intros Ha Hb HB HBr ->. unfold round_model.
  set (m := a / b) in *. set (n1 := shift_amount m e).
  set (E := e + n1). set (m1 := rnd_Z a (b * 2 ^ n1)).
  set (n2 := shift_amount m1 E).
  assert (Hm : 0 ≤ m) by (apply Z.div_pos; lia).
  assert (Hn1 : 0 ≤ n1) by (unfold n1, shift_amount; lia).
  assert (Hn2 : 0 ≤ n2) by (unfold n2, shift_amount; lia).
  assert (Hp1 : 0 < 2 ^ n1) by (apply Z.pow_pos_nonneg; lia).
  assert (Hp2 : 0 < 2 ^ n2) by (apply Z.pow_pos_nonneg; lia).
  pose proof (Zdigits2_nonneg m) as HD.
  assert (HmD : m < 2 ^ Zdigits2 m).
  { destruct (Z.eq_dec m 0) as [->|]; [simpl; lia|]. apply Zdigits2_bounds. lia. }
  assert (Hm1 : m / 2 ^ n1 ≤ m1 ≤ m / 2 ^ n1 + 1).
  { unfold m1, m. rewrite Z.div_div by lia. apply rnd_Z_bounds. nia. }
  pose proof (div_pow2_lt m (Zdigits2 m) n1 Hm HD Hn1 HmD) as Hq.
  set (K := Z.max (Zdigits2 m - n1) 0) in *.
  assert (Hm1K : m1 ≤ 2 ^ K) by lia.
  assert (Hm10 : 0 ≤ m1) by (pose proof (Z.div_pos m (2 ^ n1) Hm Hp1); lia).
  assert (HE : E ≤ Z.max (Zdigits2 m + e) (-1074)).
  { unfold E, n1, shift_amount. pose proof (fexp_le (Zdigits2 m + e)).
    pose proof (fexp_ge (Zdigits2 m + e)). lia. }
  destruct (m1 / 2 ^ n2) as [|p|p] eqn:Eq.
  - reflexivity.
  - assert (Hpos : 0 < m1 / 2 ^ n2) by lia.
    assert (Hn2K : n2 ≤ K).
    { destruct (Z_le_gt_dec n2 K); [assumption|]. exfalso.
      assert (2 ^ K < 2 ^ n2) by (apply Z.pow_lt_mono_r; lia).
      rewrite Z.div_small in Hpos by lia. lia. }
    assert (Hmf : m1 / 2 ^ n2 ≤ 2 ^ (K - n2)).
    { apply Z.div_le_upper_bound; [lia|]. rewrite <- Z.pow_add_r by lia.
      replace (n2 + (K - n2)) with K by lia. assumption. }
    assert (Hdig : Zdigits2 (Z.pos p) ≤ K - n2 + 1).
    { apply Zdigits2_le; [lia|lia|]. rewrite Z.pow_add_r by lia. simpl (2 ^ 1).
      pose proof (Z.pow_pos_nonneg 2 (K - n2)). lia. }
    assert (Hd1 : 1 ≤ Zdigits2 (Z.pos p)) by (simpl; lia).
    assert (Hsum : Zdigits2 (Z.pos p) + (E + n2) ≤ B + 1) by (unfold K in *; lia).
    destruct (Z.leb_spec (E + n2) (emax - prec)) as [Hfin|Hinf].
    + split; [reflexivity|assumption].
    + unfold emax, prec in Hinf. lia.
  - pose proof (Z.div_pos m1 (2 ^ n2) Hm10 Hp2). lia.
Qed.

Lemma classify_1 m : classify m 1 = loc_Exact.
Proof. unfold classify. rewrite Z.mod_1_r. reflexivity. Qed.

Lemma binary_round_aux_exact s m e :
  0 ≤ m → binary_round_aux prec emax s m e loc_Exact = round_model s m 1 e.
Proof.
  intros Hm. rewrite <- (binary_round_aux_model s m 1 e) by lia.
  rewrite Z.div_1_r, classify_1. reflexivity.
Qed.

Lemma Zdigits2_mul_le x y : 0 ≤ x → 0 ≤ y → Zdigits2 (x * y) ≤ Zdigits2 x + Zdigits2 y.
Proof.
  intros Hx Hy. pose proof (Zdigits2_nonneg x). pose proof (Zdigits2_nonneg y).
  apply Zdigits2_le; [nia|lia|].
  destruct (Z.eq_dec x 0) as [->|]; [simpl; apply Z.pow_pos_nonneg; lia|].
  destruct (Z.eq_dec y 0) as [->|]; [rewrite Z.mul_0_r; apply Z.pow_pos_nonneg; lia|].
  destruct (Zdigits2_bounds x) as [_ Hx']; [lia|].
  destruct (Zdigits2_bounds y) as [_ Hy']; [lia|].
  rewrite Z.pow_add_r by lia. nia.
Qed.

Lemma fmul_small Bx By x y :
  Small Bx x → Small By y → -1074 ≤ Bx + By ≤ 971 → Small (Bx + By + 1) (fmul x y).
Proof.
  intros Hx Hy HB. destruct x as [sx| | |sx mx ex], y as [sy| | |sy my ey]; simpl in *; try done.
  - subst. reflexivity.
  - destruct Hy as [-> _]. subst. reflexivity.
  - destruct Hx as [-> _]. subst. reflexivity.
  - destruct Hx as [-> Hx], Hy as [-> Hy].
    unfold fmul, SFmul. rewrite binary_round_aux_exact by lia.
    apply round_model_small; try lia; try reflexivity.
    rewrite Z.div_1_r, Pos2Z.inj_mul.
    pose proof (Zdigits2_mul_le (Z.pos mx) (Z.pos my) ltac:(lia) ltac:(lia)) as Hd.
    simpl Zdigits2 in Hd at 2 3. lia.
Qed.

Lemma pos_iter_xO m d : Z.pos (Pos.iter xO m d) = Z.pos m * 2 ^ Z.pos d.
Proof.
  induction d as [|d IH] using Pos.peano_ind.
  - simpl. lia.
  - rewrite Pos.iter_succ, Pos2Z.inj_xO, IH, Pos2Z.inj_succ.
    rewrite Z.pow_succ_r by lia. ring.
Qed.

Lemma shl_align_spec m e e' :
  Z.pos (fst (shl_align m e e')) = Z.pos m * 2 ^ Z.max 0 (e - e') ∧
  snd (shl_align m e e') = e - Z.max 0 (e - e').
Proof.
  unfold shl_align. destruct (e' - e) as [|d|d] eqn:E; simpl.
  - rewrite Z.max_l by lia. simpl. lia.
  - rewrite Z.max_l by lia. simpl. lia.
  - rewrite pos_iter_xO. replace (Z.max 0 (e - e')) with (Z.pos d) by lia. lia.
Qed.

Lemma Zdigits2_shift_le m d B :
  0 < m → 0 ≤ d → Zdigits2 m ≤ B → Zdigits2 (m * 2 ^ d) ≤ B + d.
Proof.
  intros Hm Hd HB. destruct (Zdigits2_bounds m Hm) as [_ Hhi].
  pose proof (Zdigits2_nonneg m).
  assert (0 < 2 ^ d) by (apply Z.pow_pos_nonneg; lia).
  apply Zdigits2_le; [nia|lia|].
  rewrite Z.pow_add_r by lia.
  assert (2 ^ Zdigits2 m ≤ 2 ^ B) by (apply Z.pow_le_mono_r; lia). nia.
Qed.

Lemma binary_round_small s m e B :
  Zdigits2 (Z.pos m) + e ≤ B → -1074 ≤ B ≤ 971 → s = false →
  Small (B + 1) (binary_round prec emax s m e).
Proof.
  intros HB HBr Hs. unfold binary_round.
  destruct (shl_align_spec m e (fexp prec emax (Z.pos (digits2_pos m) + e))) as [Hf Hs'].
  destruct (shl_align _ _ _) as [mz ez]. simpl in Hf, Hs'.
  rewrite binary_round_aux_exact by lia.
  apply round_model_small; try lia; try assumption.
  rewrite Z.div_1_r, Hf, Hs'.
  set (d := Z.max 0 _).
  pose proof (Zdigits2_shift_le (Z.pos m) d (Zdigits2 (Z.pos m)) ltac:(lia) ltac:(lia) ltac:(lia)).
  lia.
Qed.

Lemma fadd_small Bx By x y :
  Small Bx x → Small By y → -1074 ≤ Z.max Bx By + 1 ≤ 971 →
  Small (Z.max Bx By + 2) (fadd x y).
Proof.
  intros Hx Hy HB.
  destruct x as [sx| | |sx mx ex], y as [sy| | |sy my ey]; simpl in *; try done.
  - subst. reflexivity.
  - destruct Hy as [-> Hy]. split; [reflexivity|lia].
  - destruct Hx as [-> Hx]. split; [reflexivity|lia].
  - destruct Hx as [-> Hx], Hy as [-> Hy]. unfold fadd, SFadd. simpl cond_Zopp.
    change (Z.pos (digits2_pos mx)) with (Zdigits2 (Z.pos mx)) in Hx.
    change (Z.pos (digits2_pos my)) with (Zdigits2 (Z.pos my)) in Hy.
    destruct (shl_align_spec mx ex (Z.min ex ey)) as [Hfx _].
    destruct (shl_align_spec my ey (Z.min ex ey)) as [Hfy _].
    set (ez := Z.min ex ey) in *.
    set (ax := fst (shl_align mx ex ez)) in *. set (ay := fst (shl_align my ey ez)) in *.
    change (Z.pos ax + Z.pos ay) with (Z.pos (ax + ay)). simpl binary_normalize.
    replace (Z.max Bx By + 2) with ((Z.max Bx By + 1) + 1) by lia.
    apply binary_round_small; try lia; try reflexivity.
    rewrite Pos2Z.inj_add, Hfx, Hfy.
    rewrite !Z.max_r by lia.
    pose proof (Zdigits2_shift_le (Z.pos mx) (ex - ez) (Bx - ex) ltac:(lia) ltac:(lia) ltac:(lia)) as Dx.
    pose proof (Zdigits2_shift_le (Z.pos my) (ey - ez) (By - ey) ltac:(lia) ltac:(lia) ltac:(lia)) as Dy.
    set (X := Z.pos mx * 2 ^ (ex - ez)) in *. set (Y := Z.pos my * 2 ^ (ey - ez)) in *.
    assert (HX : 0 < X) by (unfold X; pose proof (Z.pow_pos_nonneg 2 (ex - ez)); nia).
    assert (HY : 0 < Y) by (unfold Y; pose proof (Z.pow_pos_nonneg 2 (ey - ez)); nia).
    destruct (Zdigits2_bounds X HX) as [_ HXb]. destruct (Zdigits2_bounds Y HY) as [_ HYb].
    set (K := Z.max Bx By - ez).
    assert (Zdigits2 X ≤ K) by (unfold K; lia). assert (Zdigits2 Y ≤ K) by (unfold K; lia).
    pose proof (Zdigits2_nonneg X). pose proof (Zdigits2_nonneg Y).
    assert (2 ^ Zdigits2 X ≤ 2 ^ K) by (apply Z.pow_le_mono_r; lia).
    assert (2 ^ Zdigits2 Y ≤ 2 ^ K) by (apply Z.pow_le_mono_r; lia).
    assert (Zdigits2 (X + Y) ≤ K + 1).
    { apply Zdigits2_le; [lia|lia|]. rewrite Z.pow_add_r by lia. simpl (2 ^ 1). lia. }
    unfold K in *. lia.
Qed.

Lemma py_int_small B f : Small B f → ∃ z, py_int f = Ok z ∧ 0 ≤ z.
Proof.
  destruct f as [s| | |s m e]; simpl; try done.
  - intros _. exists 0. split; [reflexivity|lia].
  - intros [-> _]. eexists. split; [reflexivity|]. unfold cond_Zopp.
    destruct e.
    + apply Z.mul_nonneg_nonneg; [lia|apply Z.pow_nonneg; lia].
    + apply Z.mul_nonneg_nonneg; [lia|apply Z.pow_nonneg; lia].
    + apply Z.div_pos; [lia|]. apply Z.pow_pos_nonneg; lia.
Qed.

(** The integer part of a non-negative float below [2^B] is below [2^B]. *)
Lemma py_int_below B f : 0 ≤ B → Small B f → ∃ z, py_int f = Ok z ∧ 0 ≤ z < 2 ^ B.
Proof.
  intros HB. destruct f as [s| | |s m e]; simpl; try done.
  - intros _. exists 0. split; [reflexivity|]. split; [lia|apply Z.pow_pos_nonneg; lia].
  - intros [-> Hd]. change (Z.pos (digits2_pos m)) with (Zdigits2 (Z.pos m)) in Hd.
    destruct (Zdigits2_bounds (Z.pos m) ltac:(lia)) as [_ Hhi].
    pose proof (Zdigits2_nonneg (Z.pos m)) as Hd0.
    eexists. split; [reflexivity|]. unfold cond_Zopp.
    destruct e as [|p|p].
    + rewrite Z.pow_0_r, Z.mul_1_r. split; [lia|].
      assert (2 ^ Zdigits2 (Z.pos m) ≤ 2 ^ B) by (apply Z.pow_le_mono_r; lia). lia.
    + assert (P : 0 < 2 ^ Z.pos p) by (apply Z.pow_pos_nonneg; lia).
      split; [apply Z.mul_nonneg_nonneg; lia|].
      assert (Hp : 2 ^ Zdigits2 (Z.pos m) * 2 ^ Z.pos p ≤ 2 ^ B).
      { rewrite <- Z.pow_add_r by lia. apply Z.pow_le_mono_r; lia. }
      assert (Z.pos m * 2 ^ Z.pos p < 2 ^ Zdigits2 (Z.pos m) * 2 ^ Z.pos p)
        by (apply Z.mul_lt_mono_pos_r; lia).
      lia.
    + split; [apply Z.div_pos; [lia|apply Z.pow_pos_nonneg; lia]|].
      pose proof (div_pow2_lt (Z.pos m) (Zdigits2 (Z.pos m)) (Z.pos p)
                    ltac:(lia) Hd0 ltac:(lia) Hhi) as Hq.
      assert (2 ^ Z.max (Zdigits2 (Z.pos m) - Z.pos p) 0 ≤ 2 ^ B)
        by (apply Z.pow_le_mono_r; lia).
      lia.
Qed.

Lemma SFdiv_core_model m1 e1 m2 e2 :
  0 < m1 → 0 < m2 →
  let e' := Z.min (fexp prec emax (Zdigits2 m1 + e1 - (Zdigits2 m2 + e2))) (e1 - e2) in
  let a := m1 * 2 ^ (e1 - e2 - e') in
  SFdiv_core_binary prec emax m1 e1 m2 e2 = (a / m2, e', classify a m2).
Proof.
  intros H1 H2 e' a. unfold SFdiv_core_binary. fold e'.
  assert (Hs : 0 ≤ e1 - e2 - e') by (unfold e'; lia).
  assert (Ha : match e1 - e2 - e' with
               | Z.pos _ => Z.shiftl m1 (e1 - e2 - e')
               | 0 => m1
               | Z.neg _ => 0
               end = a).
  { unfold a. destruct (e1 - e2 - e') eqn:E; [lia| |lia].
    rewrite Z.shiftl_mul_pow2 by lia. reflexivity. }
  rewrite Ha. unfold classify. unfold Z.div, Z.modulo.
  pose proof (new_location_classify a m2 H2) as Hn. unfold classify, Z.modulo in Hn.
  destruct (Z.div_eucl a m2) as [q r]. rewrite Hn. reflexivity.
Qed.

Lemma quotient_model (i N : positive) :
  quotient (Z.pos i) (Z.pos N) =
  round_model false (Z.pos i * 2 ^ quot_scale (Z.pos i) (Z.pos N)) (Z.pos N)
    (- quot_scale (Z.pos i) (Z.pos N)).
Proof.
  unfold quotient, fdiv, of_mantissa, SFdiv.
  pose proof (SFdiv_core_model (Z.pos i) 0 (Z.pos N) 0 ltac:(lia) ltac:(lia)) as Hc.
  cbv zeta in Hc. rewrite Hc. simpl xorb.
  rewrite binary_round_aux_model; [|apply Z.mul_nonneg_nonneg; [lia|apply Z.pow_nonneg; lia]|lia].
  unfold quot_scale. rewrite !Z.add_0_r, Z.sub_0_r.
  replace (0 - Z.min (fexp prec emax (Zdigits2 (Z.pos i) - Zdigits2 (Z.pos N))) 0)
    with (- Z.min (fexp prec emax (Zdigits2 (Z.pos i) - Zdigits2 (Z.pos N))) 0) by lia.
  rewrite Z.opp_involutive. reflexivity.
Qed.

Lemma quotient_small (i N : positive) :
  (i ≤ N)%positive → Small 2 (quotient (Z.pos i) (Z.pos N)).
Proof.
  intros Hle. rewrite quotient_model.
  set (s := quot_scale (Z.pos i) (Z.pos N)).
  assert (Hs : 0 ≤ s) by (unfold s, quot_scale; lia).
  assert (Hp : 0 < 2 ^ s) by (apply Z.pow_pos_nonneg; lia).
  change 2 with (1 + 1) at 1.
  apply round_model_small; try lia; try reflexivity.
  - assert (Zdigits2 (Z.pos i * 2 ^ s / Z.pos N) ≤ s + 1); [|lia].
    apply Zdigits2_le; [apply Z.div_pos; [apply Z.mul_nonneg_nonneg|]; lia|lia|].
    apply Z.div_lt_upper_bound; [lia|]. rewrite Z.pow_add_r by lia. simpl (2 ^ 1).
    assert (Z.pos i ≤ Z.pos N) by lia. nia.
Qed.

Lemma ramp_small (i N : Z) :
  1 ≤ i ≤ N → ∃ x, ramp i N = Ok x ∧ Small 4 x.
Proof.
  intros Hi. unfold ramp, int_truediv.
  destruct (Z.eqb_spec N 0); [lia|].
  destruct i as [|i|i]; try lia. destruct N as [|N|N]; try lia.
  pose proof (quotient_small i N ltac:(lia)) as Hq.
  destruct (quotient (Z.pos i) (Z.pos N)) as [s| | |s m e] eqn:E; simpl in Hq; try done.
  - eexists. split; [reflexivity|]. subst. reflexivity.
  - eexists. split; [reflexivity|].
    change 4 with (2 + 1 + 1).
    apply fmul_small; [exact Hq| |lia].
    vm_compute. split; [reflexivity|]. discriminate.
Qed.


Lemma round_model_nonneg a b e :
  0 ≤ a → 0 < b → nonneg (round_model false a b e) = true.
Proof.
  intros Ha Hb. unfold round_model.
  set (n1 := shift_amount (a / b) e). set (m1 := rnd_Z a (b * 2 ^ n1)).
  set (n2 := shift_amount m1 (e + n1)).
  assert (Hn1 : 0 ≤ n1) by (unfold n1, shift_amount; lia).
  assert (Hn2 : 0 ≤ n2) by (unfold n2, shift_amount; lia).
  assert (Hb' : 0 < b * 2 ^ n1) by (pose proof (Z.pow_pos_nonneg 2 n1 ltac:(lia) Hn1); nia).
  assert (Hm1 : 0 ≤ m1).
  { pose proof (rnd_Z_bounds a _ Hb'). pose proof (Z.div_pos a _ Ha Hb'). unfold m1. lia. }
  pose proof (Z.div_pos m1 (2 ^ n2) Hm1 (Z.pow_pos_nonneg 2 n2 ltac:(lia) Hn2)).
  destruct (m1 / 2 ^ n2); try lia; [reflexivity|].
  destruct (_ <=? _); reflexivity.
Qed.

Lemma fmul_nonneg x y :
  nonneg x = true → nonneg y = true → is_finite (fmul x y) = true →
  nonneg (fmul x y) = true.
Proof.
  destruct x as [sx|sx| |sx mx ex], y as [sy|sy| |sy my ey]; simpl; try done.
  destruct sx, sy; simpl; try done. intros _ _ _.
  unfold fmul, SFmul. simpl xorb. rewrite binary_round_aux_exact by lia.
  apply round_model_nonneg; lia.
Qed.

Lemma py_int_floor f :
  is_finite f = true → nonneg f = true →
  ∃ k, py_int f = Ok k ∧ 0 ≤ k ∧ (inject_Z k <= SF2Q f)%Q.
Proof.
  destruct f as [s| | |s m e]; simpl; try done.
  - intros _ _. exists 0. repeat split; [lia|]. apply Qle_refl.
  - intros _ Hs. destruct s; [discriminate|]. simpl.
    eexists. split; [reflexivity|]. destruct e as [|p|p].
    + split; [lia|]. apply Qle_refl.
    + split; [|apply Qle_refl]. apply Z.mul_nonneg_nonneg; [lia|apply Z.pow_nonneg; lia].
    + split; [apply Z.div_pos; [lia|apply Z.pow_pos_nonneg; lia]|].
      unfold Qle. simpl Qnum. simpl Qden. rewrite Pos2Z.inj_pow, Z.mul_1_r.
      rewrite Z.mul_comm. apply Z.mul_div_le. apply Z.pow_pos_nonneg; lia.
Qed.


Lemma fexp_eq k : fexp prec emax k = Z.max (k - 53) (-1074).
Proof. reflexivity. Qed.

Lemma div_lt_inv a b K : 0 < b → a / b < K → a < K * b.
Proof.
  intros Hb Hlt. destruct (Z_lt_le_dec a (K * b)) as [|Hge]; [assumption|].
  exfalso. assert (K ≤ a / b) by (apply Z.div_le_lower_bound; lia). lia.
Qed.

Lemma div_ge_inv a b K : 0 < b → K ≤ a / b → K * b ≤ a.
Proof.
  intros Hb Hle. pose proof (Z.mul_div_le a b Hb).
  assert (b * K ≤ b * (a / b)) by (apply Z.mul_le_mono_nonneg_l; lia). lia.
Qed.

Lemma Zdigits2_pow2 k : 0 ≤ k → Zdigits2 (2 ^ k) = k + 1.
Proof.
  intros Hk. assert (H0 : 0 < 2 ^ k) by (apply Z.pow_pos_nonneg; lia).
  apply Z.le_antisymm.
  - apply Zdigits2_le; [lia|lia|]. apply Z.pow_lt_mono_r; lia.
  - pose proof (Zdigits2_gt (2 ^ k) k Hk ltac:(lia)). lia.
Qed.

Lemma round_model_at_scale a b e :
  0 ≤ a → 0 < b →
  let E := fexp prec emax (Zdigits2 (a / b) + e) in
  e ≤ E → E ≤ 0 →
  at_scale a (b * 2 ^ (- e)) (- E)
  ∧ has_value (round_model false a b e) (rnd_Z (a * 2 ^ (- E)) (b * 2 ^ (- e))) (- E).
Proof.
  intros Ha Hb E HeE HE0.
  set (D := Zdigits2 (a / b)) in *.
  assert (HE : E = Z.max (D + e - 53) (-1074)) by reflexivity.
  set (n1 := E - e).
  assert (Hn1 : 0 ≤ n1) by (unfold n1; lia).
  assert (Hsh : shift_amount (a / b) e = n1) by (unfold shift_amount; fold D; fold E; lia).
  assert (Hq : 0 ≤ a / b) by (apply Z.div_pos; lia).
  assert (HD : 0 ≤ D) by apply Zdigits2_nonneg.
  assert (Hp1 : 0 < 2 ^ n1) by (apply Z.pow_pos_nonneg; lia).
  assert (HpE : 0 < 2 ^ (- E)) by (apply Z.pow_pos_nonneg; lia).
  assert (Hpe : 2 ^ (- e) = 2 ^ n1 * 2 ^ (- E)).
  { rewrite <- Z.pow_add_r by lia. f_equal. unfold n1. lia. }
  assert (Hup : a < 2 ^ 53 * (b * 2 ^ n1)).
  { assert (a / b < 2 ^ (53 + n1)).
    { destruct (Z.eq_dec (a / b) 0) as [->|]; [apply Z.pow_pos_nonneg; lia|].
      destruct (Zdigits2_bounds (a / b) ltac:(lia)) as [_ Hhi]. fold D in Hhi.
      assert (2 ^ D ≤ 2 ^ (53 + n1)) by (apply Z.pow_le_mono_r; unfold n1; lia). lia. }
    apply div_lt_inv in H; [|lia]. rewrite Z.pow_add_r in H by lia. lia. }
  assert (Hlo : E = -1074 ∨ 2 ^ 52 * (b * 2 ^ n1) ≤ a).
  { destruct (Z.eq_dec E (-1074)) as [|Hne]; [left; assumption|right].
    assert (HDn : D = 53 + n1) by (unfold n1; lia).
    assert (a / b ≠ 0).
    { intros H0. unfold D in HDn. rewrite H0 in HDn. simpl in HDn. lia. }
    destruct (Zdigits2_bounds (a / b) ltac:(lia)) as [Hlow _]. fold D in Hlow.
    replace (D - 1) with (52 + n1) in Hlow by lia.
    apply div_ge_inv in Hlow; [|lia]. rewrite Z.pow_add_r in Hlow by lia. lia. }
  split.
  - unfold at_scale. split; [lia|]. rewrite Hpe. split.
    + assert (a * 2 ^ (- E) < 2 ^ 53 * (b * 2 ^ n1) * 2 ^ (- E)) by (apply Z.mul_lt_mono_pos_r; lia).
      lia.
    + destruct Hlo as [Hmin|Hlo]; [left; lia|right].
      assert (2 ^ 52 * (b * 2 ^ n1) * 2 ^ (- E) ≤ a * 2 ^ (- E)) by (apply Z.mul_le_mono_nonneg_r; lia).
      lia.
  - assert (Hr : rnd_Z (a * 2 ^ (- E)) (b * 2 ^ (- e)) = rnd_Z a (b * 2 ^ n1)).
    { rewrite Hpe. replace (b * (2 ^ n1 * 2 ^ (- E))) with (b * 2 ^ n1 * 2 ^ (- E)) by ring.
      apply rnd_Z_scale; lia. }
    rewrite Hr. unfold round_model. rewrite Hsh. fold n1.
    replace (e + n1) with E by (unfold n1; lia).
    set (m1 := rnd_Z a (b * 2 ^ n1)).
    assert (Hm1 : 0 ≤ m1 ≤ 2 ^ 53).
    { split.
      - pose proof (rnd_Z_bounds a (b * 2 ^ n1) ltac:(lia)).
        pose proof (Z.div_pos a (b * 2 ^ n1) Ha ltac:(lia)). unfold m1. lia.
      - apply rnd_Z_le_int; lia. }
    destruct (Z.eq_dec m1 (2 ^ 53)) as [Heq|Hne].
    + rewrite Heq. unfold shift_amount. rewrite Zdigits2_pow2 by lia.
      rewrite fexp_eq.
      replace (Z.max 0 (Z.max (53 + 1 + E - 53) (-1074) - E)) with 1 by lia.
      change (2 ^ 53 / 2 ^ 1) with (Z.pos 4503599627370496).
      cbv iota beta. destruct (Z.leb_spec (E + 1) (emax - prec)) as [_|Hbad];
        [|unfold emax, prec in Hbad; lia].
      simpl. split; [reflexivity|]. split; [lia|].
      replace (E + 1 + - E) with 1 by lia. reflexivity.
    + assert (Hsh2 : shift_amount m1 E = 0).
      { unfold shift_amount. rewrite fexp_eq.
        assert (Zdigits2 m1 ≤ 53) by (apply Zdigits2_le; lia). lia. }
      rewrite Hsh2, Z.pow_0_r, Z.div_1_r, Z.add_0_r.
      destruct m1 as [|p|p] eqn:Em; [simpl; done| |lia].
      destruct (Z.leb_spec E (emax - prec)) as [_|Hbad];
        [|unfold emax, prec in Hbad; lia].
      simpl. split; [reflexivity|]. split; [lia|].
      replace (E + - E) with 0 by lia. simpl. lia.
Qed.

Lemma rounded_mono a1 b1 t1 a2 b2 t2 :
  0 ≤ a1 → 0 < b1 → 0 ≤ a2 → 0 < b2 →
  at_scale a1 b1 t1 → at_scale a2 b2 t2 → a1 * b2 ≤ a2 * b1 →
  rnd_Z (a1 * 2 ^ t1) b1 * 2 ^ t2 ≤ rnd_Z (a2 * 2 ^ t2) b2 * 2 ^ t1.
Proof.
  intros Ha1 Hb1 Ha2 Hb2 (Ht1 & Hup1 & Hlo1) (Ht2 & Hup2 & Hlo2) Hle.
  assert (Hp1 : 0 < 2 ^ t1) by (apply Z.pow_pos_nonneg; lia).
  assert (Hp2 : 0 < 2 ^ t2) by (apply Z.pow_pos_nonneg; lia).
  assert (Hbb : 0 < b1 * b2) by nia.
  assert (Ht : t2 ≤ t1).
  { destruct (Z_le_gt_dec t2 t1) as [|Hgt]; [assumption|exfalso].
    destruct Hlo1 as [|Hlo1]; [lia|].
    assert (Hpow : 2 ^ t2 = 2 ^ t1 * 2 ^ (t2 - t1)).
    { rewrite <- Z.pow_add_r by lia. f_equal. lia. }
    assert (H2 : 2 ≤ 2 ^ (t2 - t1)).
    { change 2 with (2 ^ 1) at 1. apply Z.pow_le_mono_r; lia. }
    assert (X1 : 2 ^ 52 * b1 * b2 ≤ a1 * 2 ^ t1 * b2) by (apply Z.mul_le_mono_nonneg_r; lia).
    assert (X2 : a1 * b2 * 2 ^ t1 ≤ a2 * b1 * 2 ^ t1) by (apply Z.mul_le_mono_nonneg_r; lia).
    assert (X3 : a2 * 2 ^ t2 * b1 < 2 ^ 53 * b2 * b1) by (apply Z.mul_lt_mono_pos_r; lia).
    assert (X4 : 0 ≤ a2 * b1 * 2 ^ t1) by (apply Z.mul_nonneg_nonneg; [apply Z.mul_nonneg_nonneg|]; lia).
    assert (X5 : a2 * b1 * 2 ^ t1 * 2 ≤ a2 * b1 * 2 ^ t1 * 2 ^ (t2 - t1))
      by (apply Z.mul_le_mono_nonneg_l; lia).
    replace (a2 * 2 ^ t2 * b1) with (a2 * b1 * 2 ^ t1 * 2 ^ (t2 - t1)) in X3
      by (rewrite Hpow; ring).
    change (2 ^ 53) with (2 * 2 ^ 52) in X3. lia. }
  destruct (Z.eq_dec t1 t2) as [->|Hne].
  - apply Z.mul_le_mono_nonneg_r; [lia|]. apply rnd_Z_mono; [assumption..|].
    replace (a1 * 2 ^ t2 * b2) with (a1 * b2 * 2 ^ t2) by ring.
    replace (a2 * 2 ^ t2 * b1) with (a2 * b1 * 2 ^ t2) by ring.
    apply Z.mul_le_mono_nonneg_r; lia.
  - destruct Hlo2 as [|Hlo2]; [lia|].
    assert (R1 : rnd_Z (a1 * 2 ^ t1) b1 ≤ 2 ^ 53) by (apply rnd_Z_le_int; lia).
    assert (R2 : 2 ^ 52 ≤ rnd_Z (a2 * 2 ^ t2) b2) by (apply rnd_Z_ge_int; lia).
    assert (Hpow : 2 ^ t1 = 2 ^ t2 * 2 ^ (t1 - t2)).
    { rewrite <- Z.pow_add_r by lia. f_equal. lia. }
    assert (H2 : 2 ≤ 2 ^ (t1 - t2)).
    { change 2 with (2 ^ 1) at 1. apply Z.pow_le_mono_r; lia. }
    assert (Y1 : rnd_Z (a1 * 2 ^ t1) b1 * 2 ^ t2 ≤ 2 ^ 53 * 2 ^ t2)
      by (apply Z.mul_le_mono_nonneg_r; lia).
    assert (Y2 : 2 ^ 52 * 2 ^ t1 ≤ rnd_Z (a2 * 2 ^ t2) b2 * 2 ^ t1)
      by (apply Z.mul_le_mono_nonneg_r; lia).
    assert (Y3 : 2 ^ t2 * 2 ≤ 2 ^ t2 * 2 ^ (t1 - t2)) by (apply Z.mul_le_mono_nonneg_l; lia).
    set (r1 := rnd_Z (a1 * 2 ^ t1) b1) in *. set (r2 := rnd_Z (a2 * 2 ^ t2) b2) in *.
    rewrite Hpow in Y2 |- *. change (2 ^ 53) with (2 ^ 52 * 2) in Y1.
    set (P := 2 ^ t2) in *. set (P' := 2 ^ (t1 - t2)) in *.
    assert (2 ^ 52 * 2 * P ≤ 2 ^ 52 * (P * P')).
    { replace (2 ^ 52 * 2 * P) with (2 ^ 52 * (P * 2)) by ring.
      apply Z.mul_le_mono_nonneg_l; [lia|assumption]. }
    lia.
Qed.

Lemma SF2Q_scaled m e T :
  0 ≤ T → 0 ≤ e + T →
  (SF2Q (S754_finite false m e) == (Z.pos m * 2 ^ (e + T)) # Z.to_pos (2 ^ T))%Q.
Proof.
  intros HT HeT. assert (HP : 0 < 2 ^ T) by (apply Z.pow_pos_nonneg; lia).
  unfold SF2Q. destruct e as [|p|p]; unfold Qeq; simpl Qnum; simpl Qden;
    rewrite ?Z2Pos.id by lia.
  - rewrite Z.add_0_l. ring.
  - rewrite Z.pow_add_r by lia. ring.
  - rewrite !Pos2Z.inj_pow.
    assert (2 ^ T = 2 ^ (Z.neg p + T) * 2 ^ Z.pos p) as ->; [|ring].
    rewrite <- Z.pow_add_r by lia. f_equal. lia.
Qed.

Lemma has_value_SF2Q f r t :
  0 ≤ t → has_value f r t → (SF2Q f == r # Z.to_pos (2 ^ t))%Q.
Proof.
  intros Ht. destruct f as [s| | |s m e]; simpl has_value; try done.
  - intros [_ ->]. reflexivity.
  - intros (-> & He & ->). apply SF2Q_scaled; assumption.
Qed.

Lemma has_value_le f1 r1 t1 f2 r2 t2 :
  0 ≤ t1 → 0 ≤ t2 → has_value f1 r1 t1 → has_value f2 r2 t2 →
  r1 * 2 ^ t2 ≤ r2 * 2 ^ t1 → (SF2Q f1 <= SF2Q f2)%Q.
Proof.
  intros Ht1 Ht2 H1 H2 Hle.
  rewrite (has_value_SF2Q f1 r1 t1 Ht1 H1), (has_value_SF2Q f2 r2 t2 Ht2 H2).
  unfold Qle. simpl Qnum. simpl Qden.
  rewrite !Z2Pos.id by (apply Z.pow_pos_nonneg; lia). exact Hle.
Qed.

Lemma at_scale_cancel a b c t : 0 < c → at_scale (a * c) (b * c) t → at_scale a b t.
Proof.
  intros Hc (Ht & Hup & Hlo). split; [exact Ht|]. split.
  - apply (Z.mul_lt_mono_pos_r c); [exact Hc|]. lia.
  - destruct Hlo as [|Hlo]; [left; assumption|right].
    apply (Z.mul_le_mono_pos_r _ _ c); [exact Hc|]. lia.
Qed.

Lemma quotient_at_scale (i N : positive) :
  (i ≤ N)%positive →
  ∃ t, at_scale (Z.pos i) (Z.pos N) t
    ∧ has_value (quotient (Z.pos i) (Z.pos N)) (rnd_Z (Z.pos i * 2 ^ t) (Z.pos N)) t.
Proof.
  intros Hle. rewrite quotient_model.
  set (s := quot_scale (Z.pos i) (Z.pos N)).
  pose proof (Zdigits2_bounds (Z.pos i) ltac:(lia)) as [Hilo Hihi].
  pose proof (Zdigits2_bounds (Z.pos N) ltac:(lia)) as [HNlo HNhi].
  set (di := Zdigits2 (Z.pos i)) in *. set (dN := Zdigits2 (Z.pos N)) in *.
  assert (Hdi : 1 ≤ di) by (unfold di; simpl; lia).
  assert (HdN : 1 ≤ dN) by (unfold dN; simpl; lia).
  assert (Hd : di ≤ dN).
  { destruct (Z_le_gt_dec di dN); [assumption|exfalso].
    assert (2 ^ dN ≤ 2 ^ (di - 1)) by (apply Z.pow_le_mono_r; lia). lia. }
  assert (Hs : s = - Z.max (di - dN - 53) (-1074)).
  { unfold s, quot_scale. fold di dN. rewrite fexp_eq. lia. }
  assert (Hs0 : 0 ≤ s) by lia.
  assert (Hps : 0 < 2 ^ s) by (apply Z.pow_pos_nonneg; lia).
  set (q := Z.pos i * 2 ^ s / Z.pos N).
  assert (Hq0 : 0 ≤ q) by (apply Z.div_pos; [apply Z.mul_nonneg_nonneg|]; lia).
  assert (Hqhi : Zdigits2 q ≤ s + 1).
  { apply Zdigits2_le; [exact Hq0|lia|].
    apply Z.div_lt_upper_bound; [lia|]. rewrite Z.pow_add_r by lia. simpl (2 ^ 1).
    assert (Z.pos i * 2 ^ s ≤ Z.pos N * 2 ^ s) by (apply Z.mul_le_mono_nonneg_r; lia).
    lia. }
  assert (Hqlo : s = 1074 ∨ 53 ≤ Zdigits2 q).
  { destruct (Z.eq_dec s 1074) as [|Hne]; [left; assumption|right].
    assert (Hs' : s = 53 + dN - di) by lia.
    assert (2 ^ 52 ≤ q); [|pose proof (Zdigits2_gt q 52 ltac:(lia) H); lia].
    apply Z.div_le_lower_bound; [lia|].
    assert (X1 : 2 ^ (di - 1) * 2 ^ s ≤ Z.pos i * 2 ^ s) by (apply Z.mul_le_mono_nonneg_r; lia).
    rewrite <- Z.pow_add_r in X1 by lia.
    replace (di - 1 + s) with (dN + 52) in X1 by lia.
    rewrite Z.pow_add_r in X1 by lia.
    assert (X2 : Z.pos N * 2 ^ 52 ≤ 2 ^ dN * 2 ^ 52) by (apply Z.mul_le_mono_nonneg_r; lia).
    lia. }
  destruct (round_model_at_scale (Z.pos i * 2 ^ s) (Z.pos N) (- s)) as [Hsc Hval].
  - apply Z.mul_nonneg_nonneg; lia.
  - lia.
  - fold q. rewrite fexp_eq. pose proof (Zdigits2_nonneg q). lia.
  - fold q. rewrite fexp_eq. lia.
  - fold q in Hsc, Hval. rewrite Z.opp_involutive in Hsc, Hval.
    set (t := - fexp prec emax (Zdigits2 q + - s)) in *.
    exists t. split.
    + apply (at_scale_cancel _ _ (2 ^ s)); assumption.
    + replace (Z.pos i * 2 ^ s * 2 ^ t) with (Z.pos i * 2 ^ t * 2 ^ s) in Hval by ring.
      rewrite rnd_Z_scale in Hval by lia. exact Hval.
Qed.

Lemma has_value_nonneg f r t : has_value f r t → 0 ≤ r.
Proof.
  destruct f as [s| | |s m e]; simpl; try done.
  - intros [_ ->]. lia.
  - intros (_ & He & ->). apply Z.mul_nonneg_nonneg; [lia|apply Z.pow_nonneg; lia].
Qed.

Lemma at_scale_t a b t : at_scale a b t → 0 ≤ t.
Proof. intros (Ht & _). lia. Qed.

Lemma quotient_mono (i j N : positive) :
  (i ≤ j)%positive → (j ≤ N)%positive →
  (SF2Q (quotient (Z.pos i) (Z.pos N)) <= SF2Q (quotient (Z.pos j) (Z.pos N)))%Q.
Proof.
  intros Hij HjN.
  destruct (quotient_at_scale i N ltac:(lia)) as (t1 & Hs1 & Hv1).
  destruct (quotient_at_scale j N HjN) as (t2 & Hs2 & Hv2).
  apply (has_value_le _ _ t1 _ _ t2 (at_scale_t _ _ _ Hs1) (at_scale_t _ _ _ Hs2) Hv1 Hv2).
  apply rounded_mono; try assumption; try lia.
  apply Z.mul_le_mono_nonneg_r; lia.
Qed.

Lemma fmul_f1_5_at_scale m e :
  Zdigits2 (Z.pos m) + e ≤ 2 →
  ∃ t, at_scale (Z.pos m * 6755399441055744) (2 ^ (52 - e)) t
    ∧ has_value (fmul (S754_finite false m e) f1_5)
        (rnd_Z (Z.pos m * 6755399441055744 * 2 ^ t) (2 ^ (52 - e))) t.
Proof.
  intros Hsmall.
  change f1_5 with (S754_finite false 6755399441055744 (-52)).
  unfold fmul, SFmul. simpl xorb. rewrite binary_round_aux_exact by lia.
  rewrite Pos2Z.inj_mul.
  set (a := Z.pos m * 6755399441055744).
  pose proof (Zdigits2_bounds (Z.pos m) ltac:(lia)) as [Hlo Hhi].
  set (d := Zdigits2 (Z.pos m)) in *.
  assert (Hd : 1 ≤ d) by (unfold d; simpl; lia).
  assert (Ha : 0 < a) by (unfold a; lia).
  assert (Hda : d + 52 ≤ Zdigits2 a ≤ d + 53).
  { split.
    - assert (2 ^ (d + 51) ≤ a); [|pose proof (Zdigits2_gt a (d + 51) ltac:(lia) H); lia].
      replace (d + 51) with (d - 1 + 52) by lia. rewrite Z.pow_add_r by lia.
      unfold a. change (2 ^ 52) with 4503599627370496. nia.
    - apply Zdigits2_le; [lia|lia|]. rewrite Z.pow_add_r by lia.
      unfold a. change (2 ^ 53) with 9007199254740992. nia. }
  destruct (round_model_at_scale a 1 (e + -52)) as [Hsc Hval].
  - lia.
  - lia.
  - rewrite Z.div_1_r, fexp_eq. lia.
  - rewrite Z.div_1_r, fexp_eq. lia.
  - rewrite Z.div_1_r in Hsc, Hval.
    replace (- (e + -52)) with (52 - e) in Hsc, Hval by lia.
    rewrite Z.mul_1_l in Hsc, Hval.
    eexists. split; [exact Hsc|exact Hval].
Qed.

Lemma SF2Q_le_cross m1 e1 m2 e2 :
  e1 ≤ 52 → e2 ≤ 52 → e1 + e2 ≤ 52 →
  (SF2Q (S754_finite false m1 e1) <= SF2Q (S754_finite false m2 e2))%Q →
  Z.pos m1 * 2 ^ (52 - e2) ≤ Z.pos m2 * 2 ^ (52 - e1).
Proof.
  intros He1 He2 He Hle.
  rewrite (SF2Q_scaled m1 e1 (52 - e1 - e2) ltac:(lia) ltac:(lia)),
    (SF2Q_scaled m2 e2 (52 - e1 - e2) ltac:(lia) ltac:(lia)) in Hle.
  unfold Qle in Hle. simpl Qnum in Hle. simpl Qden in Hle.
  assert (HP : 0 < 2 ^ (52 - e1 - e2)) by (apply Z.pow_pos_nonneg; lia).
  rewrite Z2Pos.id in Hle by lia.
  replace (e1 + (52 - e1 - e2)) with (52 - e2) in Hle by lia.
  replace (e2 + (52 - e1 - e2)) with (52 - e1) in Hle by lia.
  apply (Z.mul_le_mono_pos_r _ _ (2 ^ (52 - e1 - e2))); assumption.
Qed.

Lemma SF2Q_finite_pos m e : (0 < SF2Q (S754_finite false m e))%Q.
Proof.
  unfold SF2Q. destruct e as [|p|p]; unfold Qlt; simpl; lia.
Qed.

Lemma fmul_f1_5_mono q1 q2 :
  Small 2 q1 → Small 2 q2 → (SF2Q q1 <= SF2Q q2)%Q →
  (SF2Q (fmul q1 f1_5) <= SF2Q (fmul q2 f1_5))%Q.
Proof.
  intros H1 H2 Hle.
  destruct q1 as [s1| | |s1 m1 e1]; simpl in H1; try contradiction.
  - subst s1. change (fmul (S754_zero false) f1_5) with (S754_zero false).
    destruct q2 as [s2| | |s2 m2 e2]; simpl in H2; try contradiction.
    + subst s2. apply Qle_refl.
    + destruct H2 as [-> H2].
      destruct (fmul_f1_5_at_scale m2 e2 H2) as (t & Hsc & Hval).
      rewrite (has_value_SF2Q _ _ t (at_scale_t _ _ _ Hsc) Hval).
      unfold Qle. simpl. rewrite Z.mul_1_r. exact (has_value_nonneg _ _ _ Hval).
  - destruct H1 as [-> H1].
    destruct q2 as [s2| | |s2 m2 e2]; simpl in H2; try contradiction.
    + exfalso. pose proof (SF2Q_finite_pos m1 e1) as Hpos.
      simpl SF2Q at 2 in Hle. apply (Qlt_not_le _ _ Hpos). exact Hle.
    + destruct H2 as [-> H2].
      destruct (fmul_f1_5_at_scale m1 e1 H1) as (t1 & Hsc1 & Hval1).
      destruct (fmul_f1_5_at_scale m2 e2 H2) as (t2 & Hsc2 & Hval2).
      apply (has_value_le _ _ t1 _ _ t2 (at_scale_t _ _ _ Hsc1) (at_scale_t _ _ _ Hsc2)
               Hval1 Hval2).
      assert (Hd1 : 1 ≤ Zdigits2 (Z.pos m1)) by (simpl; lia).
      assert (Hd2 : 1 ≤ Zdigits2 (Z.pos m2)) by (simpl; lia).
      assert (P1 : 0 < 2 ^ (52 - e1)) by (apply Z.pow_pos_nonneg; lia).
      assert (P2 : 0 < 2 ^ (52 - e2)) by (apply Z.pow_pos_nonneg; lia).
      apply rounded_mono; try assumption; try lia.
      pose proof (SF2Q_le_cross m1 e1 m2 e2 ltac:(lia) ltac:(lia) ltac:(lia) Hle) as Hc.
      replace (Z.pos m1 * 6755399441055744 * 2 ^ (52 - e2))
        with (Z.pos m1 * 2 ^ (52 - e2) * 6755399441055744) by ring.
      replace (Z.pos m2 * 6755399441055744 * 2 ^ (52 - e1))
        with (Z.pos m2 * 2 ^ (52 - e1) * 6755399441055744) by ring.
      apply Z.mul_le_mono_nonneg_r; lia.
Qed.

Lemma quotient_same (N : positive) : quotient (Z.pos N) (Z.pos N) = f1_0.
Proof.
  rewrite quotient_model.
  assert (Hs : quot_scale (Z.pos N) (Z.pos N) = 53).
  { unfold quot_scale. rewrite Z.sub_diag. reflexivity. }
  rewrite Hs. unfold round_model.
  assert (Hq : Z.pos N * 2 ^ 53 / Z.pos N = 2 ^ 53).
  { rewrite Z.mul_comm. apply Z.div_mul. lia. }
  rewrite Hq.
  change (shift_amount (2 ^ 53) (- (53))) with 1.
  assert (Hr : rnd_Z (Z.pos N * 2 ^ 53) (Z.pos N * 2 ^ 1) = 2 ^ 52).
  { replace (Z.pos N * 2 ^ 53) with (2 ^ 52 * (Z.pos N * 2 ^ 1))
      by (change (2 ^ 53) with (2 ^ 52 * 2 ^ 1); ring).
    apply rnd_Z_exact. lia. }
  rewrite Hr. reflexivity.
Qed.

Lemma Zdigits2_shift m d : 0 < m → 0 ≤ d → Zdigits2 (m * 2 ^ d) = Zdigits2 m + d.
Proof.
  intros Hm Hd. destruct (Zdigits2_bounds m Hm) as [Hlo Hhi].
  assert (Hp : 0 < 2 ^ d) by (apply Z.pow_pos_nonneg; lia).
  assert (H1 : 1 ≤ Zdigits2 m) by (destruct m; simpl; lia).
  apply Z.le_antisymm.
  - apply Zdigits2_shift_le; lia.
  - assert (2 ^ (Zdigits2 m - 1 + d) ≤ m * 2 ^ d).
    { rewrite Z.pow_add_r by lia. apply Z.mul_le_mono_nonneg_r; lia. }
    pose proof (Zdigits2_gt (m * 2 ^ d) (Zdigits2 m - 1 + d) ltac:(lia) H). lia.
Qed.

Lemma round_model_exact s m u e :
  0 < m → 0 ≤ u → shift_amount (m * 2 ^ u) e ≤ u →
  let n1 := shift_amount (m * 2 ^ u) e in
  round_model s (m * 2 ^ u) 1 e
  = if e + n1 <=? emax - prec then S754_finite s (Z.to_pos (m * 2 ^ (u - n1))) (e + n1)
    else S754_infinity s.
Proof.
  intros Hm Hu Hn n1. unfold round_model. rewrite Z.div_1_r. fold n1.
  assert (Hn1 : 0 ≤ n1) by (unfold n1, shift_amount; lia).
  assert (Hp : 0 < 2 ^ n1) by (apply Z.pow_pos_nonneg; lia).
  assert (Hp' : 0 < 2 ^ (u - n1)) by (apply Z.pow_pos_nonneg; lia).
  assert (Hr : rnd_Z (m * 2 ^ u) (1 * 2 ^ n1) = m * 2 ^ (u - n1)).
  { rewrite Z.mul_1_l. replace (m * 2 ^ u) with (m * 2 ^ (u - n1) * 2 ^ n1).
    - apply rnd_Z_exact. exact Hp.
    - rewrite <- Z.mul_assoc, <- Z.pow_add_r by lia. do 2 f_equal. lia. }
  rewrite Hr.
  assert (Hsh : shift_amount (m * 2 ^ (u - n1)) (e + n1) = 0).
  { unfold shift_amount. rewrite Zdigits2_shift by lia.
    replace (Zdigits2 m + (u - n1) + (e + n1)) with (Zdigits2 (m * 2 ^ u) + e)
      by (rewrite Zdigits2_shift by lia; lia).
    unfold n1, shift_amount. lia. }
  rewrite Hsh, Z.pow_0_r, Z.div_1_r, Z.add_0_r.
  assert (Hpos : 0 < m * 2 ^ (u - n1)) by (apply Z.mul_pos_pos; lia).
  destruct (m * 2 ^ (u - n1)) as [|p|p] eqn:E; try lia. reflexivity.
Qed.

(** Multiplying a valid float by 1 or by 2 only moves its exponent. *)
Lemma fmul_pow2_valid m e j :
  0 ≤ j ≤ 1 → fexp prec emax (Zdigits2 (Z.pos m) + e) = e →
  ∃ v, 0 ≤ v ≤ j
    ∧ fmul (S754_finite false m e) (S754_finite false 4503599627370496 (j - 52))
      = if e + j - v <=? emax - prec
        then S754_finite false (Z.to_pos (Z.pos m * 2 ^ v)) (e + j - v)
        else S754_infinity false.
Proof.
  intros Hj Hcan. unfold fmul, SFmul. simpl xorb.
  rewrite binary_round_aux_exact by lia. rewrite Pos2Z.inj_mul.
  change (Z.pos 4503599627370496) with (2 ^ 52).
  set (n1 := shift_amount (Z.pos m * 2 ^ 52) (e + (j - 52))).
  assert (Hn : 52 - j ≤ n1 ≤ 52).
  { unfold n1, shift_amount. rewrite Zdigits2_shift by lia.
    rewrite fexp_eq in *. lia. }
  pose proof (round_model_exact false (Z.pos m) 52 (e + (j - 52)) ltac:(lia) ltac:(lia)
                ltac:(fold n1; lia)) as Hmod.
  cbv zeta in Hmod. fold n1 in Hmod. rewrite Hmod.
  exists (52 - n1). split; [lia|].
  replace (e + (j - 52) + n1) with (e + j - (52 - n1)) by lia. reflexivity.
Qed.

Lemma py_int_shift m v e :
  0 ≤ v →
  py_int (S754_finite false (Z.to_pos (Z.pos m * 2 ^ v)) (e - v))
  = py_int (S754_finite false m e).
Proof.
  intros Hv. assert (Hp : 0 < 2 ^ v) by (apply Z.pow_pos_nonneg; lia).
  unfold py_int. f_equal. simpl cond_Zopp.
  assert (Hid : Z.pos (Z.to_pos (Z.pos m * 2 ^ v)) = Z.pos m * 2 ^ v)
    by (apply Z2Pos.id; lia).
  rewrite Hid.
  destruct e as [|p|p].
  - destruct (0 - v) as [|q|q] eqn:E; try lia.
    + assert (v = 0) as -> by lia. simpl. lia.
    + replace (Z.pos m * 2 ^ 0) with (Z.pos m) by lia.
      assert (v = Z.pos q) as -> by lia. apply Z.div_mul. lia.
  - destruct (Z.pos p - v) as [|q|q] eqn:E.
    + assert (v = Z.pos p) as -> by lia. rewrite Z.pow_0_r. lia.
    + rewrite <- E. rewrite <- Z.mul_assoc, <- Z.pow_add_r by lia. do 2 f_equal. lia.
    + assert (Hv' : v = Z.pos p + Z.pos q) by lia. rewrite Hv'.
      rewrite Z.pow_add_r by lia. rewrite Z.mul_assoc. apply Z.div_mul.
      pose proof (Z.pow_pos_nonneg 2 (Z.pos q)). lia.
  - destruct (Z.neg p - v) as [|q|q] eqn:E; try lia.
    assert (Hq : Z.pos q = Z.pos p + v) by lia. rewrite Hq.
    rewrite Z.pow_add_r by lia.
    apply Z.div_mul_cancel_r; [|lia]. pose proof (Z.pow_pos_nonneg 2 (Z.pos p)). lia.
Qed.

Lemma fmul_pow2_small_int x j :
  0 ≤ j ≤ 1 → is_finite x = true → valid_binary prec emax x = true →
  (0 <= SF2Q x)%Q → (SF2Q x < 1 # 2)%Q →
  py_int (fmul x (S754_finite false 4503599627370496 (j - 52))) = Ok 0.
Proof.
  intros Hj Hfin Hval H0 Hhalf.
  destruct x as [s| | |s m e]; try discriminate.
  - reflexivity.
  - destruct s.
    { exfalso. pose proof (SF2Q_finite_pos m e) as Hpos.
      unfold SF2Q in H0, Hpos. cbv zeta in *.
      apply (Qlt_not_le _ _ Hpos). apply Qopp_le_compat in H0.
      rewrite Qopp_involutive in H0. exact H0. }
    simpl in Hval. unfold bounded, canonical_mantissa in Hval.
    apply andb_prop in Hval as [Hcan _]. apply Z.eqb_eq in Hcan.
    assert (Hlt : e < 0 ∧ 2 * Z.pos m < 2 ^ (- e)).
    { unfold SF2Q in Hhalf. destruct e as [|p|p]; unfold Qlt in Hhalf; simpl in Hhalf.
      - lia.
      - pose proof (Z.pow_pos_nonneg 2 (Z.pos p) ltac:(lia) ltac:(lia)).
        change (Z.pow_pos 2 p) with (2 ^ Z.pos p) in Hhalf. nia.
      - split; [lia|]. rewrite Pos2Z.inj_pow in Hhalf.
        change (- Z.neg p) with (Z.pos p). lia. }
    destruct Hlt as [He Hm].
    destruct (fmul_pow2_valid m e j Hj Hcan) as (v & Hv & Heq).
    rewrite Heq.
    destruct (Z.leb_spec (e + j - v) (emax - prec)) as [_|Hbad];
      [|unfold emax, prec in Hbad; lia].
    rewrite py_int_shift by lia.
    unfold py_int. f_equal. simpl cond_Zopp.
    destruct (e + j) as [|p|p] eqn:E; try lia.
    + exfalso. assert (e = -1) by lia. subst e. simpl in Hm. lia.
    + apply Z.div_small. split; [lia|].
      assert (2 ^ (- e) = 2 * 2 ^ (- e - 1)).
      { rewrite <- Z.pow_succ_r by lia. f_equal. lia. }
      assert (2 ^ (- e - 1) ≤ 2 ^ Z.pos p) by (apply Z.pow_le_mono_r; lia).
      lia.
Qed.


Lemma py_int_Qfloor f :
  is_finite f = true → nonneg f = true → py_int f = Ok (Qfloor (SF2Q f)).
Proof.
  destruct f as [s| | |s m e]; simpl; try done.
  intros _ Hs. destruct s; [discriminate|]. simpl. f_equal.
  destruct e as [|p|p].
  - rewrite Qfloor_Z. reflexivity.
  - rewrite Qfloor_Z. reflexivity.
  - unfold Qfloor. rewrite Pos2Z.inj_pow. reflexivity.
Qed.

Lemma SF2Q_double m e v :
  0 ≤ v ≤ 1 →
  (SF2Q (S754_finite false (Z.to_pos (Z.pos m * 2 ^ v)) (e + 1 - v))
   == 2 * SF2Q (S754_finite false m e))%Q.
Proof.
  intros Hv. set (T := Z.max 0 (- e) + 1).
  assert (HT : 0 ≤ T) by (unfold T; lia).
  assert (Hp : 0 < 2 ^ v) by (apply Z.pow_pos_nonneg; lia).
  assert (HP : 0 < 2 ^ T) by (apply Z.pow_pos_nonneg; lia).
  rewrite (SF2Q_scaled _ (e + 1 - v) T HT ltac:(unfold T; lia)).
  rewrite (SF2Q_scaled m e T HT ltac:(unfold T; lia)).
  unfold Qeq, Qmult. simpl Qnum. simpl Qden.
  rewrite Z2Pos.id by lia. rewrite Pos.mul_1_l.
  replace (2 ^ (e + 1 - v + T)) with (2 ^ (e + T) * 2 ^ (1 - v)).
  - assert (2 ^ v * 2 ^ (1 - v) = 2) as Hvv.
    { rewrite <- Z.pow_add_r by lia. replace (v + (1 - v)) with 1 by lia. reflexivity. }
    replace (Z.pos m * 2 ^ v * (2 ^ (e + T) * 2 ^ (1 - v)))
      with (Z.pos m * 2 ^ (e + T) * (2 ^ v * 2 ^ (1 - v))) by ring.
    rewrite Hvv. ring.
  - rewrite <- Z.pow_add_r by (unfold T; lia). f_equal. lia.
Qed.

(** Doubling a valid non-negative float is exact when it does not overflow. *)
Lemma fmul_f2_exact x :
  valid_binary prec emax x = true → nonneg x = true →
  is_finite (fmul x f2) = true →
  (SF2Q (fmul x f2) == 2 * SF2Q x)%Q.
Proof.
  intros Hval Hx Hfin. destruct x as [s|s| |s m e]; try discriminate.
  - destruct s; reflexivity.
  - destruct s; [discriminate|].
    simpl in Hval. unfold bounded, canonical_mantissa in Hval.
    apply andb_prop in Hval as [Hcan _]. apply Z.eqb_eq in Hcan.
    change f2 with (S754_finite false 4503599627370496 (1 - 52)) in *.
    destruct (fmul_pow2_valid m e 1 ltac:(lia) Hcan) as (v & Hv & Heq).
    rewrite Heq in *. destruct (e + 1 - v <=? emax - prec); [|discriminate].
    apply SF2Q_double. exact Hv.
Qed.

(** *** Products by a constant and sums between bounds *)

Lemma SF2Q_le_cross_at K m1 e1 m2 e2 :
  e1 ≤ K → e2 ≤ K → e1 + e2 ≤ K →
  (SF2Q (S754_finite false m1 e1) <= SF2Q (S754_finite false m2 e2))%Q →
  Z.pos m1 * 2 ^ (K - e2) ≤ Z.pos m2 * 2 ^ (K - e1).
Proof.
  intros He1 He2 He Hle.
  rewrite (SF2Q_scaled m1 e1 (K - e1 - e2) ltac:(lia) ltac:(lia)),
    (SF2Q_scaled m2 e2 (K - e1 - e2) ltac:(lia) ltac:(lia)) in Hle.
  unfold Qle in Hle. simpl Qnum in Hle. simpl Qden in Hle.
  assert (HP : 0 < 2 ^ (K - e1 - e2)) by (apply Z.pow_pos_nonneg; lia).
  rewrite Z2Pos.id in Hle by lia.
  replace (e1 + (K - e1 - e2)) with (K - e2) in Hle by lia.
  replace (e2 + (K - e1 - e2)) with (K - e1) in Hle by lia.
  apply (Z.mul_le_mono_pos_r _ _ (2 ^ (K - e1 - e2))); assumption.
Qed.

Lemma fmul_const_at_scale m e C ec :
  full_constant C → Zdigits2 (Z.pos m) + e + ec ≤ 0 →
  ∃ t, at_scale (Z.pos m * Z.pos C) (2 ^ (- ec - e)) t
    ∧ has_value (fmul (S754_finite false m e) (S754_finite false C ec))
        (rnd_Z (Z.pos m * Z.pos C * 2 ^ t) (2 ^ (- ec - e))) t.
Proof.
  intros [HC1 HC2] Hsmall.
  unfold fmul, SFmul. simpl xorb. rewrite binary_round_aux_exact by lia.
  rewrite Pos2Z.inj_mul.
  set (a := Z.pos m * Z.pos C).
  pose proof (Zdigits2_bounds (Z.pos m) ltac:(lia)) as [Hlo Hhi].
  set (d := Zdigits2 (Z.pos m)) in *.
  assert (Hd : 1 ≤ d) by (unfold d; simpl; lia).
  assert (Ha : 0 < a) by (unfold a; lia).
  assert (Hda : d + 52 ≤ Zdigits2 a ≤ d + 53).
  { split.
    - assert (Hp : 2 ^ (d + 51) ≤ a);
        [|pose proof (Zdigits2_gt a (d + 51) ltac:(lia) Hp); lia].
      replace (d + 51) with (d - 1 + 52) by lia. rewrite Z.pow_add_r by lia.
      unfold a.
      assert (0 < 2 ^ (d - 1)) by (apply Z.pow_pos_nonneg; lia).
      transitivity (Z.pos m * 2 ^ 52).
      + apply Z.mul_le_mono_nonneg_r; lia.
      + apply Z.mul_le_mono_nonneg_l; lia.
    - apply Zdigits2_le; [lia|lia|]. rewrite Z.pow_add_r by lia.
      unfold a.
      assert (0 < 2 ^ d) by (apply Z.pow_pos_nonneg; lia).
      apply Z.mul_lt_mono_nonneg; lia. }
  destruct (round_model_at_scale a 1 (e + ec)) as [Hsc Hval].
  - lia.
  - lia.
  - rewrite Z.div_1_r, fexp_eq. lia.
  - rewrite Z.div_1_r, fexp_eq. lia.
  - rewrite Z.div_1_r in Hsc, Hval.
    replace (- (e + ec)) with (- ec - e) in Hsc, Hval by lia.
    rewrite Z.mul_1_l in Hsc, Hval.
    eexists. split; [exact Hsc|exact Hval].
Qed.

(** Multiplying by a positive constant of full precision is monotone on the
    non-negative floats below [2^B], roundings included. *)
Lemma fmul_const_mono C ec B q1 q2 :
  full_constant C → 0 ≤ B → 2 * B ≤ - ec →
  Small B q1 → Small B q2 → (SF2Q q1 <= SF2Q q2)%Q →
  (SF2Q (fmul q1 (S754_finite false C ec)) <= SF2Q (fmul q2 (S754_finite false C ec)))%Q.
Proof.
  intros HC HB Hec H1 H2 Hle.
  destruct q1 as [s1| | |s1 m1 e1]; simpl in H1; try contradiction.
  - subst s1.
    change (fmul (S754_zero false) (S754_finite false C ec)) with (S754_zero false).
    destruct q2 as [s2| | |s2 m2 e2]; simpl in H2; try contradiction.
    + subst s2. apply Qle_refl.
    + destruct H2 as [-> H2].
      destruct (fmul_const_at_scale m2 e2 C ec HC ltac:(simpl Zdigits2; lia)) as (t & Hsc & Hval).
      rewrite (has_value_SF2Q _ _ t (at_scale_t _ _ _ Hsc) Hval).
      unfold Qle. simpl. rewrite Z.mul_1_r. exact (has_value_nonneg _ _ _ Hval).
  - destruct H1 as [-> H1].
    destruct q2 as [s2| | |s2 m2 e2]; simpl in H2; try contradiction.
    + exfalso. pose proof (SF2Q_finite_pos m1 e1) as Hpos.
      simpl SF2Q at 2 in Hle. apply (Qlt_not_le _ _ Hpos). exact Hle.
    + destruct H2 as [-> H2].
      destruct (fmul_const_at_scale m1 e1 C ec HC ltac:(simpl Zdigits2; lia)) as (t1 & Hsc1 & Hval1).
      destruct (fmul_const_at_scale m2 e2 C ec HC ltac:(simpl Zdigits2; lia)) as (t2 & Hsc2 & Hval2).
      apply (has_value_le _ _ t1 _ _ t2 (at_scale_t _ _ _ Hsc1) (at_scale_t _ _ _ Hsc2)
               Hval1 Hval2).
      assert (Hd1 : 1 ≤ Zdigits2 (Z.pos m1)) by (simpl; lia).
      assert (Hd2 : 1 ≤ Zdigits2 (Z.pos m2)) by (simpl; lia).
      assert (P1 : 0 < 2 ^ (- ec - e1)) by (apply Z.pow_pos_nonneg; lia).
      assert (P2 : 0 < 2 ^ (- ec - e2)) by (apply Z.pow_pos_nonneg; lia).
      apply rounded_mono; try assumption; try lia.
      pose proof (SF2Q_le_cross_at (- ec) m1 e1 m2 e2 ltac:(lia) ltac:(lia) ltac:(lia) Hle)
        as Hc.
      replace (Z.pos m1 * Z.pos C * 2 ^ (- ec - e2))
        with (Z.pos m1 * 2 ^ (- ec - e2) * Z.pos C) by ring.
      replace (Z.pos m2 * Z.pos C * 2 ^ (- ec - e1))
        with (Z.pos m2 * 2 ^ (- ec - e1) * Z.pos C) by ring.
      apply Z.mul_le_mono_nonneg_r; lia.
Qed.

(** Rounding an integer significand keeps the result between two integer
    bounds of the value. *)
Lemma binary_round_between m e lo hi :
  e ≤ 0 → Zdigits2 (Z.pos m) + e ≤ 53 →
  lo * 2 ^ (- e) ≤ Z.pos m → Z.pos m ≤ hi * 2 ^ (- e) →
  ∃ r t, has_value (binary_round prec emax false m e) r t
    ∧ 0 ≤ t ∧ lo * 2 ^ t ≤ r ∧ r ≤ hi * 2 ^ t.
Proof.
  intros He Hd Hlo Hhi. unfold binary_round.
  destruct (shl_align_spec m e (fexp prec emax (Z.pos (digits2_pos m) + e))) as [Hf Hs].
  change (Z.pos (digits2_pos m)) with (Zdigits2 (Z.pos m)) in *.
  set (F := fexp prec emax (Zdigits2 (Z.pos m) + e)) in *.
  destruct (shl_align m e F) as [mz ez]. simpl in Hf, Hs.
  set (u := Z.max 0 (e - F)) in *.
  assert (Hu : 0 ≤ u) by (unfold u; lia).
  assert (HF : F = Z.max (Zdigits2 (Z.pos m) + e - 53) (-1074)) by apply fexp_eq.
  rewrite binary_round_aux_exact by lia.
  assert (Hdz : Zdigits2 (Z.pos mz) + ez = Zdigits2 (Z.pos m) + e).
  { rewrite Hf, Hs, Zdigits2_shift by lia. lia. }
  destruct (round_model_at_scale (Z.pos mz) 1 ez) as [_ Hval].
  - lia.
  - lia.
  - rewrite Z.div_1_r, Hdz. fold F. unfold u in Hs. lia.
  - rewrite Z.div_1_r, Hdz. fold F. lia.
  - rewrite Z.div_1_r, Hdz in Hval. fold F in Hval. rewrite Z.mul_1_l in Hval.
    assert (Pu : 0 < 2 ^ u) by (apply Z.pow_pos_nonneg; lia).
    assert (Pt : 0 < 2 ^ (- F)) by (apply Z.pow_pos_nonneg; lia).
    assert (Pz : 0 < 2 ^ (- ez)) by (apply Z.pow_pos_nonneg; lia).
    assert (Hz : 2 ^ (- ez) = 2 ^ (- e) * 2 ^ u).
    { rewrite <- Z.pow_add_r by lia. f_equal. lia. }
    eexists _, (- F). split; [exact Hval|]. split; [lia|]. split.
    + apply rnd_Z_ge_int; [lia|]. rewrite Hf, Hz.
      replace (lo * 2 ^ (- F) * (2 ^ (- e) * 2 ^ u))
        with (lo * 2 ^ (- e) * (2 ^ u * 2 ^ (- F))) by ring.
      replace (Z.pos m * 2 ^ u * 2 ^ (- F)) with (Z.pos m * (2 ^ u * 2 ^ (- F))) by ring.
      apply Z.mul_le_mono_nonneg_r; lia.
    + apply rnd_Z_le_int; [lia|]. rewrite Hf, Hz.
      replace (hi * 2 ^ (- F) * (2 ^ (- e) * 2 ^ u))
        with (hi * 2 ^ (- e) * (2 ^ u * 2 ^ (- F))) by ring.
      replace (Z.pos m * 2 ^ u * 2 ^ (- F)) with (Z.pos m * (2 ^ u * 2 ^ (- F))) by ring.
      apply Z.mul_le_mono_nonneg_r; lia.
Qed.

(** The integer part of a float that lies between two integers. *)
Lemma py_int_between f r t lo hi :
  has_value f r t → 0 ≤ t → lo * 2 ^ t ≤ r → r ≤ hi * 2 ^ t →
  ∃ z, py_int f = Ok z ∧ lo ≤ z ∧ z ≤ hi.
Proof.
  intros Hval Ht Hlo Hhi.
  assert (Pt : 0 < 2 ^ t) by (apply Z.pow_pos_nonneg; lia).
  assert (Hfin : is_finite f = true ∧ nonneg f = true).
  { destruct f as [s|s| |s m e]; simpl in Hval; try contradiction.
    - destruct Hval as [-> _]. split; reflexivity.
    - destruct Hval as [-> _]. split; reflexivity. }
  destruct Hfin as [Hfin Hnn].
  exists (Qfloor (SF2Q f)). split; [apply py_int_Qfloor; assumption|].
  rewrite (Qfloor_comp _ _ (has_value_SF2Q f r t Ht Hval)).
  unfold Qfloor. rewrite Z2Pos.id by lia. split.
  - apply Z.div_le_lower_bound; lia.
  - apply Z.div_le_upper_bound; [lia|]. lia.
Qed.

Lemma full_f2 : full_constant 4503599627370496.
Proof. unfold full_constant. lia. Qed.

Lemma full_f30 : full_constant 8444249301319680.
Proof. unfold full_constant. lia. Qed.

(** Twice a non-negative float below 16 is at most 32. *)
Lemma double_at_most_32 x : Small 4 x → (SF2Q (fmul x f2) <= inject_Z 32)%Q.
Proof.
  intros Hx. destruct x as [s| | |s m e]; simpl in Hx; try contradiction.
  - subst s. vm_compute. discriminate.
  - destruct Hx as [-> Hx].
    change (Z.pos (digits2_pos m)) with (Zdigits2 (Z.pos m)) in Hx.
    change f2 with (S754_finite false 4503599627370496 (-51)).
    destruct (fmul_const_at_scale m e 4503599627370496 (-51) full_f2 ltac:(lia))
      as (t & Hsc & Hval).
    pose proof (at_scale_t _ _ _ Hsc) as Ht.
    rewrite (has_value_SF2Q _ _ t Ht Hval).
    assert (Pt : 0 < 2 ^ t) by (apply Z.pow_pos_nonneg; lia).
    unfold Qle. simpl Qnum. simpl Qden. rewrite Z2Pos.id by lia. rewrite Z.mul_1_r.
    assert (Hd : 1 ≤ Zdigits2 (Z.pos m)) by (simpl; lia).
    destruct (Zdigits2_bounds (Z.pos m) ltac:(lia)) as [_ Hhi].
    assert (Pe : 0 < 2 ^ (- -51 - e)) by (apply Z.pow_pos_nonneg; lia).
    apply rnd_Z_le_int; [exact Pe|].
    replace (- -51 - e) with (47 + (4 - e)) by lia. rewrite Z.pow_add_r by lia.
    assert (Hm : Z.pos m ≤ 2 ^ (4 - e)).
    { assert (2 ^ Zdigits2 (Z.pos m) ≤ 2 ^ (4 - e)) by (apply Z.pow_le_mono_r; lia). lia. }
    change (2 ^ 47) with 140737488355328.
    assert (Z.pos m * 4503599627370496 * 2 ^ t ≤ 2 ^ (4 - e) * 4503599627370496 * 2 ^ t).
    { apply Z.mul_le_mono_nonneg_r; [lia|]. apply Z.mul_le_mono_nonneg_r; lia. }
    lia.
Qed.

(** [3 + y] for a float [0 <= y <= hi]: its integer part lies in 3..3+hi. *)
Lemma fadd_f3_between y hi :
  Small 7 y → 0 ≤ hi → 3 + hi < 64 → (SF2Q y <= inject_Z hi)%Q →
  ∃ raw, py_int (fadd f3 y) = Ok raw ∧ 3 ≤ raw ∧ raw ≤ 3 + hi.
Proof.
  intros Hy Hhi0 Hhi Hle. destruct y as [s| | |s my ey]; simpl in Hy; try contradiction.
  - exists 3. split; [reflexivity|lia].
  - destruct Hy as [-> Hy].
    change (Z.pos (digits2_pos my)) with (Zdigits2 (Z.pos my)) in Hy.
    assert (Hd : 1 ≤ Zdigits2 (Z.pos my)) by (simpl; lia).
    set (T := Z.max 0 (- ey)).
    rewrite (SF2Q_scaled my ey T ltac:(lia) ltac:(lia)) in Hle.
    assert (PT : 0 < 2 ^ T) by (apply Z.pow_pos_nonneg; lia).
    unfold Qle in Hle. simpl Qnum in Hle. simpl Qden in Hle.
    rewrite Z2Pos.id, Z.mul_1_r in Hle by lia.
    change f3 with (S754_finite false 6755399441055744 (-51)).
    unfold fadd, SFadd. simpl cond_Zopp.
    destruct (shl_align_spec 6755399441055744 (-51) (Z.min (-51) ey)) as [Hfx _].
    destruct (shl_align_spec my ey (Z.min (-51) ey)) as [Hfy _].
    set (ez := Z.min (-51) ey) in *.
    set (ax := fst (shl_align 6755399441055744 (-51) ez)) in *.
    set (ay := fst (shl_align my ey ez)) in *.
    change (Z.pos ax + Z.pos ay) with (Z.pos (ax + ay)). simpl binary_normalize.
    rewrite !Z.max_r in Hfx, Hfy by lia.
    assert (P1 : 0 < 2 ^ (-51 - ez)) by (apply Z.pow_pos_nonneg; lia).
    assert (P2 : 0 < 2 ^ (- ez - T)) by (apply Z.pow_pos_nonneg; lia).
    assert (P3 : 0 < 2 ^ (- ez)) by (apply Z.pow_pos_nonneg; lia).
    assert (Hz : 2 ^ (- ez) = 2 ^ 51 * 2 ^ (-51 - ez)).
    { rewrite <- Z.pow_add_r by lia. f_equal. lia. }
    assert (Hx3 : Z.pos ax = 3 * 2 ^ (- ez)).
    { rewrite Hfx, Hz. change (2 ^ 51) with 2251799813685248. lia. }
    assert (Hy3 : Z.pos ay ≤ hi * 2 ^ (- ez)).
    { rewrite Hfy.
      assert (E1 : 2 ^ (ey - ez) = 2 ^ (ey + T) * 2 ^ (- ez - T)).
      { rewrite <- Z.pow_add_r by lia. f_equal. lia. }
      assert (E2 : 2 ^ (- ez) = 2 ^ T * 2 ^ (- ez - T)).
      { rewrite <- Z.pow_add_r by lia. f_equal. lia. }
      rewrite E1, E2, !Z.mul_assoc.
      apply Z.mul_le_mono_nonneg_r; lia. }
    destruct (binary_round_between (ax + ay) ez 3 (3 + hi))
      as (r & t & Hval & Ht & Hlo & Hup).
    + lia.
    + rewrite Pos2Z.inj_add.
      assert (Hlt : Z.pos ax + Z.pos ay < 2 ^ (6 - ez)).
      { replace (6 - ez) with (6 + - ez) by lia. rewrite Z.pow_add_r by lia.
        change (2 ^ 6) with 64.
        assert ((3 + hi) * 2 ^ (- ez) < 64 * 2 ^ (- ez))
          by (apply Z.mul_lt_mono_pos_r; lia).
        lia. }
      pose proof (Zdigits2_le (Z.pos ax + Z.pos ay) (6 - ez) ltac:(lia) ltac:(lia) Hlt).
      lia.
    + rewrite Pos2Z.inj_add. lia.
    + rewrite Pos2Z.inj_add. lia.
    + exact (py_int_between _ r t 3 (3 + hi) Hval Ht Hlo Hup).
Qed.

(** * Facts about the script *)

Section ScriptFacts.

Context `{Imaging} `{Random} `{Storage}.

Lemma with_draws_same w : with_draws w (draws w) = w.
Proof. destruct w; reflexivity. Qed.

Lemma bind_ok {A B : Type} (m : M A) (k : A → M B) w a w' :
  m w = (Ok a, w') → (a ← m; k a) w = k a w'.
Proof. intros Hm. unfold mbind, M_bind. rewrite Hm. reflexivity. Qed.

Lemma bind_lift_ok {A B : Type} (r : result A) (k : A → M B) w a :
  r = Ok a → (a ← lift r; k a) w = k a w.
Proof. intros ->. reflexivity. Qed.

Lemma noise_pixel_spec intensity k img x y w :
  in_bounds (width img) (height img) x y = true →
  noise_bound intensity = Ok k → 0 ≤ k →
  ∃ img', noise_pixel intensity x img y w = (Ok img', with_draws w (S (draws w)))
    ∧ width img' = width img ∧ height img' = height img
    ∧ ∀ x' y', pixel_at img' x' y' =
        if (x' =? x) && (y' =? y)
        then noisy (pixel_at img x y) (randint_at (draws w) (- k) k)
        else pixel_at img x' y'.
Proof.
  intros Hin Hk Hk0. unfold noise_pixel, getpixel, putpixel. rewrite Hin, Hk.
  destruct (pixel_at img x y) as [[r g] b] eqn:Hp.
  unfold lift, mbind, M_bind, randint. simpl.
  destruct (Z.ltb_spec k (- k)); [lia|].
  eexists. split; [reflexivity|]. simpl. split; [reflexivity|]. split; [reflexivity|].
  intros x' y'. reflexivity.
Qed.


Lemma with_draws_twice w d d' : with_draws (with_draws w d) d' = with_draws w d'.
Proof. reflexivity. Qed.

Lemma noise_column intensity k x (n : nat) : ∀ y0 img w,
  noise_bound intensity = Ok k → 0 ≤ k →
  0 ≤ x < width img → 0 ≤ y0 → y0 + Z.of_nat n ≤ height img →
  ∃ img', for_M (noise_pixel intensity x) (seqZ y0 (Z.of_nat n)) img w
            = (Ok img', with_draws w (draws w + n))
    ∧ width img' = width img ∧ height img' = height img
    ∧ ∀ x' y', pixel_at img' x' y' =
        if (x' =? x) && (y0 <=? y') && (y' <? y0 + Z.of_nat n)
        then noisy (pixel_at img x' y')
               (randint_at (draws w + Z.to_nat (y' - y0)) (- k) k)
        else pixel_at img x' y'.
Proof.
  induction n as [|n IH]; intros y0 img w Hk Hk0 Hx Hy0 Hh.
  - exists img. simpl. rewrite Nat.add_0_r, with_draws_same.
    split; [reflexivity|]. split; [reflexivity|]. split; [reflexivity|].
    intros x' y'. destruct (x' =? x), (Z.leb_spec y0 y'), (Z.ltb_spec y' (y0 + Z.of_nat 0));
      simpl; try reflexivity; lia.
  - rewrite seqZ_cons by lia. simpl for_M.
    assert (Hin : in_bounds (width img) (height img) x y0 = true).
    { unfold in_bounds. repeat (apply andb_true_intro; split);
        first [apply Z.leb_le|apply Z.ltb_lt]; lia. }
    destruct (noise_pixel_spec intensity k img x y0 w Hin Hk Hk0)
      as (img1 & Hrun1 & Hw1 & Hh1 & Hp1).
    rewrite (bind_ok _ _ _ _ _ Hrun1).
    replace (Z.pred (Z.of_nat (S n))) with (Z.of_nat n) by lia.
    destruct (IH (Z.succ y0) img1 (with_draws w (S (draws w))) Hk Hk0)
      as (img2 & Hrun2 & Hw2 & Hh2 & Hp2); try lia.
    exists img2. rewrite Hrun2. simpl draws. rewrite with_draws_twice.
    split; [f_equal; f_equal; lia|]. split; [congruence|]. split; [congruence|].
    intros x' y'. rewrite Hp2, !Hp1.
    destruct (Z.eqb_spec x' x) as [->|Hne]; simpl.
    + destruct (Z.eqb_spec y' y0) as [->|Hney].
      * destruct (Z.leb_spec (Z.succ y0) y0); [lia|]. simpl.
        destruct (Z.leb_spec y0 y0); [|lia]. destruct (Z.ltb_spec y0 (y0 + Z.of_nat (S n))); [|lia].
        simpl. rewrite Z.sub_diag. simpl. rewrite Nat.add_0_r. reflexivity.
      * destruct (Z.leb_spec (Z.succ y0) y'), (Z.leb_spec y0 y'),
          (Z.ltb_spec y' (Z.succ y0 + Z.of_nat n)), (Z.ltb_spec y' (y0 + Z.of_nat (S n)));
          simpl; try reflexivity; try lia.
        f_equal. f_equal. lia.
    + reflexivity.
Qed.


Lemma noise_whole_column intensity k x img w :
  noise_bound intensity = Ok k → 0 ≤ k → 0 ≤ x < width img →
  ∃ img', for_M (noise_pixel intensity x) (seqZ 0 (height img)) img w
            = (Ok img', with_draws w (draws w + Z.to_nat (height img)))
    ∧ width img' = width img ∧ height img' = height img
    ∧ ∀ x' y', pixel_at img' x' y' =
        if (x' =? x) && (0 <=? y') && (y' <? height img)
        then noisy (pixel_at img x' y') (randint_at (draws w + Z.to_nat y') (- k) k)
        else pixel_at img x' y'.
Proof.
  intros Hk Hk0 Hx. destruct (Z_le_gt_dec (height img) 0) as [Hneg|Hpos].
  - rewrite seqZ_nil by lia. exists img. simpl.
    replace (Z.to_nat (height img)) with 0%nat by lia.
    rewrite Nat.add_0_r, with_draws_same. repeat split.
    intros x' y'. destruct (x' =? x), (Z.leb_spec 0 y'), (Z.ltb_spec y' (height img));
      simpl; try reflexivity; lia.
  - destruct (noise_column intensity k x (Z.to_nat (height img)) 0 img w Hk Hk0 Hx)
      as (img' & Hrun & Hw & Hh & Hp); try lia.
    rewrite Z2Nat.id in Hrun by lia. exists img'. split; [exact Hrun|].
    split; [exact Hw|]. split; [exact Hh|].
    intros x' y'. rewrite Hp, Z2Nat.id, Z.add_0_l, Z.sub_0_r by lia. reflexivity.
Qed.

Lemma noise_columns intensity k h (n : nat) : ∀ x0 img w,
  noise_bound intensity = Ok k → 0 ≤ k → height img = h →
  0 ≤ x0 → x0 + Z.of_nat n ≤ width img →
  ∃ img', for_M (λ pixels x, for_M (noise_pixel intensity x) (seqZ 0 h) pixels)
            (seqZ x0 (Z.of_nat n)) img w
            = (Ok img', with_draws w (draws w + n * Z.to_nat h))
    ∧ width img' = width img ∧ height img' = h
    ∧ ∀ x' y', pixel_at img' x' y' =
        if (x0 <=? x') && (x' <? x0 + Z.of_nat n) && (0 <=? y') && (y' <? h)
        then noisy (pixel_at img x' y')
               (randint_at (draws w + Z.to_nat ((x' - x0) * h + y')) (- k) k)
        else pixel_at img x' y'.
Proof.
  induction n as [|n IH]; intros x0 img w Hk Hk0 Hh Hx0 Hw.
  - exists img. simpl. rewrite Nat.add_0_r, with_draws_same. repeat split; [assumption|].
    intros x' y'. destruct (Z.leb_spec x0 x'), (Z.ltb_spec x' (x0 + Z.of_nat 0));
      simpl; try reflexivity; lia.
  - rewrite (seqZ_cons x0) by lia. simpl for_M.
    destruct (noise_whole_column intensity k x0 img w Hk Hk0) as (img1 & Hrun1 & Hw1 & Hh1 & Hp1);
      [lia|].
    rewrite Hh in Hrun1, Hp1.
    rewrite (bind_ok _ _ _ _ _ Hrun1).
    replace (Z.pred (Z.of_nat (S n))) with (Z.of_nat n) by lia.
    destruct (IH (Z.succ x0) img1 (with_draws w (draws w + Z.to_nat h)) Hk Hk0)
      as (img2 & Hrun2 & Hw2 & Hh2 & Hp2); try lia.
    exists img2. rewrite Hrun2. simpl draws. rewrite with_draws_twice.
    split; [f_equal; f_equal; lia|]. split; [congruence|]. split; [congruence|].
    intros x' y'. rewrite Hp2, !Hp1.
    destruct (Z.eqb_spec x' x0) as [->|Hne]; simpl.
    + destruct (Z.leb_spec (Z.succ x0) x0); [lia|]. simpl.
      destruct (Z.leb_spec x0 x0); [|lia]. destruct (Z.ltb_spec x0 (x0 + Z.of_nat (S n))); [|lia].
      simpl. rewrite Z.sub_diag, Z.mul_0_l, Z.add_0_l. reflexivity.
    + destruct (Z.leb_spec (Z.succ x0) x'), (Z.leb_spec x0 x'),
        (Z.ltb_spec x' (Z.succ x0 + Z.of_nat n)), (Z.ltb_spec x' (x0 + Z.of_nat (S n)));
        simpl; try reflexivity; try lia.
      destruct (Z.leb_spec 0 y'), (Z.ltb_spec y' h); simpl; try reflexivity.
      f_equal. f_equal.
      replace ((x' - x0) * h) with ((x' - Z.succ x0) * h + h) by lia.
      assert (0 ≤ (x' - Z.succ x0) * h) by nia. lia.
Qed.

(** The noise step: it succeeds, keeps the size, draws once per pixel and
    adds the draw of a pixel to each of its three channels. *)
Lemma add_pixel_noise_spec img intensity k w :
  noise_bound intensity = Ok k → 0 ≤ k →
  ∃ img', add_pixel_noise img intensity w
            = (Ok img', with_draws w (draws w + Z.to_nat (width img) * Z.to_nat (height img)))
    ∧ width img' = width img ∧ height img' = height img
    ∧ ∀ x y, pixel_at img' x y =
        if in_bounds (width img) (height img) x y
        then noisy (pixel_at img x y)
               (randint_at (draws w + Z.to_nat (x * height img + y)) (- k) k)
        else pixel_at img x y.
Proof.
  intros Hk Hk0. unfold add_pixel_noise. cbv zeta.
  destruct (Z_le_gt_dec (width img) 0) as [Hneg|Hpos].
  - rewrite (seqZ_nil 0 (width img)) by lia. exists img. simpl.
    replace (Z.to_nat (width img)) with 0%nat by lia.
    rewrite Nat.add_0_r, with_draws_same. repeat split.
    intros x y. unfold in_bounds.
    destruct (Z.leb_spec 0 x), (Z.ltb_spec x (width img)); simpl; try reflexivity; lia.
  - destruct (noise_columns intensity k (height img) (Z.to_nat (width img)) 0 img w Hk Hk0)
      as (img' & Hrun & Hw & Hh & Hp); try lia.
    rewrite Z2Nat.id in Hrun by lia. exists img'. split; [exact Hrun|].
    split; [exact Hw|]. split; [exact Hh|].
    intros x y. rewrite Hp, Z2Nat.id, Z.add_0_l, Z.sub_0_r by lia. reflexivity.
Qed.


(** *** No step of the pipeline raises on an intensity of the ramp *)

Lemma Small_f2 : Small 2 f2.
Proof. vm_compute. split; [reflexivity|discriminate]. Qed.

Lemma Small_f30 : Small 5 f30.
Proof. vm_compute. split; [reflexivity|discriminate]. Qed.

Lemma Small_f1_0 : Small 1 f1_0.
Proof. vm_compute. split; [reflexivity|discriminate]. Qed.

Lemma Small_f0_5 : Small 0 f0_5.
Proof. vm_compute. split; [reflexivity|discriminate]. Qed.

Lemma Small_f3 : Small 2 f3.
Proof. vm_compute. split; [reflexivity|discriminate]. Qed.

Lemma poster_bits_ok x :
  Small 4 x → ∃ bits, poster_bits x = Ok bits ∧ 1 ≤ bits ≤ 8.
Proof.
  intros Hx. unfold poster_bits.
  destruct (py_int_small _ _ (fmul_small 4 2 x f2 Hx Small_f2 ltac:(lia))) as (t & -> & Ht).
  eexists. split; [reflexivity|]. lia.
Qed.

Lemma posterize_ok img bits :
  bits ≤ 8 → ∃ img', posterize img bits = Ok img'
    ∧ width img' = width img ∧ height img' = height img.
Proof.
  intros Hb. unfold posterize. destruct (Z.ltb_spec 8 bits); [lia|].
  eexists. repeat split.
Qed.

Lemma noise_bound_ok x : Small 4 x → ∃ k, noise_bound x = Ok k ∧ 0 ≤ k.
Proof.
  intros Hx. unfold noise_bound.
  exact (py_int_small _ _ (fmul_small 4 5 x f30 Hx Small_f30 ltac:(lia))).
Qed.

Lemma c_int_spec z : - 2 ^ 31 ≤ z < 2 ^ 31 → c_int z = true.
Proof.
  intros Hz. unfold c_int. apply andb_true_intro.
  split; [apply Z.leb_le|apply Z.ltb_lt]; lia.
Qed.

Lemma offset_ok c dx :
  - 2 ^ 31 ≤ dx < 2 ^ 31 →
  offset c dx 0
  = Ok {| band_width := band_width c; band_height := band_height c;
          value_at := λ x y, value_at c ((x - dx) mod band_width c)
                                        ((y - 0) mod band_height c) |}.
Proof. intros Hdx. unfold offset. rewrite (c_int_spec dx Hdx). reflexivity. Qed.

Lemma chromatic_aberration_ok img x :
  Small 4 x → ∃ img', chromatic_aberration img x = Ok img'.
Proof.
  intros Hx. unfold chromatic_aberration, red_offset, green_offset, split.
  destruct (py_int_below 7 _ ltac:(lia) (fmul_small 4 2 x f2 Hx Small_f2 ltac:(lia)))
    as (dr & -> & Hdr).
  destruct (py_int_below 6 _ ltac:(lia) (fmul_small 4 1 x f1_0 Hx Small_f1_0 ltac:(lia)))
    as (dg & -> & Hdg).
  change (2 ^ 7) with 128 in Hdr. change (2 ^ 6) with 64 in Hdg.
  simpl. rewrite offset_ok by (change (2 ^ 31) with 2147483648; lia). simpl.
  rewrite offset_ok by (change (2 ^ 31) with 2147483648; lia). simpl.
  unfold merge. simpl. rewrite !Z.eqb_refl. simpl. eexists. reflexivity.
Qed.

Lemma map_result_ok {A B : Type} (f : A → result B) (l : list A) :
  (∀ x, x ∈ l → ∃ y, f x = Ok y) → ∃ ys, map_result f l = Ok ys.
Proof.
  induction l as [|x l IH]; intros Hall.
  - exists []. reflexivity.
  - destruct (Hall x ltac:(left)) as (y & Hy).
    destruct IH as (ys & Hys); [intros z Hz; apply Hall; right; exact Hz|].
    exists (y :: ys). simpl. rewrite Hy. simpl. rewrite Hys. reflexivity.
Qed.

Lemma float_of_int_small p B :
  0 ≤ p < 2 ^ B → 0 ≤ B ≤ 971 → ∃ f, float_of_int p = Ok f ∧ Small (B + 1) f.
Proof.
  intros Hp HB. unfold float_of_int. destruct p as [|p|p]; try lia.
  - exists (S754_zero false). split; reflexivity.
  - simpl binary_normalize.
    assert (Hd : Zdigits2 (Z.pos p) + 0 ≤ B).
    { pose proof (Zdigits2_le (Z.pos p) B ltac:(lia) ltac:(lia) ltac:(lia)). lia. }
    pose proof (binary_round_small false p 0 B Hd ltac:(lia) eq_refl) as Hs.
    destruct (binary_round prec emax false p 0); simpl in Hs; try done; eexists; split;
      try reflexivity; exact Hs.
Qed.

Lemma etch_mask_value_ok x p :
  Small 4 x → 0 ≤ p < 256 → ∃ v, etch_mask_value x p = Ok v.
Proof.
  intros Hx Hp. unfold etch_mask_value.
  destruct (float_of_int_small p 8 ltac:(simpl; lia) ltac:(lia)) as (fp & -> & Hfp).
  simpl.
  pose proof (fmul_small _ _ _ _ (fmul_small _ _ _ _ Hfp Hx ltac:(lia)) Small_f0_5 ltac:(lia)) as Hs.
  destruct (py_int_small _ _ Hs) as (v & -> & _). simpl. eexists. reflexivity.
Qed.

Lemma circuit_etch_ok img x : Small 4 x → ∃ img', circuit_etch img x = Ok img'.
Proof.
  intros Hx. unfold circuit_etch, point.
  destruct (map_result_ok (etch_mask_value x) (seqZ 0 256)) as (lut & ->).
  { intros p Hp. apply elem_of_seqZ in Hp. apply etch_mask_value_ok; [assumption|lia]. }
  simpl. eexists. reflexivity.
Qed.

Lemma odd_size_spec raw_size : Z.odd (odd_size raw_size) = true ∧ 3 ≤ odd_size raw_size.
Proof.
  unfold odd_size. split; [|lia].
  pose proof (Z.mod_pos_bound raw_size 2 ltac:(lia)) as Hr.
  destruct (Z.eqb_spec (raw_size mod 2) 1) as [E|E].
  - assert (Ho : Z.odd raw_size = true) by (rewrite Zmod_odd in E; destruct (Z.odd raw_size); [reflexivity|lia]).
    destruct (Z.max_spec 3 raw_size) as [[_ ->]|[_ ->]]; [exact Ho|reflexivity].
  - assert (Ho : Z.odd (raw_size + 1) = true).
    { rewrite Z.odd_add. rewrite Zmod_odd in E. destruct (Z.odd raw_size); [lia|reflexivity]. }
    destruct (Z.max_spec 3 (raw_size + 1)) as [[_ ->]|[_ ->]]; [exact Ho|reflexivity].
Qed.

Lemma Small_finite B f : Small B f → is_finite f = true ∧ nonneg f = true.
Proof.
  destruct f as [s| | |s m e]; simpl; try contradiction.
  - intros ->. split; reflexivity.
  - intros [-> _]. split; reflexivity.
Qed.

(** The intensities of the ramp meet the premises of the claims below:
    they are non-negative and none of the products overflows. *)
Lemma ramp_intensity_fits (i N : Z) :
  1 ≤ i ≤ N →
  ∃ x, ramp i N = Ok x
    ∧ nonneg x = true
    ∧ is_finite (fmul x f2) = true
    ∧ is_finite (fmul x f30) = true
    ∧ is_finite (fadd f3 (fmul x f2)) = true.
Proof.
  intros Hi. destruct (ramp_small i N Hi) as (x & Hx & Hs).
  exists x. split; [exact Hx|].
  split; [exact (proj2 (Small_finite _ _ Hs))|].
  pose proof (fmul_small 4 2 x f2 Hs Small_f2 ltac:(lia)) as H2.
  split; [exact (proj1 (Small_finite _ _ H2))|].
  split; [exact (proj1 (Small_finite _ _ (fmul_small 4 5 x f30 Hs Small_f30 ltac:(lia))))|].
  exact (proj1 (Small_finite _ _ (fadd_small _ _ _ _ Small_f3 H2 ltac:(lia)))).
Qed.

Lemma median_size_ok x : Small 4 x → ∃ size, median_size x = Ok size ∧ Z.odd size = true.
Proof.
  intros Hx. unfold median_size.
  pose proof (fadd_small _ _ _ _ Small_f3 (fmul_small 4 2 x f2 Hx Small_f2 ltac:(lia)) ltac:(lia)) as Hs.
  destruct (py_int_small _ _ Hs) as (raw & -> & _). simpl.
  eexists. split; [reflexivity|]. apply odd_size_spec.
Qed.

Lemma rank_size_fits_spec size : 1 ≤ size ≤ 23170 → rank_size_fits size = true.
Proof.
  intros Hs. unfold rank_size_fits. change (2 ^ 31 - 1) with 2147483647.
  assert (Hsq : size * size ≤ 23170 * 23170) by (apply Z.mul_le_mono_nonneg; lia).
  apply andb_true_intro. split; [apply andb_true_intro; split|]; apply Z.leb_le.
  - lia.
  - apply Z.div_le_lower_bound; lia.
  - apply Z.div_le_lower_bound; lia.
Qed.

Lemma median_filter_ok size img :
  Z.odd size = true → 1 ≤ size ≤ 23170 → median_filter size img = Ok (rank_median size img).
Proof.
  intros Hodd Hs. unfold median_filter.
  rewrite <- Z.negb_odd, Hodd, (rank_size_fits_spec size Hs). reflexivity.
Qed.

(** For an intensity below 16 the kernel stays small. *)
Lemma median_size_small x :
  Small 4 x → ∃ raw, py_int (fadd f3 (fmul x f2)) = Ok raw ∧ 0 ≤ raw < 512.
Proof.
  intros Hx.
  pose proof (fadd_small _ _ _ _ Small_f3 (fmul_small 4 2 x f2 Hx Small_f2 ltac:(lia)) ltac:(lia)) as Hs.
  exact (py_int_below 9 _ ltac:(lia) Hs).
Qed.

Lemma odd_size_le raw : odd_size raw ≤ Z.max 3 (raw + 1).
Proof. unfold odd_size. destruct (raw mod 2 =? 1); lia. Qed.

Lemma simulate_oil_paint_ok img x : Small 4 x → ∃ img', simulate_oil_paint img x = Ok img'.
Proof.
  intros Hx. unfold simulate_oil_paint, median_size.
  destruct (median_size_small x Hx) as (raw & -> & Hraw). simpl.
  destruct (odd_size_spec raw) as [Hodd H3]. pose proof (odd_size_le raw) as Hle.
  rewrite median_filter_ok by (assumption || lia). eexists. reflexivity.
Qed.

(** A step of the ramp only consumes random draws. *)
Lemma progressive_glitch_ok img i N w :
  1 ≤ i ≤ N → ∃ img' d, progressive_glitch img i N w = (Ok img', with_draws w d).
Proof.
  intros Hi. unfold progressive_glitch.
  destruct (ramp_small i N Hi) as (x & Hx & Hs).
  rewrite (bind_lift_ok _ _ _ _ Hx). unfold effect_pipeline.
  destruct (poster_bits_ok x Hs) as (bits & Hbits & Hb).
  rewrite (bind_lift_ok _ _ _ _ Hbits).
  destruct (posterize_ok (enhance_color
               (enhance_contrast (gaussian_blur (fmul x f1_5) img)
                  (fadd f1_0 (fmul x f0_5))) (fadd f1_1 (fmul x f0_4))) bits ltac:(lia))
    as (posterized & Hpost & _ & _).
  rewrite (bind_lift_ok _ _ _ _ Hpost).
  destruct (noise_bound_ok x Hs) as (k & Hk & Hk0).
  destruct (add_pixel_noise_spec posterized x k w Hk Hk0) as (noised & Hnoise & _).
  rewrite (bind_ok _ _ _ _ _ Hnoise).
  match goal with |- context [chromatic_aberration ?g x] =>
    destruct (chromatic_aberration_ok g x Hs) as (aberrated & Hab) end.
  rewrite (bind_lift_ok _ _ _ _ Hab).
  destruct (circuit_etch_ok aberrated x Hs) as (etched & Het).
  rewrite (bind_lift_ok _ _ _ _ Het).
  destruct (simulate_oil_paint_ok etched x Hs) as (oiled & Hoil).
  rewrite (bind_lift_ok _ _ _ _ Hoil).
  eexists _, _. reflexivity.
Qed.


(** *** Strings and paths *)

Lemma append_cons c s t : String c s +:+ t = String c (s +:+ t).
Proof. reflexivity. Qed.

Lemma append_nil_r s : s +:+ "" = s.
Proof.
  induction s as [|c s IH]; [reflexivity|]. rewrite append_cons. f_equal. exact IH.
Qed.

Lemma append_assoc a b c : (a +:+ b) +:+ c = a +:+ (b +:+ c).
Proof.
  induction a as [|x a IH]; [reflexivity|]. rewrite !append_cons. f_equal. exact IH.
Qed.

Lemma length_append a b : String.length (a +:+ b) = (String.length a + String.length b)%nat.
Proof.
  induction a as [|x a IH]; [reflexivity|]. rewrite append_cons. simpl. f_equal. exact IH.
Qed.

Lemma append_inv_tail a b t : a +:+ t = b +:+ t → a = b.
Proof.
  revert b. induction a as [|x a IH]; intros [|y b] Heq.
  - reflexivity.
  - apply (f_equal String.length) in Heq. change ("" +:+ t) with t in Heq.
    rewrite append_cons in Heq. simpl in Heq. rewrite length_append in Heq. lia.
  - apply (f_equal String.length) in Heq. change ("" +:+ t) with t in Heq.
    rewrite append_cons in Heq. simpl in Heq. rewrite length_append in Heq. lia.
  - rewrite !append_cons in Heq. injection Heq as -> Heq. f_equal. apply IH. exact Heq.
Qed.

Lemma last_char_append a c t : last_char (a +:+ String c t) = last_char (String c t).
Proof.
  induction a as [|x a IH]; [reflexivity|].
  rewrite append_cons. rewrite <- IH.
  destruct a as [|y a]; reflexivity.
Qed.

Lemma join_relative a b :
  Path.startswith_sep b = false → Path.join a b = join_prefix a +:+ b.
Proof.
  intros Hb. unfold Path.join, join_prefix. rewrite Hb.
  destruct (String.eqb a "" || Path.endswith_sep a)%bool; [reflexivity|].
  rewrite append_assoc. reflexivity.
Qed.

Lemma jack_name_relative i : Path.startswith_sep (jack_name i) = false.
Proof. reflexivity. Qed.

Lemma jack_path_inj dir i j : jack_path dir i = jack_path dir j → i = j.
Proof.
  unfold jack_path. rewrite !join_relative by apply jack_name_relative.
  intros Heq. apply String.app_inj in Heq. unfold jack_name in Heq.
  apply String.app_inj in Heq. apply append_inv_tail in Heq.
  apply (inj pretty). exact Heq.
Qed.

Lemma jack_path_last dir i : last_char (jack_path dir i) = Some "g"%char.
Proof.
  unfold jack_path. rewrite join_relative by apply jack_name_relative.
  unfold jack_name. rewrite <- !append_assoc.
  change ".png" with (String "."%char "png"). rewrite last_char_append. reflexivity.
Qed.

Lemma caption_path_last dir : last_char (caption_path dir) = Some "t"%char.
Proof.
  unfold caption_path. rewrite join_relative by reflexivity.
  unfold caption_name.
  change "cyber_jack_thread.txt" with (String "c"%char "yber_jack_thread.txt").
  rewrite last_char_append. reflexivity.
Qed.

Lemma caption_path_fresh dir i : caption_path dir ≠ jack_path dir i.
Proof.
  intros Heq. apply (f_equal last_char) in Heq.
  rewrite caption_path_last, jack_path_last in Heq. discriminate.
Qed.


(** *** The generator *)

Lemma jack_step_spec N dir cur vs i w :
  1 ≤ i ≤ N →
  ∃ cur' w', jack_step N dir (cur, vs) i w = (Ok (cur', vs ++ [jack_path dir i]), w')
    ∧ fs w' = (jack_path dir i, FImage cur') :: fs w ∧ dirs w' = dirs w.
Proof.
  intros Hi. unfold jack_step.
  destruct (progressive_glitch_ok cur i N w Hi) as (cur' & d & Hrun).
  rewrite (bind_ok _ _ _ _ _ Hrun).
  eexists cur', _. split; [reflexivity|]. split; reflexivity.
Qed.

Lemma generate_loop N dir (n : nat) : ∀ j cur vs w,
  1 ≤ j → j + Z.of_nat n - 1 ≤ N →
  ∃ cur' w' entries,
    for_M (jack_step N dir) (seqZ j (Z.of_nat n)) (cur, vs) w
      = (Ok (cur', vs ++ (jack_path dir <$> seqZ j (Z.of_nat n))), w')
    ∧ fs w' = entries ++ fs w
    ∧ reverse (entries.*1) = jack_path dir <$> seqZ j (Z.of_nat n)
    ∧ Forall is_image entries
    ∧ dirs w' = dirs w.
Proof.
  induction n as [|n IH]; intros j cur vs w Hj Hn.
  - exists cur, w, []. simpl. rewrite app_nil_r. repeat split. constructor.
  - rewrite seqZ_cons by lia. simpl for_M.
    destruct (jack_step_spec N dir cur vs j w ltac:(lia)) as (cur1 & w1 & Hrun1 & Hfs1 & Hd1).
    rewrite (bind_ok _ _ _ _ _ Hrun1).
    replace (Z.pred (Z.of_nat (S n))) with (Z.of_nat n) by lia.
    destruct (IH (Z.succ j) cur1 (vs ++ [jack_path dir j]) w1 ltac:(lia) ltac:(lia))
      as (cur2 & w2 & entries & Hrun2 & Hfs2 & Hnames & Himg & Hd2).
    exists cur2, w2, (entries ++ [(jack_path dir j, FImage cur1)]).
    split; [rewrite Hrun2, <- app_assoc; reflexivity|].
    split; [rewrite Hfs2, Hfs1, <- app_assoc; reflexivity|].
    split; [rewrite fmap_app, reverse_app, Hnames; reflexivity|].
    split; [|congruence].
    apply Forall_app. split; [exact Himg|].
    constructor; [|constructor]. exists cur1. reflexivity.
Qed.

Lemma makedirs_ok dir w :
  dir ≠ "" → read_file (fs w) dir = None → makedirs_refusal dir = None →
  makedirs dir w = (Ok tt, {| fs := fs w; dirs := dir :: dirs w;
                              console := console w; draws := draws w |}).
Proof.
  intros Hdir Hfree Hmk. unfold makedirs. rewrite Hfree, Hmk.
  destruct (String.eqb_spec dir ""); [contradiction|reflexivity].
Qed.

(** The generator succeeds as soon as the source loads and the output
    directory can be made; it adds one journal entry per step. *)
Lemma generate_spec input N dir w base :
  open_RGB input w = (Ok base, w) →
  dir ≠ "" → read_file (fs w) dir = None → makedirs_refusal dir = None →
  ∃ w' entries,
    generate_jack_variants input N dir w
      = (Ok (jack_path dir 0 :: (jack_path dir <$> seqZ 1 N)), w')
    ∧ fs w' = entries ++ (jack_path dir 0, FImage base) :: fs w
    ∧ reverse (entries.*1) = jack_path dir <$> seqZ 1 N
    ∧ Forall is_image entries.
Proof.
  intros Hopen Hdir Hfree Hfit. unfold generate_jack_variants.
  rewrite (bind_ok _ _ _ _ _ Hopen).
  rewrite (bind_ok _ _ _ _ _ (makedirs_ok dir w Hdir Hfree Hfit)).
  change (Path.join dir "jack_0.png") with (jack_path dir 0).
  unfold save, write_file, print, mbind, M_bind, mret, M_ret.
  cbn [fs dirs console draws].
  set (w1 := {| fs := (jack_path dir 0, FImage base) :: fs w; dirs := dir :: dirs w;
                console := console w ++ ["Jack'd: " +:+ jack_path dir 0
                                         +:+ " (step 0 - pristine cyber sip)"];
                draws := draws w |}).
  destruct (Z_le_gt_dec N 0) as [Hneg|Hpos].
  - exists w1, []. rewrite (seqZ_nil 1 N) by lia. repeat split. constructor.
  - destruct (generate_loop N dir (Z.to_nat N) 1 base ([] ++ [jack_path dir 0]) w1
                ltac:(lia) ltac:(lia))
      as (cur' & w' & entries & Hrun & Hfs & Hnames & Himg & _).
    rewrite Z2Nat.id in Hrun, Hnames by lia.
    exists w', entries. split; [rewrite Hrun; reflexivity|].
    split; [rewrite Hfs; reflexivity|]. split; assumption.
Qed.

(** *** The caption generator *)

Lemma phrase_spec i : 1 ≤ i → phrase i = Ok (chosen_phrase i).
Proof.
  intros Hi. unfold phrase, chosen_phrase. change (len effects) with 5.
  destruct (Z.leb_spec i 5) as [Hle|Hgt]; [|reflexivity].
  assert (Hcases : i = 1 ∨ i = 2 ∨ i = 3 ∨ i = 4 ∨ i = 5) by lia.
  destruct Hcases as [->|[->|[->|[->| ->]]]]; reflexivity.
Qed.

Lemma chosen_phrase_bank i :
  1 ≤ i ≤ 5 → effects !! Z.to_nat (i - 1) = Some (chosen_phrase i).
Proof.
  intros Hi.
  assert (Hcases : i = 1 ∨ i = 2 ∨ i = 3 ∨ i = 4 ∨ i = 5) by lia.
  destruct Hcases as [->|[->|[->|[->| ->]]]]; reflexivity.
Qed.

Lemma chosen_phrase_fallback i : 5 < i → chosen_phrase i = fallback.
Proof.
  intros Hi. unfold chosen_phrase. destruct (Z.leb_spec i 5); [lia|reflexivity].
Qed.

Lemma caption_spec variants wm i path :
  1 ≤ i → caption variants wm i path = Ok (paragraph (len variants - 1) wm (i, path)).
Proof.
  intros Hi. unfold caption. rewrite (phrase_spec i Hi). simpl.
  unfold paragraph, watermark_part, truthy, reference_line, numbered_line. simpl.
  destruct wm as [s|]; simpl.
  - destruct (String.eqb s ""); simpl; [rewrite append_nil_r|]; reflexivity.
  - rewrite append_nil_r. reflexivity.
Qed.

Lemma caption_loop variants wm (l : list string) : ∀ start acc,
  1 ≤ start →
  for_result (caption_step variants wm) (enumerate start l) acc
    = Ok (acc +:+ join_all (paragraph (len variants - 1) wm <$> enumerate start l)).
Proof.
  induction l as [|path l IH]; intros start acc Hs.
  - simpl. rewrite append_nil_r. reflexivity.
  - simpl enumerate. simpl for_result. unfold caption_step at 1.
    rewrite (caption_spec variants wm start path Hs). simpl mbind.
    unfold mbind, result_bind. rewrite IH by lia.
    rewrite fmap_cons. simpl join_all. rewrite append_assoc. reflexivity.
Qed.

Lemma enumerate_length {A : Type} (l : list A) start :
  List.length (enumerate start l) = List.length l.
Proof. revert start. induction l as [|x l IH]; intros start; simpl; [|rewrite IH]; reflexivity. Qed.

Lemma enumerate_lookup {A : Type} (l : list A) : ∀ start (k : nat) x,
  l !! k = Some x → enumerate start l !! k = Some (start + Z.of_nat k, x).
Proof.
  induction l as [|y l IH]; intros start k x Hk; [discriminate|].
  destruct k as [|k]; simpl in *.
  - injection Hk as ->. rewrite Z.add_0_r. reflexivity.
  - rewrite (IH (start + 1) k x Hk). f_equal. f_equal. lia.
Qed.

(** The thread is the header, one paragraph per variant after the first,
    and the footer; it goes to one text file next to the first variant. *)
Lemma jack_thread_captions_spec first rest wm w :
  let text := header +:+ join_all (paragraph (len rest) wm <$> enumerate 1 rest)
              +:+ footer in
  ∃ w', jack_thread_captions (first :: rest) wm w = (Ok text, w')
    ∧ fs w' = (Path.join (Path.dirname first) caption_name, FText text) :: fs w.
Proof.
  intros text. unfold jack_thread_captions. simpl tail.
  rewrite (bind_lift_ok _ _ _ _ (caption_loop (first :: rest) wm rest 1 header ltac:(lia))).
  replace (len (first :: rest) - 1) with (len rest) by (unfold len; simpl List.length; lia).
  rewrite append_assoc. fold text.
  eexists. split; reflexivity.
Qed.


(** *** A whole run *)

Lemma read_file_skip (entries journal : list (string * file)) path :
  Forall (λ e, e.1 ≠ path) entries →
  read_file (entries ++ journal) path = read_file journal path.
Proof.
  induction 1 as [|[p f] entries Hne _ IH]; [reflexivity|].
  simpl in *. destruct (String.eqb_spec p path); [contradiction|exact IH].
Qed.

(** A run succeeds whatever the step count, and its journal entries are
    the caption thread, the steps 1..N and the step 0. *)
Lemma main_spec args w base :
  let dir := output_dir args in
  let N := num_images args in
  let steps := jack_path dir <$> seqZ 1 N in
  let text := header
              +:+ join_all (paragraph (len steps) (watermark_text args) <$> enumerate 1 steps)
              +:+ footer in
  open_RGB (input args) w = (Ok base, w) →
  dir ≠ "" → read_file (fs w) dir = None → makedirs_refusal dir = None →
  ∃ w' entries,
    main args w = (Ok tt, w')
    ∧ fs w' = (caption_path dir, FText text) :: entries
              ++ (jack_path dir 0, FImage base) :: fs w
    ∧ reverse (entries.*1) = steps
    ∧ Forall is_image entries.
Proof.
  intros dir N steps text Hopen Hdir Hfree Hfit. unfold main.
  destruct (generate_spec (input args) N dir w base Hopen Hdir Hfree Hfit)
    as (w1 & entries & Hgen & Hfs1 & Hnames & Himg).
  rewrite (bind_ok _ _ _ _ _ Hgen).
  destruct (jack_thread_captions_spec (jack_path dir 0) steps (watermark_text args) w1)
    as (w2 & Hcap & Hfs2).
  rewrite (bind_ok _ _ _ _ _ Hcap).
  eexists _, entries. split; [reflexivity|].
  split; [|split; assumption].
  simpl fs. rewrite Hfs2, Hfs1. reflexivity.
Qed.

End ScriptFacts.

(** * The claims *)

Section Claims.

Context `{Imaging} `{Random} `{Storage}.

(** C7. Whenever [3 + intensity * 2] is a finite float (it is for every
  intensity below 2^1023, in particular for every intensity of the ramp),
  the median filter gets a kernel size that is odd and at least 3. *)
Theorem C7_median_size_odd (intensity : spec_float) :
is_finite (fadd f3 (fmul intensity f2)) = true →
∃ size, median_size intensity = Ok size ∧ Z.odd size = true ∧ 3 ≤ size.
Proof.
intros Hfin. unfold median_size.
destruct (fadd f3 (fmul intensity f2)) as [s|s| |s m e]; try discriminate; simpl;
  eexists; (split; [reflexivity|apply odd_size_spec]).
Qed.

(** The three channels of a pixel stay within a distance [k] of their old
  values, and inside 0..255, when the same bounded noise is added. *)
Lemma noisy_close (p : pixel) (n k : Z) :
- k ≤ n ≤ k →
(let '(r, g, b) := p in 0 ≤ r ≤ 255 ∧ 0 ≤ g ≤ 255 ∧ 0 ≤ b ≤ 255) →
let '(r, g, b) := p in
let '(r', g', b') := noisy p n in
(0 ≤ r' ≤ 255 ∧ Z.abs (r' - r) ≤ k)
∧ (0 ≤ g' ≤ 255 ∧ Z.abs (g' - g) ≤ k)
∧ (0 ≤ b' ≤ 255 ∧ Z.abs (b' - b) ≤ k).
Proof.
destruct p as [[r g] b]. unfold noisy, clamp255. intros Hn (Hr & Hg & Hb). lia.
Qed.

Lemma noise_bound_spec (intensity : spec_float) :
nonneg intensity = true → is_finite (fmul intensity f30) = true →
∃ k, noise_bound intensity = Ok k ∧ 0 ≤ k
  ∧ (inject_Z k <= SF2Q (fmul intensity f30))%Q.
Proof.
intros Hx Hfin. unfold noise_bound. apply py_int_floor; [exact Hfin|].
apply fmul_nonneg; [exact Hx|reflexivity|exact Hfin].
Qed.

(** C8. On an RGB picture, for a non-negative intensity whose product by 30
  is a finite float, and whatever the random generator draws, the noise
  step returns a picture of the same size in which every channel of every
  pixel lies in 0..255 and is within [k = int(intensity * 30)] of the
  channel it replaces; [k] does not exceed the product [intensity * 30]
  the script computes. *)
Theorem C8_noise_bounded (img : Image) (intensity : spec_float) (w : World) :
rgb8 img → nonneg intensity = true → is_finite (fmul intensity f30) = true →
∃ img' w' k,
  add_pixel_noise img intensity w = (Ok img', w')
  ∧ width img' = width img ∧ height img' = height img
  ∧ noise_bound intensity = Ok k
  ∧ (inject_Z k <= SF2Q (fmul intensity f30))%Q
  ∧ ∀ x y, in_bounds (width img) (height img) x y = true →
      let '(r, g, b) := pixel_at img x y in
      let '(r', g', b') := pixel_at img' x y in
      (0 ≤ r' ≤ 255 ∧ Z.abs (r' - r) ≤ k)
      ∧ (0 ≤ g' ≤ 255 ∧ Z.abs (g' - g) ≤ k)
      ∧ (0 ≤ b' ≤ 255 ∧ Z.abs (b' - b) ≤ k).
Proof.
intros Hrgb Hx Hfin.
destruct (noise_bound_spec intensity Hx Hfin) as (k & Hk & Hk0 & Hle).
destruct (add_pixel_noise_spec img intensity k w Hk Hk0) as (img' & Hrun & Hw & Hh & Hp).
eexists img', _, k. split; [exact Hrun|]. repeat (split; [assumption|]).
intros x y Hin. rewrite Hp, Hin.
apply noisy_close; [|exact (Hrgb x y Hin)].
apply randint_range. lia.
Qed.

(** C9. The noise step draws exactly one random value per pixel (the pixel
  at [(x, y)] gets the draw number [x * height + y] of the step) and adds
  that one value to the red, the green and the blue channel of the pixel. *)
Theorem C9_one_draw_per_pixel (img : Image) (intensity : spec_float) (w : World) :
nonneg intensity = true → is_finite (fmul intensity f30) = true →
∃ img' k,
  add_pixel_noise img intensity w
    = (Ok img', with_draws w (draws w + Z.to_nat (width img) * Z.to_nat (height img)))
  ∧ noise_bound intensity = Ok k
  ∧ ∀ x y, in_bounds (width img) (height img) x y = true →
      let noise := randint_at (draws w + Z.to_nat (x * height img + y)) (- k) k in
      let '(r, g, b) := pixel_at img x y in
      - k ≤ noise ≤ k
      ∧ pixel_at img' x y
        = (clamp255 (r + noise), clamp255 (g + noise), clamp255 (b + noise)).
Proof.
intros Hx Hfin.
destruct (noise_bound_spec intensity Hx Hfin) as (k & Hk & Hk0 & _).
destruct (add_pixel_noise_spec img intensity k w Hk Hk0) as (img' & Hrun & _ & _ & Hp).
exists img', k. split; [exact Hrun|]. split; [exact Hk|].
intros x y Hin. cbv zeta. rewrite Hp, Hin.
destruct (pixel_at img x y) as [[r g] b]. split; [apply randint_range; lia|reflexivity].
Qed.





Lemma ramp_formula (i N : Z) :
1 ≤ i ≤ N → ramp i N = Ok (fmul (quotient i N) f1_5).
Proof.
intros Hi. unfold ramp, int_truediv.
destruct (Z.eqb_spec N 0); [lia|].
destruct i as [|i|i]; try lia. destruct N as [|N|N]; try lia.
pose proof (quotient_small i N ltac:(lia)) as Hq.
destruct (quotient (Z.pos i) (Z.pos N)); simpl in Hq; try contradiction; reflexivity.
Qed.

(** C2. For every step count N >= 1 and all steps 1 <= i <= j <= N: the
  pipeline of step i runs at the intensity (i / N) * 1.5 (in binary64: the
  correctly rounded quotient, times 1.5, rounded); the intensity of step i
  does not exceed that of step j; and at the last step it is exactly 1.5. *)
Theorem C2_intensity_ramp (N i j : Z) (img : Image) (w : World) :
1 ≤ i → i ≤ j → j ≤ N →
progressive_glitch img i N w = effect_pipeline img (fmul (quotient i N) f1_5) w
∧ ramp i N = Ok (fmul (quotient i N) f1_5)
∧ ramp j N = Ok (fmul (quotient j N) f1_5)
∧ (SF2Q (fmul (quotient i N) f1_5) <= SF2Q (fmul (quotient j N) f1_5))%Q
∧ ramp N N = Ok f1_5
∧ (SF2Q f1_5 == 3 # 2)%Q.
Proof.
intros Hi Hij HjN.
pose proof (ramp_formula i N ltac:(lia)) as Hri.
pose proof (ramp_formula j N ltac:(lia)) as Hrj.
pose proof (ramp_formula N N ltac:(lia)) as HrN.
split; [unfold progressive_glitch; rewrite (bind_lift_ok _ _ _ _ Hri); reflexivity|].
split; [exact Hri|]. split; [exact Hrj|].
destruct i as [|i|i]; try lia. destruct j as [|j|j]; try lia.
destruct N as [|N|N]; try lia.
split; [|split; [|reflexivity]].
- apply fmul_f1_5_mono.
  + apply quotient_small. lia.
  + apply quotient_small. lia.
  + apply quotient_mono; lia.
- rewrite HrN, quotient_same. reflexivity.
Qed.

(** C4, as amended. For a non-negative intensity whose double is a finite
  float, the posterization gets the bit depth max(1, 8 - t) where t is
  [2 * intensity] truncated to an integer; the depth lies in 1..8. On a
  valid binary64 intensity the doubling is exact, so t is the floor of
  twice the intensity. *)
Theorem C4_poster_bits_truncated (intensity : spec_float) :
nonneg intensity = true → is_finite (fmul intensity f2) = true →
∃ bits,
  poster_bits intensity = Ok bits
  ∧ bits = Z.max 1 (8 - Qfloor (SF2Q (fmul intensity f2)))
  ∧ 1 ≤ bits ≤ 8
  ∧ (valid_binary prec emax intensity = true →
     bits = Z.max 1 (8 - Qfloor (2 * SF2Q intensity))).
Proof.
intros Hx Hfin.
assert (Hnn : nonneg (fmul intensity f2) = true)
  by (apply fmul_nonneg; [exact Hx|reflexivity|exact Hfin]).
destruct (py_int_floor _ Hfin Hnn) as (t & Ht & Ht0 & _).
pose proof (py_int_Qfloor _ Hfin Hnn) as Hfl. rewrite Ht in Hfl. injection Hfl as Hfl.
exists (Z.max 1 (8 - t)). unfold poster_bits. rewrite Ht.
split; [reflexivity|]. split; [rewrite Hfl; reflexivity|]. split; [lia|].
intros Hval. rewrite Hfl. rewrite (Qfloor_comp _ _ (fmul_f2_exact _ Hval Hx Hfin)).
reflexivity.
Qed.

(** C10. For every RGB picture and every binary64 intensity with
  0 <= intensity < 0.5, both channel offsets are 0 and the chromatic
  aberration step returns a picture of the same size with the same pixels. *)
Theorem C10_aberration_identity (img : Image) (intensity : spec_float) :
is_finite intensity = true → valid_binary prec emax intensity = true →
(0 <= SF2Q intensity)%Q → (SF2Q intensity < 1 # 2)%Q →
red_offset intensity = Ok 0
∧ green_offset intensity = Ok 0
∧ ∃ img',
    chromatic_aberration img intensity = Ok img'
    ∧ width img' = width img ∧ height img' = height img
    ∧ ∀ x y, in_bounds (width img) (height img) x y = true →
        pixel_at img' x y = pixel_at img x y.
Proof.
intros Hfin Hval Hpos Hhalf.
assert (Hr : red_offset intensity = Ok 0).
{ unfold red_offset. change f2 with (S754_finite false 4503599627370496 (1 - 52)).
  apply fmul_pow2_small_int; try assumption. lia. }
assert (Hg : green_offset intensity = Ok 0).
{ unfold green_offset. change f1_0 with (S754_finite false 4503599627370496 (0 - 52)).
  rewrite fmul_pow2_small_int; try assumption; [reflexivity|lia]. }
split; [exact Hr|]. split; [exact Hg|].
unfold chromatic_aberration, split. rewrite Hr. simpl. rewrite Hg. simpl.
unfold merge. simpl. rewrite !Z.eqb_refl. simpl.
eexists. split; [reflexivity|]. simpl. split; [reflexivity|]. split; [reflexivity|].
intros x y Hin. unfold in_bounds in Hin.
apply andb_prop in Hin as [Hin Hy2]. apply andb_prop in Hin as [Hin Hy1].
apply andb_prop in Hin as [Hx1 Hx2].
apply Z.leb_le in Hx1, Hy1. apply Z.ltb_lt in Hx2, Hy2.
rewrite !Z.sub_0_r, !Z.mod_small by lia.
destruct (pixel_at img x y) as [[r g] b]. reflexivity.
Qed.

End Claims.


(** C4, as the specification words it, fails at the first of two steps: the
    intensity is 0.75, the script posterizes to 7 bits, and
    max(1, 8 - 2 * 0.75) is 6.5. *)
Lemma C4_counterexample :
  ramp 1 2 = Ok (lit 3 4)
  ∧ poster_bits (lit 3 4) = Ok 7
  ∧ (spec_poster_depth (lit 3 4) == 13 # 2)%Q
  ∧ ¬ (inject_Z 7 == spec_poster_depth (lit 3 4))%Q.
Proof.
  split; [reflexivity|]. split; [reflexivity|].
  assert (Hd : (spec_poster_depth (lit 3 4) == 13 # 2)%Q) by (vm_compute; reflexivity).
  split; [exact Hd|]. rewrite Hd. intros Heq. vm_compute in Heq. discriminate.
Qed.

(** ** Worked examples *)

Lemma C7_median_size_odd_witness :
  is_finite (fadd f3 (fmul (lit 3 4) f2)) = true
  ∧ ∃ size, median_size (lit 3 4) = Ok size ∧ Z.odd size = true ∧ 3 ≤ size.
Proof.
  split; [reflexivity|]. apply (C7_median_size_odd (lit 3 4)). reflexivity.
Defined.

Lemma tile_rgb8 : rgb8 tile.
Proof.
  intros x y Hin. unfold in_bounds in Hin. simpl in *.
  apply andb_prop in Hin as [Hin Hy2]. apply andb_prop in Hin as [Hin Hy1].
  apply andb_prop in Hin as [Hx1 Hx2]. lia.
Qed.

Lemma C8_noise_bounded_witness :
  rgb8 tile ∧ nonneg (lit 3 4) = true ∧ is_finite (fmul (lit 3 4) f30) = true
  ∧ ∃ img' w' k,
      @add_pixel_noise plain_imaging swing_random tile (lit 3 4) attic = (Ok img', w')
      ∧ width img' = width tile ∧ height img' = height tile
      ∧ noise_bound (lit 3 4) = Ok k
      ∧ (inject_Z k <= SF2Q (fmul (lit 3 4) f30))%Q
      ∧ ∀ x y, in_bounds (width tile) (height tile) x y = true →
          let '(r, g, b) := pixel_at tile x y in
          let '(r', g', b') := pixel_at img' x y in
          (0 ≤ r' ≤ 255 ∧ Z.abs (r' - r) ≤ k)
          ∧ (0 ≤ g' ≤ 255 ∧ Z.abs (g' - g) ≤ k)
          ∧ (0 ≤ b' ≤ 255 ∧ Z.abs (b' - b) ≤ k).
Proof.
  split; [exact tile_rgb8|]. split; [reflexivity|]. split; [reflexivity|].
  apply (@C8_noise_bounded plain_imaging swing_random tile (lit 3 4) attic);
    [exact tile_rgb8|reflexivity|reflexivity].
Defined.

Lemma C9_one_draw_per_pixel_witness :
  nonneg (lit 3 4) = true ∧ is_finite (fmul (lit 3 4) f30) = true
  ∧ ∃ img' k,
      @add_pixel_noise plain_imaging swing_random tile (lit 3 4) attic
        = (Ok img', with_draws attic
                      (draws attic + Z.to_nat (width tile) * Z.to_nat (height tile)))
      ∧ noise_bound (lit 3 4) = Ok k
      ∧ ∀ x y, in_bounds (width tile) (height tile) x y = true →
          let noise := @randint_at swing_random
                         (draws attic + Z.to_nat (x * height tile + y)) (- k) k in
          let '(r, g, b) := pixel_at tile x y in
          - k ≤ noise ≤ k
          ∧ pixel_at img' x y
            = (clamp255 (r + noise), clamp255 (g + noise), clamp255 (b + noise)).
Proof.
  split; [reflexivity|]. split; [reflexivity|].
  apply (@C9_one_draw_per_pixel plain_imaging swing_random tile (lit 3 4) attic);
    reflexivity.
Defined.





Lemma C2_intensity_ramp_witness :
  1 ≤ 1 ∧ 1 ≤ 2 ∧ 2 ≤ 3
  ∧ @progressive_glitch plain_imaging swing_random tile 1 3 attic
    = @effect_pipeline plain_imaging swing_random tile (fmul (quotient 1 3) f1_5) attic
  ∧ ramp 1 3 = Ok (fmul (quotient 1 3) f1_5)
  ∧ ramp 2 3 = Ok (fmul (quotient 2 3) f1_5)
  ∧ (SF2Q (fmul (quotient 1 3) f1_5) <= SF2Q (fmul (quotient 2 3) f1_5))%Q
  ∧ ramp 3 3 = Ok f1_5
  ∧ (SF2Q f1_5 == 3 # 2)%Q.
Proof.
  split; [lia|]. split; [lia|]. split; [lia|].
  apply (@C2_intensity_ramp plain_imaging swing_random 3 1 2 tile attic); lia.
Defined.

Lemma C4_poster_bits_truncated_witness :
  nonneg (lit 3 4) = true ∧ is_finite (fmul (lit 3 4) f2) = true
  ∧ ∃ bits,
      poster_bits (lit 3 4) = Ok bits
      ∧ bits = Z.max 1 (8 - Qfloor (SF2Q (fmul (lit 3 4) f2)))
      ∧ 1 ≤ bits ≤ 8
      ∧ (valid_binary prec emax (lit 3 4) = true →
         bits = Z.max 1 (8 - Qfloor (2 * SF2Q (lit 3 4)))).
Proof.
  split; [reflexivity|]. split; [reflexivity|].
  apply (C4_poster_bits_truncated (lit 3 4)); reflexivity.
Defined.

Lemma C10_aberration_identity_witness :
  is_finite (lit 1 4) = true ∧ valid_binary prec emax (lit 1 4) = true
  ∧ (0 <= SF2Q (lit 1 4))%Q ∧ (SF2Q (lit 1 4) < 1 # 2)%Q
  ∧ red_offset (lit 1 4) = Ok 0
  ∧ green_offset (lit 1 4) = Ok 0
  ∧ ∃ img',
      chromatic_aberration tile (lit 1 4) = Ok img'
      ∧ width img' = width tile ∧ height img' = height tile
      ∧ ∀ x y, in_bounds (width tile) (height tile) x y = true →
          pixel_at img' x y = pixel_at tile x y.
Proof.
  split; [reflexivity|]. split; [reflexivity|].
  split; [vm_compute; discriminate|]. split; [reflexivity|].
  apply (C10_aberration_identity tile (lit 1 4));
    [reflexivity|reflexivity|vm_compute; discriminate|reflexivity].
Defined.


(** * Further properties of the script *)

(** ** Facts on a whole run *)

Section RunFacts.
Context `{Imaging} `{Random} `{Storage}.

Lemma jack_step_full N dir cur vs i w :
  1 ≤ i ≤ N →
  ∃ cur' d,
    progressive_glitch cur i N w = (Ok cur', with_draws w d)
    ∧ jack_step N dir (cur, vs) i w
      = (Ok (cur', vs ++ [jack_path dir i]),
         {| fs := (jack_path dir i, FImage cur') :: fs w; dirs := dirs w;
            console := console w ++ [jack_line N dir i]; draws := d |}).
Proof.
  intros Hi. unfold jack_step.
  destruct (progressive_glitch_ok cur i N w Hi) as (cur' & d & Hrun).
  exists cur', d. split; [exact Hrun|].
  rewrite (bind_ok _ _ _ _ _ Hrun). reflexivity.
Qed.

Lemma last_cons_default {A : Type} (l : list A) : ∀ x d,
  List.last (x :: l) d = List.last l x.
Proof.
  induction l as [|y l IH]; intros x d; [reflexivity|].
  change (List.last (x :: y :: l) d) with (List.last (y :: l) d).
  rewrite (IH y d), (IH y x). reflexivity.
Qed.

Lemma generate_loop_full N dir (n : nat) : ∀ j cur vs w,
  1 ≤ j → (n ≠ 0%nat → j + Z.of_nat n - 1 ≤ N) →
  ∃ imgs w',
    for_M (jack_step N dir) (seqZ j (Z.of_nat n)) (cur, vs) w
      = (Ok (List.last imgs cur, vs ++ (jack_path dir <$> seqZ j (Z.of_nat n))), w')
    ∧ List.length imgs = n
    ∧ glitch_chain N cur j imgs
    ∧ (∀ (k : nat) img, imgs !! k = Some img →
         read_file (fs w') (jack_path dir (j + Z.of_nat k)) = Some (FImage img))
    ∧ (∀ p, (∀ i, j ≤ i < j + Z.of_nat n → p ≠ jack_path dir i) →
         read_file (fs w') p = read_file (fs w) p)
    ∧ console w' = console w ++ (jack_line N dir <$> seqZ j (Z.of_nat n))
    ∧ dirs w' = dirs w.
Proof.
  induction n as [|n IH]; intros j cur vs w Hj Hn.
  - exists [], w. simpl. rewrite !app_nil_r. repeat split. intros k img Hk. discriminate.
  - rewrite seqZ_cons by lia. simpl for_M.
    assert (Hn' : j + Z.of_nat (S n) - 1 ≤ N) by (apply Hn; discriminate).
    destruct (jack_step_full N dir cur vs j w ltac:(lia)) as (cur1 & d & Hglitch & Hrun1).
    rewrite (bind_ok _ _ _ _ _ Hrun1).
    replace (Z.pred (Z.of_nat (S n))) with (Z.of_nat n) by lia.
    set (w1 := {| fs := (jack_path dir j, FImage cur1) :: fs w; dirs := dirs w;
                  console := console w ++ [jack_line N dir j]; draws := d |}) in *.
    destruct (IH (Z.succ j) cur1 (vs ++ [jack_path dir j]) w1 ltac:(lia) ltac:(intros _; lia))
      as (imgs & w' & Hrun & Hlen & Hchain & Hread & Hframe & Hcons & Hdirs).
    exists (cur1 :: imgs), w'.
    split.
    { rewrite Hrun, <- app_assoc, last_cons_default. reflexivity. }
    split; [simpl; congruence|].
    split; [split; [exists w, d; exact Hglitch|exact Hchain]|].
    split.
    { intros k img Hk. destruct k as [|k]; simpl in Hk.
      - injection Hk as ->. rewrite Z.add_0_r.
        rewrite Hframe.
        + simpl. rewrite String.eqb_refl. reflexivity.
        + intros i Hi Heq. apply jack_path_inj in Heq. lia.
      - replace (j + Z.of_nat (S k)) with (Z.succ j + Z.of_nat k) by lia.
        apply Hread. exact Hk. }
    split.
    { intros p Hp. rewrite Hframe.
      - simpl. destruct (String.eqb_spec (jack_path dir j) p) as [Heq|_]; [|reflexivity].
        exfalso. apply (Hp j); [lia|]. symmetry. exact Heq.
      - intros i Hi. apply Hp. lia. }
    split; [rewrite Hcons; simpl; rewrite <- app_assoc; reflexivity|].
    rewrite Hdirs. reflexivity.
Qed.

Lemma generate_full input N dir w base :
  open_RGB input w = (Ok base, w) →
  dir ≠ "" → read_file (fs w) dir = None → makedirs_refusal dir = None →
  ∃ imgs w',
    generate_jack_variants input N dir w
      = (Ok (jack_path dir 0 :: (jack_path dir <$> seqZ 1 N)), w')
    ∧ List.length imgs = Z.to_nat N
    ∧ glitch_chain N base 1 imgs
    ∧ (∀ (k : nat) img, (base :: imgs) !! k = Some img →
         read_file (fs w') (jack_path dir (Z.of_nat k)) = Some (FImage img))
    ∧ (∀ p, (∀ i, 0 ≤ i ≤ N → p ≠ jack_path dir i) → p ≠ jack_path dir 0 →
         read_file (fs w') p = read_file (fs w) p)
    ∧ console w'
      = console w
        ++ ("Jack'd: " +:+ jack_path dir 0 +:+ " (step 0 - pristine cyber sip)")
           :: (jack_line N dir <$> seqZ 1 N)
    ∧ dirs w' = dir :: dirs w.
Proof.
  intros Hopen Hdir Hfree Hfit. unfold generate_jack_variants.
  rewrite (bind_ok _ _ _ _ _ Hopen).
  rewrite (bind_ok _ _ _ _ _ (makedirs_ok dir w Hdir Hfree Hfit)).
  change (Path.join dir "jack_0.png") with (jack_path dir 0).
  unfold save, write_file, print, mbind, M_bind, mret, M_ret.
  cbn [fs dirs console draws].
  set (w1 := {| fs := (jack_path dir 0, FImage base) :: fs w; dirs := dir :: dirs w;
                console := console w ++ ["Jack'd: " +:+ jack_path dir 0
                                         +:+ " (step 0 - pristine cyber sip)"];
                draws := draws w |}).
  destruct (generate_loop_full N dir (Z.to_nat N) 1 base ([] ++ [jack_path dir 0]) w1
              ltac:(lia) ltac:(lia))
    as (imgs & w' & Hrun & Hlen & Hchain & Hread & Hframe & Hcons & Hdirs).
  assert (HN : seqZ 1 (Z.of_nat (Z.to_nat N)) = seqZ 1 N).
  { destruct (Z_le_gt_dec N 0).
    - rewrite !seqZ_nil by lia. reflexivity.
    - rewrite Z2Nat.id by lia. reflexivity. }
  rewrite HN in Hrun, Hcons.
  exists imgs, w'. rewrite Hrun.
  split; [reflexivity|]. split; [exact Hlen|]. split; [exact Hchain|].
  split.
  { intros k img Hk. destruct k as [|k]; simpl in Hk.
    - injection Hk as ->. rewrite Hframe.
      + simpl. rewrite String.eqb_refl. reflexivity.
      + intros i Hi Heq. apply jack_path_inj in Heq. lia.
    - replace (Z.of_nat (S k)) with (1 + Z.of_nat k) by lia. apply Hread. exact Hk. }
  split.
  { intros p Hp Hp0. rewrite Hframe.
    - simpl. destruct (String.eqb_spec (jack_path dir 0) p) as [Heq|_]; [|reflexivity].
      exfalso. apply Hp0. symmetry. exact Heq.
    - intros i Hi. apply Hp. lia. }
  split; [rewrite Hcons; simpl; rewrite <- app_assoc; reflexivity|].
  rewrite Hdirs. reflexivity.
Qed.

Lemma jack_thread_captions_full first rest wm w :
  let text := header +:+ join_all (paragraph (len rest) wm <$> enumerate 1 rest)
              +:+ footer in
  let caption_file := Path.join (Path.dirname first) caption_name in
  jack_thread_captions (first :: rest) wm w
  = (Ok text,
     {| fs := (caption_file, FText text) :: fs w; dirs := dirs w;
        console := console w ++ ["Cyber jack thread ready: " +:+ caption_file];
        draws := draws w |}).
Proof.
  intros text caption_file. unfold jack_thread_captions. simpl tail.
  rewrite (bind_lift_ok _ _ _ _ (caption_loop (first :: rest) wm rest 1 header ltac:(lia))).
  replace (len (first :: rest) - 1) with (len rest) by (unfold len; simpl List.length; lia).
  rewrite append_assoc. reflexivity.
Qed.

(** The text of the thread of a run of [N] steps into [dir]. *)
Lemma main_full args w base :
  let dir := output_dir args in
  let N := num_images args in
  let steps := jack_path dir <$> seqZ 1 N in
  let text := header
              +:+ join_all (paragraph (len steps) (watermark_text args) <$> enumerate 1 steps)
              +:+ footer in
  open_RGB (input args) w = (Ok base, w) →
  dir ≠ "" → read_file (fs w) dir = None → makedirs_refusal dir = None →
  ∃ imgs w',
    main args w = (Ok tt, w')
    ∧ List.length imgs = Z.to_nat N
    ∧ glitch_chain N base 1 imgs
    ∧ (∀ (k : nat) img, (base :: imgs) !! k = Some img →
         read_file (fs w') (jack_path dir (Z.of_nat k)) = Some (FImage img))
    ∧ read_file (fs w') (caption_path dir) = Some (FText text)
    ∧ (∀ p, (∀ i, 0 ≤ i ≤ N → p ≠ jack_path dir i) → p ≠ jack_path dir 0 →
         p ≠ caption_path dir → read_file (fs w') p = read_file (fs w) p)
    ∧ console w'
      = console w
        ++ ("Jack'd: " +:+ jack_path dir 0 +:+ " (step 0 - pristine cyber sip)")
           :: (jack_line N dir <$> seqZ 1 N)
        ++ [ "Cyber jack thread ready: " +:+ caption_path dir;
             nl +:+ "--- CYBER JACK THREAD ---" +:+ nl +:+ " " +:+ text ]
    ∧ dirs w' = dir :: dirs w.
Proof.
  intros dir N steps text Hopen Hdir Hfree Hfit. unfold main.
  destruct (generate_full (input args) N dir w base Hopen Hdir Hfree Hfit)
    as (imgs & w1 & Hgen & Hlen & Hchain & Hread & Hframe & Hcons & Hdirs).
  rewrite (bind_ok _ _ _ _ _ Hgen).
  rewrite (bind_ok _ _ _ _ _ (jack_thread_captions_full (jack_path dir 0) steps
                                (watermark_text args) w1)).
  fold (caption_path dir). fold text.
  eexists imgs, _. split; [reflexivity|]. cbn [fs dirs console draws].
  split; [exact Hlen|]. split; [exact Hchain|].
  split.
  { intros k img Hk. simpl.
    destruct (String.eqb_spec (caption_path dir) (jack_path dir (Z.of_nat k))) as [Heq|_];
      [destruct (caption_path_fresh _ _ Heq)|].
    apply Hread. exact Hk. }
  split; [simpl; rewrite String.eqb_refl; reflexivity|].
  split.
  { intros p Hp Hp0 Hpc. simpl.
    destruct (String.eqb_spec (caption_path dir) p) as [Heq|_];
      [destruct Hpc; symmetry; exact Heq|].
    apply Hframe; assumption. }
  split; [|exact Hdirs].
  rewrite Hcons. rewrite <- !app_assoc. reflexivity.
Qed.




(** X4. A step count below 0 is no error: the loop of the generator does
    not run and the whole run is the one of the step count 0. *)
Theorem X4_main_negative_count args w :
  num_images args ≤ 0 → main args w = main (with_num_images args 0) w.
Proof.
  intros HN. unfold main, generate_jack_variants, with_num_images.
  cbn [input num_images output_dir watermark_text].
  rewrite (seqZ_nil 1 (num_images args)) by lia.
  rewrite (seqZ_nil 1 0) by lia. reflexivity.
Qed.

(** X5. When the source cannot be loaded (the file is missing, or it is no
    picture) the run raises the error of the load and leaves the world as
    it was: no directory is created, no file written, nothing printed. *)
Theorem X5_main_load_failure args w e :
  load_error (read_file (fs w) (input args)) = Some e →
  main args w = (Raise e, w).
Proof.
  intros Herr. unfold main, generate_jack_variants, mbind, M_bind, open_RGB.
  destruct (read_file (fs w) (input args)) as [[p|img|s]|]; simpl in Herr;
    try discriminate; injection Herr as <-; reflexivity.
Qed.

(** X6. With an empty output directory name the run fails with
    FileNotFoundError after the source has been loaded and before anything
    is written or printed. *)
Theorem X6_main_empty_output_dir args w base :
  open_RGB (input args) w = (Ok base, w) → output_dir args = "" →
  main args w = (Raise FileNotFoundError, w).
Proof.
  intros Hopen Hdir. unfold main, generate_jack_variants.
  unfold mbind at 1. unfold M_bind. unfold mbind at 1. unfold M_bind.
  rewrite Hopen, Hdir. reflexivity.
Qed.

(** X25. When a file is recorded under the very name of the output
    directory, the run fails with FileExistsError after the source has been
    loaded: the directory cannot be made, and nothing is written or
    printed. *)
Theorem X25_main_output_dir_is_file args w base f :
  open_RGB (input args) w = (Ok base, w) →
  output_dir args ≠ "" →
  read_file (fs w) (output_dir args) = Some f →
  main args w = (Raise FileExistsError, w).
Proof.
  intros Hopen Hdir Hfile. unfold main, generate_jack_variants.
  unfold mbind at 1. unfold M_bind. unfold mbind at 1. unfold M_bind.
  rewrite Hopen. unfold mbind at 1. unfold M_bind, makedirs. rewrite Hfile.
  destruct (String.eqb_spec (output_dir args) ""); [contradiction|reflexivity].
Qed.

End RunFacts.




Lemma X4_main_negative_count_witness :
  num_images (with_num_images two_steps (-3)) ≤ 0
  ∧ @main plain_imaging swing_random open_disk (with_num_images two_steps (-3)) attic
    = @main plain_imaging swing_random open_disk
        (with_num_images (with_num_images two_steps (-3)) 0) attic.
Proof.
  split; [simpl; lia|].
  apply (@X4_main_negative_count plain_imaging swing_random open_disk
           (with_num_images two_steps (-3)) attic).
  simpl; lia.
Defined.

Lemma X5_main_load_failure_witness :
  load_error (read_file (fs attic) (input (lost_source))) = Some FileNotFoundError
  ∧ @main plain_imaging swing_random open_disk lost_source attic
    = (Raise FileNotFoundError, attic).
Proof.
  split; [reflexivity|].
  apply (@X5_main_load_failure plain_imaging swing_random open_disk lost_source attic
           FileNotFoundError).
  reflexivity.
Defined.

Lemma X6_main_empty_output_dir_witness :
  @open_RGB plain_imaging (input nowhere) attic = (Ok tile, attic)
  ∧ output_dir nowhere = ""
  ∧ @main plain_imaging swing_random open_disk nowhere attic
    = (Raise FileNotFoundError, attic).
Proof.
  split; [reflexivity|]. split; [reflexivity|].
  apply (@X6_main_empty_output_dir plain_imaging swing_random open_disk nowhere attic tile);
    reflexivity.
Defined.

Lemma X25_main_output_dir_is_file_witness :
  @open_RGB plain_imaging (input onto_source) attic = (Ok tile, attic)
  ∧ output_dir onto_source ≠ ""
  ∧ read_file (fs attic) (output_dir onto_source) = Some (@FPicture plain_imaging tile)
  ∧ @main plain_imaging swing_random open_disk onto_source attic
    = (Raise FileExistsError, attic).
Proof.
  split; [reflexivity|]. split; [discriminate|]. split; [reflexivity|].
  apply (@X25_main_output_dir_is_file plain_imaging swing_random open_disk onto_source attic
           tile (@FPicture plain_imaging tile));
    [reflexivity|discriminate|reflexivity].
Defined.

(** ** Facts on the single effects *)

Section EffectFacts.
Context `{Imaging} `{Random}.

Lemma only_draws_lift {A : Type} (r : result A) : only_draws (lift r).
Proof. intros w. exists r, (draws w). rewrite with_draws_same. split; [reflexivity|lia]. Qed.

Lemma only_draws_ret {A : Type} (a : A) : only_draws (mret a).
Proof. exact (only_draws_lift (Ok a)). Qed.

Lemma only_draws_bind {A B : Type} (m : M A) (k : A → M B) :
  only_draws m → (∀ a, only_draws (k a)) → only_draws (a ← m; k a).
Proof.
  intros Hm Hk w. destruct (Hm w) as (r & d & Hrun & Hd).
  unfold mbind, M_bind. rewrite Hrun. destruct r as [a|e].
  - destruct (Hk a (with_draws w d)) as (r' & d' & Hrun' & Hd').
    exists r', d'. rewrite Hrun'. split; [reflexivity|]. simpl in Hd'. lia.
  - exists (Raise e), d. split; [reflexivity|exact Hd].
Qed.

Lemma only_draws_for_M {A S : Type} (body : S → A → M S) (xs : list A) :
  (∀ s x, only_draws (body s x)) → ∀ s, only_draws (for_M body xs s).
Proof.
  intros Hbody. induction xs as [|x xs IH]; intros s; simpl.
  - apply only_draws_ret.
  - apply only_draws_bind; [apply Hbody|exact IH].
Qed.

Lemma only_draws_randint a b : only_draws (randint a b).
Proof.
  intros w. unfold randint. destruct (b <? a).
  - exists (Raise ValueError), (draws w). rewrite with_draws_same. split; [reflexivity|lia].
  - eexists _, (S (draws w)). split; [reflexivity|lia].
Qed.

Lemma only_draws_noise_pixel intensity x pixels y :
  only_draws (noise_pixel intensity x pixels y).
Proof.
  unfold noise_pixel.
  apply only_draws_bind; [apply only_draws_lift|]. intros [[r g] b].
  apply only_draws_bind; [apply only_draws_lift|]. intros lo.
  apply only_draws_bind; [apply only_draws_lift|]. intros hi.
  apply only_draws_bind; [apply only_draws_randint|]. intros noise.
  apply only_draws_lift.
Qed.

Lemma only_draws_add_pixel_noise img intensity : only_draws (add_pixel_noise img intensity).
Proof.
  unfold add_pixel_noise. apply only_draws_for_M. intros pixels x.
  apply only_draws_for_M. intros pixels' y. apply only_draws_noise_pixel.
Qed.

Lemma only_draws_effect_pipeline img intensity : only_draws (effect_pipeline img intensity).
Proof.
  unfold effect_pipeline.
  apply only_draws_bind; [apply only_draws_lift|]. intros bits.
  apply only_draws_bind; [apply only_draws_lift|]. intros posterized.
  apply only_draws_bind; [apply only_draws_add_pixel_noise|]. intros noised.
  apply only_draws_bind; [apply only_draws_lift|]. intros aberrated.
  apply only_draws_bind; [apply only_draws_lift|]. intros etched.
  apply only_draws_bind; [apply only_draws_lift|]. intros oiled.
  apply only_draws_ret.
Qed.

(** X7. Whatever its arguments, and whether it returns or raises, a step of
    the pipeline leaves the files, the directories and the console as they
    are: all it does to the world is to consume random draws. *)
Theorem X7_progressive_glitch_only_draws img step max_steps (w : World) :
  ∃ r d, progressive_glitch img step max_steps w = (r, with_draws w d)
    ∧ (draws w ≤ d)%nat.
Proof.
  revert w. change (only_draws (progressive_glitch img step max_steps)).
  unfold progressive_glitch.
  apply only_draws_bind; [apply only_draws_lift|]. intros intensity.
  apply only_draws_effect_pipeline.
Qed.

Lemma never_divides_lift {A : Type} (r : result A) :
  r ≠ Raise ZeroDivisionError → never_divides (lift r).
Proof. intros Hr w w' Heq. apply Hr. unfold lift in Heq. congruence. Qed.

Lemma never_divides_ret {A : Type} (a : A) : never_divides (mret a).
Proof. intros w w' Heq. discriminate. Qed.

Lemma never_divides_bind {A B : Type} (m : M A) (k : A → M B) :
  never_divides m → (∀ a, never_divides (k a)) → never_divides (a ← m; k a).
Proof.
  intros Hm Hk w w'. unfold mbind, M_bind.
  destruct (m w) as [[a|e] w1] eqn:E.
  - apply Hk.
  - intros Heq. apply (Hm w w1). rewrite E. congruence.
Qed.

Lemma never_divides_for_M {A S : Type} (body : S → A → M S) (xs : list A) :
  (∀ s x, never_divides (body s x)) → ∀ s, never_divides (for_M body xs s).
Proof.
  intros Hbody. induction xs as [|x xs IH]; intros s; simpl.
  - apply never_divides_ret.
  - apply never_divides_bind; [apply Hbody|exact IH].
Qed.

Lemma never_divides_randint a b : never_divides (randint a b).
Proof. intros w w'. unfold randint. destruct (b <? a); discriminate. Qed.

Lemma py_int_no_division f : py_int f ≠ Raise ZeroDivisionError.
Proof. destruct f; discriminate. Qed.

Lemma map_result_no_division {A B : Type} (f : A → result B) (l : list A) :
  (∀ x, f x ≠ Raise ZeroDivisionError) → map_result f l ≠ Raise ZeroDivisionError.
Proof.
  intros Hf. induction l as [|x l IH]; simpl; [discriminate|].
  pose proof (Hf x) as Hx. destruct (f x) as [y|e]; simpl; [|congruence].
  destruct (map_result f l) as [ys|e]; simpl; [discriminate|congruence].
Qed.

Lemma never_divides_add_pixel_noise img intensity :
  never_divides (add_pixel_noise img intensity).
Proof.
  unfold add_pixel_noise. apply never_divides_for_M. intros pixels x.
  apply never_divides_for_M. intros pixels' y. unfold noise_pixel.
  apply never_divides_bind.
  { apply never_divides_lift. unfold getpixel. destruct (in_bounds _ _ _ _); discriminate. }
  intros [[r g] b].
  apply never_divides_bind; [apply never_divides_lift, py_int_no_division|]. intros lo.
  apply never_divides_bind; [apply never_divides_lift, py_int_no_division|]. intros hi.
  apply never_divides_bind; [apply never_divides_randint|]. intros noise.
  apply never_divides_lift. unfold putpixel. destruct (in_bounds _ _ _ _); discriminate.
Qed.

Lemma never_divides_effect_pipeline img intensity :
  never_divides (effect_pipeline img intensity).
Proof.
  unfold effect_pipeline.
  apply never_divides_bind.
  { apply never_divides_lift. unfold poster_bits.
    pose proof (py_int_no_division (fmul intensity f2)) as Hp.
    destruct (py_int (fmul intensity f2)); simpl; [discriminate|congruence]. }
  intros bits. apply never_divides_bind.
  { apply never_divides_lift. unfold posterize. destruct (8 <? bits); discriminate. }
  intros posterized.
  apply never_divides_bind; [apply never_divides_add_pixel_noise|]. intros noised.
  apply never_divides_bind.
  { apply never_divides_lift. unfold chromatic_aberration, red_offset, green_offset, split.
    pose proof (py_int_no_division (fmul intensity f2)) as Hr.
    pose proof (py_int_no_division (fmul intensity f1_0)) as Hg.
    destruct (py_int (fmul intensity f2)) as [dr|e]; simpl; [|congruence].
    unfold offset. destruct (c_int dr && c_int 0); simpl; [|intros Heq; discriminate].
    destruct (py_int (fmul intensity f1_0)) as [dg|e]; simpl; [|congruence].
    destruct (c_int (- dg) && c_int 0); simpl; [|intros Heq; discriminate].
    unfold merge. simpl. rewrite !Z.eqb_refl. intros Heq. discriminate. }
  intros aberrated. apply never_divides_bind.
  { apply never_divides_lift. unfold circuit_etch, point.
    pose proof (map_result_no_division (etch_mask_value intensity) (seqZ 0 256)) as Hm.
    assert (Hf : ∀ p, etch_mask_value intensity p ≠ Raise ZeroDivisionError).
    { intros p. unfold etch_mask_value, float_of_int.
      destruct (binary_normalize prec emax p 0 false); simpl; try discriminate;
        match goal with |- context [py_int ?f] =>
          pose proof (py_int_no_division f) as Hp; destruct (py_int f); simpl;
            [discriminate|congruence] end. }
    specialize (Hm Hf).
    destruct (map_result (etch_mask_value intensity) (seqZ 0 256)); simpl; [discriminate|].
    intros Heq. apply Hm. injection Heq as ->. reflexivity. }
  intros etched. apply never_divides_bind.
  { apply never_divides_lift. unfold simulate_oil_paint, median_size.
    pose proof (py_int_no_division (fadd f3 (fmul intensity f2))) as Hp.
    destruct (py_int (fadd f3 (fmul intensity f2))); simpl; [|congruence].
    unfold median_filter. destruct (Z.even _); [discriminate|].
    destruct (rank_size_fits _); discriminate. }
  intros oiled. apply never_divides_ret.
Qed.

(** X8. A step of the pipeline raises ZeroDivisionError exactly when it is
    asked for with [max_steps = 0]; it does so before any filter runs and
    before any random draw, leaving the world as it was. *)
Theorem X8_progressive_glitch_zero_division img step max_steps (w : World) :
  (max_steps = 0 → progressive_glitch img step max_steps w = (Raise ZeroDivisionError, w))
  ∧ ∀ w', progressive_glitch img step max_steps w = (Raise ZeroDivisionError, w') →
      max_steps = 0.
Proof.
  split; [intros ->; reflexivity|].
  intros w' Hrun. unfold progressive_glitch, ramp, int_truediv in Hrun.
  destruct (Z.eqb_spec max_steps 0) as [E|E]; [exact E|exfalso].
  unfold mbind at 1 in Hrun. unfold M_bind, lift in Hrun.
  destruct (quotient step max_steps) as [s|s| |s m e]; simpl in Hrun;
    try discriminate;
    exact (never_divides_effect_pipeline img _ w w' Hrun).
Qed.

(** X9. Every step of a ramp succeeds, whatever the picture and whatever
    the random generator draws: for 1 <= step <= max_steps the pipeline
    returns a picture, and what it consumes is exactly one random draw for
    each pixel of the picture it posterizes. *)
Theorem X9_progressive_glitch_step_succeeds img step max_steps (w : World) :
  1 ≤ step → step ≤ max_steps →
  ∃ x img',
    ramp step max_steps = Ok x
    ∧ progressive_glitch img step max_steps w
      = (Ok img',
         with_draws w (draws w + Z.to_nat (width (color_surge img x))
                                 * Z.to_nat (height (color_surge img x)))).
Proof.
  intros H1 H2. unfold progressive_glitch.
  destruct (ramp_small step max_steps ltac:(lia)) as (x & Hx & Hs).
  exists x. rewrite (bind_lift_ok _ _ _ _ Hx). unfold effect_pipeline.
  destruct (poster_bits_ok x Hs) as (bits & Hbits & Hb).
  rewrite (bind_lift_ok _ _ _ _ Hbits). fold (color_surge img x).
  destruct (posterize_ok (color_surge img x) bits ltac:(lia))
    as (posterized & Hpost & Hpw & Hph).
  rewrite (bind_lift_ok _ _ _ _ Hpost).
  destruct (noise_bound_ok x Hs) as (k & Hk & Hk0).
  destruct (add_pixel_noise_spec posterized x k w Hk Hk0) as (noised & Hnoise & _).
  rewrite Hpw, Hph in Hnoise.
  rewrite (bind_ok _ _ _ _ _ Hnoise).
  match goal with |- context [chromatic_aberration ?g x] =>
    destruct (chromatic_aberration_ok g x Hs) as (aberrated & Hab) end.
  rewrite (bind_lift_ok _ _ _ _ Hab).
  destruct (circuit_etch_ok aberrated x Hs) as (etched & Het).
  rewrite (bind_lift_ok _ _ _ _ Het).
  destruct (simulate_oil_paint_ok etched x Hs) as (oiled & Hoil).
  rewrite (bind_lift_ok _ _ _ _ Hoil).
  eexists. split; [exact Hx|reflexivity].
Qed.

Lemma for_M_idle {A S : Type} (xs : list A) (s : S) (w : World) :
  for_M (λ s' _, mret s') xs s w = (Ok s, w).
Proof. induction xs as [|x xs IH]; [reflexivity|exact IH]. Qed.

(** X10. On a picture without pixels (width or height 0) the noise step
    returns the picture as it is and draws nothing, whatever the intensity:
    the noise bound is not even evaluated, so a NaN or infinite intensity
    raises nothing. *)
Theorem X10_add_pixel_noise_empty img intensity (w : World) :
  width img ≤ 0 ∨ height img ≤ 0 →
  add_pixel_noise img intensity w = (Ok img, w).
Proof.
  intros [Hw|Hh]; unfold add_pixel_noise.
  - rewrite (seqZ_nil 0 (width img)) by lia. reflexivity.
  - rewrite (seqZ_nil 0 (height img)) by lia. simpl for_M. apply for_M_idle.
Qed.

Lemma noise_first_pixel img intensity (w : World) :
  0 < width img → 0 < height img →
  add_pixel_noise img intensity w
  = match noise_pixel intensity 0 img 0 w with
    | (Ok img1, w1) =>
        (pixels ← for_M (noise_pixel intensity 0) (seqZ 1 (Z.pred (height img))) img1;
         for_M (λ pixels x, for_M (noise_pixel intensity x) (seqZ 0 (height img)) pixels)
           (seqZ 1 (Z.pred (width img))) pixels) w1
    | (Raise e, w1) => (Raise e, w1)
    end.
Proof.
  intros Hw Hh. unfold add_pixel_noise.
  rewrite (seqZ_cons 0 (width img)) by lia. simpl for_M.
  rewrite (seqZ_cons 0 (height img)) at 1 by lia. simpl for_M.
  unfold mbind, M_bind.
  destruct (noise_pixel intensity 0 img 0 w) as [[img1|e] w1]; reflexivity.
Qed.

(** X11. On a picture with at least one pixel, an intensity whose noise
    bound [int(intensity * 30)] is negative makes the noise step raise
    ValueError (the range of the draw is empty) at the first pixel; nothing
    is drawn and the world is as before. *)
Theorem X11_add_pixel_noise_negative_bound img intensity k (w : World) :
  0 < width img → 0 < height img →
  noise_bound intensity = Ok k → k < 0 →
  add_pixel_noise img intensity w = (Raise ValueError, w).
Proof.
  intros Hw Hh Hk Hneg. rewrite noise_first_pixel by assumption.
  unfold noise_pixel, getpixel, in_bounds.
  destruct (Z.ltb_spec 0 (width img)); [|lia].
  destruct (Z.ltb_spec 0 (height img)); [|lia].
  simpl. destruct (pixel_at img 0 0) as [[r g] b].
  unfold mbind, M_bind, lift. rewrite Hk. unfold randint.
  destruct (Z.ltb_spec k (- k)); [reflexivity|lia].
Qed.

(** X12. On a picture with at least one pixel, an intensity whose product
    by 30 is infinite or NaN makes the noise step raise the error of the
    conversion to an integer (OverflowError for an infinity, ValueError for
    a NaN); nothing is drawn and the world is as before. *)
Theorem X12_add_pixel_noise_not_finite img intensity (w : World) :
  0 < width img → 0 < height img →
  is_finite (fmul intensity f30) = false →
  ∃ e, add_pixel_noise img intensity w = (Raise e, w)
    ∧ noise_bound intensity = Raise e
    ∧ (e = OverflowError ∨ e = ValueError).
Proof.
  intros Hw Hh Hfin. rewrite noise_first_pixel by assumption.
  unfold noise_pixel, getpixel, in_bounds.
  destruct (Z.ltb_spec 0 (width img)); [|lia].
  destruct (Z.ltb_spec 0 (height img)); [|lia].
  simpl. destruct (pixel_at img 0 0) as [[r g] b].
  unfold mbind, M_bind, lift, noise_bound.
  destruct (fmul intensity f30) as [s|s| |s m e]; try discriminate; simpl.
  - exists OverflowError. split; [reflexivity|]. split; [reflexivity|]. left. reflexivity.
  - exists ValueError. split; [reflexivity|]. split; [reflexivity|]. right. reflexivity.
Qed.

Lemma py_int_finite f : is_finite f = true → ∃ z, py_int f = Ok z.
Proof.
  destruct f as [s|s| |s m e]; try discriminate; intros _; eexists; reflexivity.
Qed.

(** X13. The chromatic aberration on a picture with at least one pixel, at
    any intensity whose two products are finite floats. When the red offset
    [int(intensity * 2)] and the green offset [-int(intensity * 1)] fit a C
    integer, the picture keeps its size, the blue channel of every pixel
    stays where it is, the red channel comes from the pixel
    [int(intensity * 2)] columns to the left in the same row and the green
    channel from the pixel [int(intensity * 1)] columns to the right, the
    columns wrapping around the width. When one of them does not fit, the
    step raises OverflowError. *)
Theorem X13_chromatic_aberration_shift img intensity :
  0 < width img → 0 < height img →
  is_finite (fmul intensity f2) = true → is_finite (fmul intensity f1_0) = true →
  ∃ dr dg,
    py_int (fmul intensity f2) = Ok dr
    ∧ py_int (fmul intensity f1_0) = Ok dg
    ∧ if c_int dr && c_int (- dg)
      then ∃ img',
             chromatic_aberration img intensity = Ok img'
             ∧ width img' = width img ∧ height img' = height img
             ∧ ∀ x y, in_bounds (width img) (height img) x y = true →
                 pixel_at img' x y
                 = ((pixel_at img ((x - dr) mod width img) y).1.1,
                    (pixel_at img ((x + dg) mod width img) y).1.2,
                    (pixel_at img x y).2)
      else chromatic_aberration img intensity = Raise OverflowError.
Proof.
  intros Hw Hh Hr Hg.
  destruct (py_int_finite _ Hr) as (dr & Hdr).
  destruct (py_int_finite _ Hg) as (dg & Hdg).
  exists dr, dg. split; [exact Hdr|]. split; [exact Hdg|].
  unfold chromatic_aberration, red_offset, green_offset, split.
  rewrite Hdr, Hdg. simpl. unfold offset. change (c_int 0) with true.
  rewrite !andb_true_r.
  destruct (c_int dr); simpl; [|reflexivity].
  destruct (c_int (- dg)); simpl; [|reflexivity].
  unfold merge. simpl. rewrite !Z.eqb_refl. simpl.
  eexists. split; [reflexivity|]. simpl. split; [reflexivity|]. split; [reflexivity|].
  intros x y Hin. unfold in_bounds in Hin.
  apply andb_prop in Hin as [Hin Hy2]. apply andb_prop in Hin as [Hin Hy1].
  apply andb_prop in Hin as [Hx1 Hx2].
  apply Z.leb_le in Hx1, Hy1. apply Z.ltb_lt in Hx2, Hy2.
  rewrite !Z.sub_0_r, (Z.mod_small y) by lia.
  replace (x - - dg) with (x + dg) by lia. reflexivity.
Qed.

Lemma odd_size_least raw : least_odd_size raw (odd_size raw).
Proof.
  destruct (odd_size_spec raw) as [Hodd H3].
  split; [exact Hodd|]. split; [exact H3|].
  unfold odd_size in *.
  pose proof (Z.mod_pos_bound raw 2 ltac:(lia)) as Hr.
  destruct (Z.eqb_spec (raw mod 2) 1) as [E|E].
  - split; [lia|]. intros z' _ H3' Hraw. lia.
  - split; [lia|]. intros z' Hodd' H3' Hraw.
    assert (Hz : z' mod 2 = 1) by (rewrite Zmod_odd, Hodd'; reflexivity).
    assert (raw ≠ z') by (intros ->; lia). lia.
Qed.

Lemma oil_raw_size_range x :
  Small 4 x → ∃ raw, py_int (fadd f3 (fmul x f2)) = Ok raw ∧ 3 ≤ raw ∧ raw ≤ 35.
Proof.
  intros Hx.
  exact (fadd_f3_between (fmul x f2) 32
           (fmul_small 4 2 x f2 Hx Small_f2 ltac:(lia)) ltac:(lia) ltac:(lia)
           (double_at_most_32 x Hx)).
Qed.

(** X14. For a non-negative intensity below 16 the oil-paint step returns:
    the size handed to the median filter is the least odd integer that is
    at least 3 and at least [int(3 + intensity * 2)], it is at most 35, so
    it is neither even nor too large for the filter, and the result is the
    median-filtered picture sharpened by [1 + intensity * 0.5]. *)
Theorem X14_simulate_oil_paint_kernel img intensity :
  Small 4 intensity →
  ∃ raw size,
    py_int (fadd f3 (fmul intensity f2)) = Ok raw
    ∧ least_odd_size raw size
    ∧ size ≤ 35
    ∧ simulate_oil_paint img intensity
      = Ok (enhance_sharpness (rank_median size img) (fadd f1_0 (fmul intensity f0_5))).
Proof.
  intros Hx. destruct (oil_raw_size_range intensity Hx) as (raw & Hraw & H3 & H35).
  exists raw, (odd_size raw). split; [exact Hraw|].
  pose proof (odd_size_least raw) as Hleast. split; [exact Hleast|].
  destruct Hleast as (Hodd & Hge3 & _ & Hmin).
  assert (Hle : odd_size raw ≤ 35) by (apply Hmin; [reflexivity|lia|lia]).
  split; [exact Hle|].
  unfold simulate_oil_paint, median_size. rewrite Hraw. simpl.
  rewrite median_filter_ok by (assumption || lia). reflexivity.
Qed.

Lemma map_result_Forall {A B : Type} (f : A → result B) (P : B → Prop) (l : list A) :
  (∀ x y, f x = Ok y → P y) → ∀ ys, map_result f l = Ok ys → Forall P ys.
Proof.
  intros Hf. induction l as [|x l IH]; intros ys Hys; simpl in Hys.
  - injection Hys as <-. constructor.
  - destruct (f x) as [y|e] eqn:Ey; simpl in Hys; [|discriminate].
    destruct (map_result f l) as [ys'|e]; simpl in Hys; [|discriminate].
    injection Hys as <-. constructor; [exact (Hf x y Ey)|apply IH; reflexivity].
Qed.

Lemma etch_mask_value_byte intensity p v :
  etch_mask_value intensity p = Ok v → 0 ≤ v ≤ 255.
Proof.
  unfold etch_mask_value. destruct (float_of_int p) as [fp|e]; simpl; [|discriminate].
  destruct (py_int (fmul (fmul fp intensity) f0_5)) as [t|e]; simpl; [|discriminate].
  intros Hv. injection Hv as <-. lia.
Qed.

(** X15. For a non-negative intensity below 16 (every intensity of a ramp
    is one) the circuit etching raises nothing: the 256 entries of the
    table of the mask are all computed, the mask it pastes through holds
    only values of 0..255, and the result is the source composited with the
    green layer pasted through that mask. *)
Theorem X15_circuit_etch_mask img intensity :
  Small 4 intensity →
  ∃ mask,
    point (etch_mask_value intensity) (convert_L (find_edges img)) = Ok mask
    ∧ (∀ x y, 0 ≤ value_at mask x y ≤ 255)
    ∧ circuit_etch img intensity
      = Ok (rgba_to_RGB
              (alpha_composite (to_RGBA img)
                 (paste_mask (new_RGBA (width img, height img) (0, 0, 0, 0))
                    (new_L (width img, height img) 200) mask))).
Proof.
  intros Hx. unfold circuit_etch, point.
  destruct (map_result_ok (etch_mask_value intensity) (seqZ 0 256)) as (lut & Hlut).
  { intros p Hp. apply elem_of_seqZ in Hp. apply etch_mask_value_ok; [assumption|lia]. }
  rewrite Hlut. simpl. eexists. split; [reflexivity|]. split; [|reflexivity].
  intros x y. simpl.
  pose proof (map_result_Forall _ (λ v, 0 ≤ v ≤ 255) _
                (etch_mask_value_byte intensity) lut Hlut) as Hall.
  destruct (lut !! Z.to_nat (value_at (convert_L (find_edges img)) x y)) as [v|] eqn:E;
    simpl; [|lia].
  exact (proj1 (Forall_lookup _ _) Hall _ _ E).
Qed.

End EffectFacts.

Lemma X10_add_pixel_noise_empty_witness :
  (width blank ≤ 0 ∨ height blank ≤ 0)
  ∧ @add_pixel_noise plain_imaging swing_random blank S754_nan attic = (Ok blank, attic).
Proof.
  split; [left; simpl; lia|].
  apply (@X10_add_pixel_noise_empty plain_imaging swing_random blank S754_nan attic).
  left; simpl; lia.
Defined.

Lemma X11_add_pixel_noise_negative_bound_witness :
  0 < width tile ∧ 0 < height tile
  ∧ noise_bound (S754_finite true 1 0) = Ok (-30) ∧ -30 < 0
  ∧ @add_pixel_noise plain_imaging swing_random tile (S754_finite true 1 0) attic
    = (Raise ValueError, attic).
Proof.
  split; [simpl; lia|]. split; [simpl; lia|]. split; [reflexivity|]. split; [lia|].
  apply (@X11_add_pixel_noise_negative_bound plain_imaging swing_random tile
           (S754_finite true 1 0) (-30) attic);
    [simpl; lia|simpl; lia|reflexivity|lia].
Defined.

Lemma X12_add_pixel_noise_not_finite_witness :
  0 < width tile ∧ 0 < height tile
  ∧ is_finite (fmul (S754_infinity false) f30) = false
  ∧ ∃ e, @add_pixel_noise plain_imaging swing_random tile (S754_infinity false) attic
         = (Raise e, attic)
      ∧ noise_bound (S754_infinity false) = Raise e
      ∧ (e = OverflowError ∨ e = ValueError).
Proof.
  split; [simpl; lia|]. split; [simpl; lia|]. split; [reflexivity|].
  apply (@X12_add_pixel_noise_not_finite plain_imaging swing_random tile
           (S754_infinity false) attic);
    [simpl; lia|simpl; lia|reflexivity].
Defined.

Lemma X13_chromatic_aberration_shift_witness :
  0 < width tile ∧ 0 < height tile
  ∧ is_finite (fmul f1_5 f2) = true ∧ is_finite (fmul f1_5 f1_0) = true
  ∧ ∃ dr dg,
      py_int (fmul f1_5 f2) = Ok dr
      ∧ py_int (fmul f1_5 f1_0) = Ok dg
      ∧ if c_int dr && c_int (- dg)
        then ∃ img',
               chromatic_aberration tile f1_5 = Ok img'
               ∧ width img' = width tile ∧ height img' = height tile
               ∧ ∀ x y, in_bounds (width tile) (height tile) x y = true →
                   pixel_at img' x y
                   = ((pixel_at tile ((x - dr) mod width tile) y).1.1,
                      (pixel_at tile ((x + dg) mod width tile) y).1.2,
                      (pixel_at tile x y).2)
        else chromatic_aberration tile f1_5 = Raise OverflowError.
Proof.
  split; [simpl; lia|]. split; [simpl; lia|].
  split; [reflexivity|]. split; [reflexivity|].
  apply (X13_chromatic_aberration_shift tile f1_5); [simpl; lia|simpl; lia|reflexivity|reflexivity].
Defined.

Lemma X14_simulate_oil_paint_kernel_witness :
  Small 4 f1_5
  ∧ ∃ raw size,
      py_int (fadd f3 (fmul f1_5 f2)) = Ok raw
      ∧ least_odd_size raw size
      ∧ size ≤ 35
      ∧ @simulate_oil_paint plain_imaging tile f1_5
        = Ok (@enhance_sharpness plain_imaging (@rank_median plain_imaging size tile)
                (fadd f1_0 (fmul f1_5 f0_5))).
Proof.
  split; [vm_compute; split; [reflexivity|discriminate]|].
  apply (@X14_simulate_oil_paint_kernel plain_imaging tile f1_5).
  vm_compute. split; [reflexivity|discriminate].
Defined.

Lemma X15_circuit_etch_mask_witness :
  Small 4 f1_5
  ∧ ∃ mask,
      point (etch_mask_value f1_5) (@convert_L plain_imaging (@find_edges plain_imaging tile))
        = Ok mask
      ∧ (∀ x y, 0 ≤ value_at mask x y ≤ 255)
      ∧ @circuit_etch plain_imaging tile f1_5
        = Ok (@rgba_to_RGB plain_imaging
                (@alpha_composite plain_imaging (@to_RGBA plain_imaging tile)
                   (@paste_mask plain_imaging
                      (@new_RGBA plain_imaging (width tile, height tile) (0, 0, 0, 0))
                      (@new_L plain_imaging (width tile, height tile) 200) mask))).
Proof.
  split; [vm_compute; split; [reflexivity|discriminate]|].
  apply (@X15_circuit_etch_mask plain_imaging tile f1_5).
  vm_compute. split; [reflexivity|discriminate].
Defined.

Lemma X9_progressive_glitch_step_succeeds_witness :
  1 ≤ 2 ∧ 2 ≤ 3
  ∧ ∃ x img',
      ramp 2 3 = Ok x
      ∧ @progressive_glitch plain_imaging swing_random tile 2 3 attic
        = (Ok img',
           with_draws attic
             (draws attic + Z.to_nat (width (@color_surge plain_imaging tile x))
                            * Z.to_nat (height (@color_surge plain_imaging tile x)))).
Proof.
  split; [lia|]. split; [lia|].
  apply (@X9_progressive_glitch_step_succeeds plain_imaging swing_random tile 2 3 attic); lia.
Defined.

(** ** The parameters of the filters along a ramp *)

(** The intensities of two steps [i <= j] of a ramp over [N] steps. *)
Lemma ramp_pair (N i j : Z) :
  1 ≤ i → i ≤ j → j ≤ N →
  ∃ xi xj,
    ramp i N = Ok xi ∧ ramp j N = Ok xj ∧ ramp N N = Ok f1_5
    ∧ Small 4 xi ∧ Small 4 xj
    ∧ (SF2Q xi <= SF2Q xj)%Q ∧ (SF2Q xj <= SF2Q f1_5)%Q.
Proof.
  intros Hi Hij HjN.
  pose proof (ramp_formula i N ltac:(lia)) as Hri.
  pose proof (ramp_formula j N ltac:(lia)) as Hrj.
  pose proof (ramp_formula N N ltac:(lia)) as HrN.
  destruct (ramp_small i N ltac:(lia)) as (xi & Hxi & Hsi).
  destruct (ramp_small j N ltac:(lia)) as (xj & Hxj & Hsj).
  rewrite Hri in Hxi. injection Hxi as <-. rewrite Hrj in Hxj. injection Hxj as <-.
  destruct i as [|i|i]; try lia. destruct j as [|j|j]; try lia.
  destruct N as [|N|N]; try lia.
  assert (HN : fmul (quotient (Z.pos N) (Z.pos N)) f1_5 = f1_5)
    by (rewrite quotient_same; reflexivity).
  rewrite HN in HrN.
  eexists _, _. split; [exact Hri|]. split; [exact Hrj|]. split; [exact HrN|].
  split; [exact Hsi|]. split; [exact Hsj|].
  split.
  - apply fmul_f1_5_mono; [apply quotient_small; lia|apply quotient_small; lia|].
    apply quotient_mono; lia.
  - rewrite <- HN at 2.
    apply fmul_f1_5_mono; [apply quotient_small; lia|apply quotient_small; lia|].
    apply quotient_mono; lia.
Qed.

(** The integer parts of the products of two ordered small floats by a
    constant are ordered. *)
Lemma py_int_scaled_mono C ec x y :
  full_constant C → ec ≤ -48 → -60 ≤ ec →
  Small 4 x → Small 4 y → (SF2Q x <= SF2Q y)%Q →
  ∃ tx ty,
    py_int (fmul x (S754_finite false C ec)) = Ok tx
    ∧ py_int (fmul y (S754_finite false C ec)) = Ok ty
    ∧ 0 ≤ tx ∧ tx ≤ ty.
Proof.
  intros HC Hec1 Hec2 Hx Hy Hle.
  set (c := S754_finite false C ec).
  assert (Hc : Small (54 + ec) c).
  { unfold c. simpl. split; [reflexivity|].
    destruct HC as [_ HC]. pose proof (Zdigits2_le (Z.pos C) 53 ltac:(lia) ltac:(lia) HC).
    change (Z.pos (digits2_pos C)) with (Zdigits2 (Z.pos C)). lia. }
  pose proof (fmul_small 4 _ x c Hx Hc ltac:(lia)) as Hsx.
  pose proof (fmul_small 4 _ y c Hy Hc ltac:(lia)) as Hsy.
  destruct (Small_finite _ _ Hsx) as [Hfx Hnx].
  destruct (Small_finite _ _ Hsy) as [Hfy Hny].
  exists (Qfloor (SF2Q (fmul x c))), (Qfloor (SF2Q (fmul y c))).
  split; [apply py_int_Qfloor; assumption|].
  split; [apply py_int_Qfloor; assumption|].
  split.
  - destruct (py_int_floor _ Hfx Hnx) as (k & Hk & Hk0 & _).
    rewrite (py_int_Qfloor _ Hfx Hnx) in Hk. injection Hk as ->. exact Hk0.
  - apply Qfloor_resp_le. apply (fmul_const_mono C ec 4); try assumption; lia.
Qed.

Lemma Small_f1_5 : Small 4 f1_5.
Proof. vm_compute. split; [reflexivity|discriminate]. Qed.

(** Along a ramp, the integer part of the product of the intensity by a
    constant grows with the step and ends at its value for 1.5. *)
Lemma ramp_scaled C ec top (N i j : Z) :
  full_constant C → ec ≤ -48 → -60 ≤ ec →
  py_int (fmul f1_5 (S754_finite false C ec)) = Ok top →
  1 ≤ i → i ≤ j → j ≤ N →
  ∃ xi xj ti tj,
    ramp i N = Ok xi ∧ ramp j N = Ok xj ∧ ramp N N = Ok f1_5
    ∧ py_int (fmul xi (S754_finite false C ec)) = Ok ti
    ∧ py_int (fmul xj (S754_finite false C ec)) = Ok tj
    ∧ 0 ≤ ti ∧ ti ≤ tj ∧ tj ≤ top.
Proof.
  intros HC Hec1 Hec2 Htop Hi Hij HjN.
  destruct (ramp_pair N i j Hi Hij HjN) as (xi & xj & Hri & Hrj & HrN & Hsi & Hsj & Hle & Hle').
  destruct (py_int_scaled_mono C ec xi xj HC Hec1 Hec2 Hsi Hsj Hle)
    as (ti & tj & Hti & Htj & H0 & Hmono).
  destruct (py_int_scaled_mono C ec xj f1_5 HC Hec1 Hec2 Hsj Small_f1_5 Hle')
    as (tj' & top' & Htj' & Htop' & _ & Hmono').
  rewrite Htj in Htj'. injection Htj' as <-.
  rewrite Htop in Htop'. injection Htop' as <-.
  exists xi, xj, ti, tj. repeat (split; [assumption|]). exact Hmono'.
Qed.

(** X16. Along a ramp of N steps the posterization never gets finer: for
    steps i <= j the bit depths satisfy 5 <= bits(j) <= bits(i) <= 8, and
    the last step posterizes to 5 bits; the floor of 1 bit of the
    [max(1, ...)] is never reached. *)
Theorem X16_ramp_poster_bits (N i j : Z) :
  1 ≤ i → i ≤ j → j ≤ N →
  ∃ xi xj bi bj,
    ramp i N = Ok xi ∧ ramp j N = Ok xj
    ∧ poster_bits xi = Ok bi ∧ poster_bits xj = Ok bj
    ∧ 5 ≤ bj ∧ bj ≤ bi ∧ bi ≤ 8
    ∧ ∃ xN, ramp N N = Ok xN ∧ poster_bits xN = Ok 5.
Proof.
  intros Hi Hij HjN.
  destruct (ramp_scaled 4503599627370496 (-51) 3 N i j full_f2 ltac:(lia) ltac:(lia)
              ltac:(reflexivity) Hi Hij HjN)
    as (xi & xj & ti & tj & Hri & Hrj & HrN & Hti & Htj & H0 & Hmono & Htop).
  change (S754_finite false 4503599627370496 (-51)) with f2 in Hti, Htj.
  exists xi, xj, (Z.max 1 (8 - ti)), (Z.max 1 (8 - tj)).
  split; [exact Hri|]. split; [exact Hrj|].
  unfold poster_bits. rewrite Hti, Htj.
  split; [reflexivity|]. split; [reflexivity|].
  split; [lia|]. split; [lia|]. split; [lia|].
  exists f1_5. split; [exact HrN|reflexivity].
Qed.

(** X17. Along a ramp of N steps the noise never gets weaker: for steps
    i <= j the noise bounds [int(intensity * 30)] satisfy
    0 <= k(i) <= k(j) <= 45, and the last step draws its noise in -45..45. *)
Theorem X17_ramp_noise_bound (N i j : Z) :
  1 ≤ i → i ≤ j → j ≤ N →
  ∃ xi xj ki kj,
    ramp i N = Ok xi ∧ ramp j N = Ok xj
    ∧ noise_bound xi = Ok ki ∧ noise_bound xj = Ok kj
    ∧ 0 ≤ ki ∧ ki ≤ kj ∧ kj ≤ 45
    ∧ ∃ xN, ramp N N = Ok xN ∧ noise_bound xN = Ok 45.
Proof.
  intros Hi Hij HjN.
  destruct (ramp_scaled 8444249301319680 (-48) 45 N i j full_f30 ltac:(lia) ltac:(lia)
              ltac:(reflexivity) Hi Hij HjN)
    as (xi & xj & ki & kj & Hri & Hrj & HrN & Hki & Hkj & H0 & Hmono & Htop).
  change (S754_finite false 8444249301319680 (-48)) with f30 in Hki, Hkj.
  exists xi, xj, ki, kj.
  split; [exact Hri|]. split; [exact Hrj|].
  split; [exact Hki|]. split; [exact Hkj|].
  split; [exact H0|]. split; [exact Hmono|]. split; [exact Htop|].
  exists f1_5. split; [exact HrN|reflexivity].
Qed.

(** X18. Along a ramp of N steps the colour fringes never shrink: for steps
    i <= j the red offsets satisfy 0 <= dr(i) <= dr(j) <= 3 and the green
    offsets -1 <= dg(j) <= dg(i) <= 0; the last step shifts red by 3 and
    green by -1. *)
Theorem X18_ramp_aberration_offsets (N i j : Z) :
  1 ≤ i → i ≤ j → j ≤ N →
  ∃ xi xj ri rj gi gj,
    ramp i N = Ok xi ∧ ramp j N = Ok xj
    ∧ red_offset xi = Ok ri ∧ red_offset xj = Ok rj
    ∧ green_offset xi = Ok gi ∧ green_offset xj = Ok gj
    ∧ (0 ≤ ri ∧ ri ≤ rj ∧ rj ≤ 3)
    ∧ (-1 ≤ gj ∧ gj ≤ gi ∧ gi ≤ 0)
    ∧ ∃ xN, ramp N N = Ok xN ∧ red_offset xN = Ok 3 ∧ green_offset xN = Ok (-1).
Proof.
  intros Hi Hij HjN.
  destruct (ramp_scaled 4503599627370496 (-51) 3 N i j full_f2 ltac:(lia) ltac:(lia)
              ltac:(reflexivity) Hi Hij HjN)
    as (xi & xj & ri & rj & Hri & Hrj & HrN & Hti & Htj & H0 & Hmono & Htop).
  destruct (ramp_scaled 4503599627370496 (-52) 1 N i j full_f2 ltac:(lia) ltac:(lia)
              ltac:(reflexivity) Hi Hij HjN)
    as (xi' & xj' & gi & gj & Hri' & Hrj' & _ & Hgi & Hgj & G0 & Gmono & Gtop).
  rewrite Hri in Hri'. injection Hri' as <-. rewrite Hrj in Hrj'. injection Hrj' as <-.
  change (S754_finite false 4503599627370496 (-51)) with f2 in Hti, Htj.
  change (S754_finite false 4503599627370496 (-52)) with f1_0 in Hgi, Hgj.
  exists xi, xj, ri, rj, (- gi), (- gj).
  split; [exact Hri|]. split; [exact Hrj|].
  unfold red_offset, green_offset. rewrite Hgi, Hgj.
  split; [exact Hti|]. split; [exact Htj|].
  split; [reflexivity|]. split; [reflexivity|].
  split; [lia|]. split; [lia|].
  exists f1_5. split; [exact HrN|]. split; reflexivity.
Qed.

Lemma X16_ramp_poster_bits_witness :
  1 ≤ 1 ∧ 1 ≤ 2 ∧ 2 ≤ 3
  ∧ ∃ xi xj bi bj,
      ramp 1 3 = Ok xi ∧ ramp 2 3 = Ok xj
      ∧ poster_bits xi = Ok bi ∧ poster_bits xj = Ok bj
      ∧ 5 ≤ bj ∧ bj ≤ bi ∧ bi ≤ 8
      ∧ ∃ xN, ramp 3 3 = Ok xN ∧ poster_bits xN = Ok 5.
Proof.
  split; [lia|]. split; [lia|]. split; [lia|].
  apply (X16_ramp_poster_bits 3 1 2); lia.
Defined.

Lemma X17_ramp_noise_bound_witness :
  1 ≤ 1 ∧ 1 ≤ 2 ∧ 2 ≤ 3
  ∧ ∃ xi xj ki kj,
      ramp 1 3 = Ok xi ∧ ramp 2 3 = Ok xj
      ∧ noise_bound xi = Ok ki ∧ noise_bound xj = Ok kj
      ∧ 0 ≤ ki ∧ ki ≤ kj ∧ kj ≤ 45
      ∧ ∃ xN, ramp 3 3 = Ok xN ∧ noise_bound xN = Ok 45.
Proof.
  split; [lia|]. split; [lia|]. split; [lia|].
  apply (X17_ramp_noise_bound 3 1 2); lia.
Defined.

Lemma X18_ramp_aberration_offsets_witness :
  1 ≤ 1 ∧ 1 ≤ 2 ∧ 2 ≤ 3
  ∧ ∃ xi xj ri rj gi gj,
      ramp 1 3 = Ok xi ∧ ramp 2 3 = Ok xj
      ∧ red_offset xi = Ok ri ∧ red_offset xj = Ok rj
      ∧ green_offset xi = Ok gi ∧ green_offset xj = Ok gj
      ∧ (0 ≤ ri ∧ ri ≤ rj ∧ rj ≤ 3)
      ∧ (-1 ≤ gj ∧ gj ≤ gi ∧ gi ≤ 0)
      ∧ ∃ xN, ramp 3 3 = Ok xN ∧ red_offset xN = Ok 3 ∧ green_offset xN = Ok (-1).
Proof.
  split; [lia|]. split; [lia|]. split; [lia|].
  apply (X18_ramp_aberration_offsets 3 1 2); lia.
Defined.

(** [3 + y] for a float [0 <= y <= 3]: its integer part lies in 3..6. *)
Lemma raw_size_range y :
  Small 7 y → (SF2Q y <= SF2Q f3)%Q →
  ∃ raw, py_int (fadd f3 y) = Ok raw ∧ 3 ≤ raw ∧ raw ≤ 6.
Proof.
  intros Hy Hle. destruct y as [s| | |s my ey]; simpl in Hy; try contradiction.
  - exists 3. split; [reflexivity|lia].
  - destruct Hy as [-> Hy].
    change (Z.pos (digits2_pos my)) with (Zdigits2 (Z.pos my)) in Hy.
    change f3 with (S754_finite false 6755399441055744 (-51)) in *.
    pose proof (SF2Q_le_cross_at 7 my ey 6755399441055744 (-51)
                  ltac:(simpl Zdigits2 in Hy; lia) ltac:(lia)
                  ltac:(simpl Zdigits2 in Hy; lia) Hle) as Hc.
    assert (Hd : 1 ≤ Zdigits2 (Z.pos my)) by (simpl; lia).
    replace (7 - -51) with 58 in Hc by lia.
    unfold fadd, SFadd. simpl cond_Zopp.
    destruct (shl_align_spec 6755399441055744 (-51) (Z.min (-51) ey)) as [Hfx _].
    destruct (shl_align_spec my ey (Z.min (-51) ey)) as [Hfy _].
    set (ez := Z.min (-51) ey) in *.
    set (ax := fst (shl_align 6755399441055744 (-51) ez)) in *.
    set (ay := fst (shl_align my ey ez)) in *.
    change (Z.pos ax + Z.pos ay) with (Z.pos (ax + ay)). simpl binary_normalize.
    rewrite !Z.max_r in Hfx, Hfy by lia.
    assert (P1 : 0 < 2 ^ (-51 - ez)) by (apply Z.pow_pos_nonneg; lia).
    assert (P2 : 0 < 2 ^ (ey - ez)) by (apply Z.pow_pos_nonneg; lia).
    assert (P3 : 0 < 2 ^ (7 - ey)) by (apply Z.pow_pos_nonneg; lia).
    assert (Hz : 2 ^ (- ez) = 2 ^ 51 * 2 ^ (-51 - ez)).
    { rewrite <- Z.pow_add_r by lia. f_equal. lia. }
    assert (Hx3 : Z.pos ax = 3 * 2 ^ (- ez)).
    { rewrite Hfx, Hz. change (2 ^ 51) with 2251799813685248. lia. }
    assert (Hy3 : Z.pos ay ≤ 3 * 2 ^ (- ez)).
    { rewrite Hfy.
      assert (Hk : 2 ^ (7 - ey) * 2 ^ (ey - ez) = 128 * 2 ^ (- ez)).
      { rewrite <- Z.pow_add_r by lia. change 128 with (2 ^ 7).
        rewrite <- Z.pow_add_r by lia. f_equal. lia. }
      change (2 ^ 58) with 288230376151711744 in Hc.
      assert (Hc' : Z.pos my * 128 ≤ 3 * 2 ^ (7 - ey)) by lia.
      assert (Z.pos my * 128 * 2 ^ (ey - ez) ≤ 3 * 2 ^ (7 - ey) * 2 ^ (ey - ez))
        by (apply Z.mul_le_mono_nonneg_r; lia).
      lia. }
    destruct (binary_round_between (ax + ay) ez 3 6) as (r & t & Hval & Ht & Hlo & Hhi).
    + lia.
    + rewrite Pos2Z.inj_add.
      assert (Hlt : Z.pos ax + Z.pos ay < 2 ^ (3 - ez)).
      { replace (3 - ez) with (3 + - ez) by lia. rewrite Z.pow_add_r by lia.
        change (2 ^ 3) with 8. assert (0 < 2 ^ (- ez)) by (apply Z.pow_pos_nonneg; lia).
        lia. }
      pose proof (Zdigits2_le (Z.pos ax + Z.pos ay) (3 - ez) ltac:(lia) ltac:(lia) Hlt).
      lia.
    + rewrite Pos2Z.inj_add. lia.
    + rewrite Pos2Z.inj_add. lia.
    + exact (py_int_between _ r t 3 6 Hval Ht Hlo Hhi).
Qed.

(** X19. On every step of a ramp the median filter of the oil-paint layer
    gets a kernel of size 3, 5 or 7, and of size 7 at the last step. *)
Theorem X19_ramp_median_kernel (N i : Z) :
  1 ≤ i → i ≤ N →
  ∃ x size,
    ramp i N = Ok x ∧ median_size x = Ok size
    ∧ (size = 3 ∨ size = 5 ∨ size = 7)
    ∧ ∃ xN, ramp N N = Ok xN ∧ median_size xN = Ok 7.
Proof.
  intros Hi HiN.
  destruct (ramp_pair N i i Hi ltac:(lia) HiN) as (x & x' & Hr & Hr' & HrN & Hs & Hs' & Hxx & Hle).
  rewrite Hr in Hr'. injection Hr' as <-.
  assert (Hy : Small 7 (fmul x f2))
    by (exact (fmul_small 4 2 x f2 Hs Small_f2 ltac:(lia))).
  assert (Hy3 : (SF2Q (fmul x f2) <= SF2Q f3)%Q).
  { change f3 with (fmul f1_5 f2).
    change f2 with (S754_finite false 4503599627370496 (-51)).
    apply (fmul_const_mono _ _ 4); try assumption; try lia.
    - apply full_f2.
    - apply Small_f1_5. }
  exists x.
  destruct (raw_size_range _ Hy Hy3) as (raw & Hraw & H3 & H6).
  exists (odd_size raw). split; [exact Hr|].
  unfold median_size. rewrite Hraw. simpl.
  split; [reflexivity|]. split.
  - assert (Hc : raw = 3 ∨ raw = 4 ∨ raw = 5 ∨ raw = 6) by lia.
    destruct Hc as [->|[->|[->| ->]]]; vm_compute; auto.
  - exists f1_5. split; [exact HrN|reflexivity].
Qed.

Lemma X19_ramp_median_kernel_witness :
  1 ≤ 2 ∧ 2 ≤ 3
  ∧ ∃ x size,
      ramp 2 3 = Ok x ∧ median_size x = Ok size
      ∧ (size = 3 ∨ size = 5 ∨ size = 7)
      ∧ ∃ xN, ramp 3 3 = Ok xN ∧ median_size xN = Ok 7.
Proof.
  split; [lia|]. split; [lia|]. apply (X19_ramp_median_kernel 3 2); lia.
Defined.

(** ** Facts on the caption thread and the paths *)

Section CaptionFacts.
Context `{Imaging} `{Random} `{Storage}.

Lemma no_sep_append a b : no_sep (a +:+ b) = (no_sep a && no_sep b)%bool.
Proof.
  induction a as [|c a IH]; [reflexivity|].
  rewrite append_cons. simpl. rewrite IH, andb_assoc. reflexivity.
Qed.

Lemma no_sep_pretty_N_go (x : N) : ∀ s, no_sep s = true → no_sep (pretty_N_go x s) = true.
Proof.
  induction (N.lt_wf_0 x) as [x _ IH]. intros s Hs.
  destruct (N.eq_dec x 0%N) as [->|Hx]; [exact Hs|].
  rewrite pretty_N_go_step by lia. apply IH.
  - apply N.div_lt; lia.
  - simpl. rewrite Hs, andb_true_r.
    unfold pretty_N_char. repeat case_match; reflexivity.
Qed.

Lemma no_sep_pretty_N (x : N) : no_sep (pretty x) = true.
Proof.
  unfold pretty, pretty_N. destruct (decide (x = 0%N)); [reflexivity|].
  apply no_sep_pretty_N_go. reflexivity.
Qed.

Lemma no_sep_pretty_Z (z : Z) : no_sep (pretty z) = true.
Proof.
  destruct z as [|p|p]; [reflexivity|exact (no_sep_pretty_N (N.pos p))|].
  change (no_sep ("-" +:+ pretty (N.pos p)) = true).
  rewrite no_sep_append, (no_sep_pretty_N (N.pos p)). reflexivity.
Qed.

Lemma no_sep_jack_name i : no_sep (jack_name i) = true.
Proof.
  unfold jack_name. rewrite !no_sep_append, no_sep_pretty_Z. reflexivity.
Qed.

Lemma rsplit_no_sep b : no_sep b = true → Path.rsplit b = ("", b).
Proof.
  induction b as [|c b IH]; [reflexivity|]. simpl. intros Hb.
  apply andb_prop in Hb as [Hc Hb]. rewrite (IH Hb).
  destruct (Path.is_sep c); [discriminate|reflexivity].
Qed.

Lemma rsplit_after_sep a b :
  Path.endswith_sep a = true → no_sep b = true → Path.rsplit (a +:+ b) = (a, b).
Proof.
  intros Ha Hb. induction a as [|c a IH]; [discriminate|].
  rewrite append_cons. simpl Path.rsplit. destruct a as [|c' a].
  - change ("" +:+ b) with b. rewrite (rsplit_no_sep b Hb).
    simpl in Ha. rewrite Ha. reflexivity.
  - rewrite IH by exact Ha. reflexivity.
Qed.

Lemma endswith_sep_snoc a : Path.endswith_sep (a +:+ String Path.sep "") = true.
Proof.
  induction a as [|c a IH]; [reflexivity|].
  rewrite append_cons. simpl. destruct (a +:+ String Path.sep "") eqn:E; [|exact IH].
  destruct a; discriminate.
Qed.

Lemma no_sep_relative b : no_sep b = true → Path.startswith_sep b = false.
Proof.
  destruct b as [|c b]; [reflexivity|]. simpl. intros Hb.
  apply andb_prop in Hb as [Hc _]. destruct (Path.is_sep c); [discriminate|reflexivity].
Qed.

(** Splitting a joined path gives back the file name. *)
Lemma rsplit_join a b :
  no_sep b = true → Path.rsplit (Path.join a b) = (join_prefix a, b).
Proof.
  intros Hb. rewrite (join_relative a b (no_sep_relative b Hb)).
  unfold join_prefix. destruct (String.eqb_spec a "") as [->|Ha]; simpl.
  - change ("" +:+ b) with b. apply rsplit_no_sep. exact Hb.
  - destruct (Path.endswith_sep a) eqn:E.
    + apply rsplit_after_sep; assumption.
    + apply rsplit_after_sep; [apply endswith_sep_snoc|exact Hb].
Qed.

Lemma basename_jack_path dir i : Path.basename (jack_path dir i) = jack_name i.
Proof.
  unfold Path.basename, jack_path. rewrite rsplit_join by apply no_sep_jack_name.
  reflexivity.
Qed.

Lemma enumerate_fmap {A : Type} (f : Z → A) (n : nat) : ∀ start,
  enumerate start (f <$> seqZ start (Z.of_nat n))
  = (λ i, (i, f i)) <$> seqZ start (Z.of_nat n).
Proof.
  induction n as [|n IH]; intros start; [reflexivity|].
  rewrite seqZ_cons by lia. replace (Z.pred (Z.of_nat (S n))) with (Z.of_nat n) by lia.
  simpl. f_equal. replace (start + 1) with (Z.succ start) by lia. apply IH.
Qed.

Lemma thread_of_run dir N wm :
  0 ≤ N →
  header
  +:+ join_all (paragraph (len (jack_path dir <$> seqZ 1 N)) wm
                  <$> enumerate 1 (jack_path dir <$> seqZ 1 N))
  +:+ footer
  = thread_text N wm.
Proof.
  intros HN. unfold thread_text. f_equal. f_equal. f_equal.
  unfold len. rewrite length_fmap, length_seqZ, Z2Nat.id by lia.
  rewrite <- (Z2Nat.id N HN) at 2 3 4. rewrite enumerate_fmap, Z2Nat.id by lia.
  rewrite <- list_fmap_compose. apply list_fmap_ext. intros k i _.
  unfold compose, paragraph, thread_paragraph, reference_line. simpl.
  rewrite basename_jack_path. rewrite !append_assoc. reflexivity.
Qed.


Lemma for_result_ext {A S : Type} (f g : S → A → result S) (l : list A) :
  (∀ s x, f s x = g s x) → ∀ s, for_result f l s = for_result g l s.
Proof.
  intros Hfg. induction l as [|x l IH]; intros s; [reflexivity|].
  simpl. rewrite Hfg. destruct (g s x) as [s'|e]; [apply IH|reflexivity].
Qed.

(** X21. An empty watermark text is no watermark: the caption generator
    does with [Some ""] exactly what it does with [None]. *)
Theorem X21_captions_empty_watermark variants (w : World) :
  jack_thread_captions variants (Some "") w = jack_thread_captions variants None w.
Proof.
  unfold jack_thread_captions.
  rewrite (for_result_ext (caption_step variants (Some "")) (caption_step variants None));
    [reflexivity|].
  intros thread [i path]. reflexivity.
Qed.

(** X22. Building the thread raises nothing, whatever list of variants is
    given (no IndexError from the phrase bank or from the list): the loop
    ends with a text, which is the header alone for a list of at most one
    variant. What is left of the caption generator is to write that text
    and the footer to one file, [cyber_jack_thread.txt] in the directory of
    the first variant (in [.] for an empty list, that is
    [./cyber_jack_thread.txt]), to print the line that names the file and
    to return the text: the write is the only statement that can fail. *)
Theorem X22_captions_build_never_raises variants wm :
  let caption_file :=
    Path.join (match variants with
               | first :: _ => Path.dirname first
               | [] => "."
               end) caption_name in
  ∃ body,
    for_result (caption_step variants wm) (enumerate 1 (tail variants)) header
    = Ok (header +:+ body)
    ∧ ((List.length variants ≤ 1)%nat → body = "")
    ∧ (variants = [] → caption_file = "./cyber_jack_thread.txt")
    ∧ ∀ w : World,
        jack_thread_captions variants wm w
        = (write_file caption_file (FText ((header +:+ body) +:+ footer));;
           print ("Cyber jack thread ready: " +:+ caption_file);;
           mret ((header +:+ body) +:+ footer)) w.
Proof.
  intros caption_file.
  exists (join_all (paragraph (len variants - 1) wm <$> enumerate 1 (tail variants))).
  pose proof (caption_loop variants wm (tail variants) 1 header ltac:(lia)) as Hloop.
  split; [exact Hloop|].
  split.
  { intros Hlen. destruct variants as [|first [|second rest]]; [reflexivity|reflexivity|].
    simpl in Hlen. lia. }
  split; [intros ->; reflexivity|].
  intros w. unfold jack_thread_captions.
  rewrite (bind_lift_ok _ _ _ _ Hloop). reflexivity.
Qed.

Lemma all_sep_endswith a : a ≠ "" → Path.all_sep a = true → Path.endswith_sep a = true.
Proof.
  induction a as [|c a IH]; [contradiction|]. intros _ Hall. simpl in Hall.
  apply andb_prop in Hall as [Hc Hall]. destruct a as [|c' a]; [exact Hc|].
  apply IH; [discriminate|exact Hall].
Qed.

Lemma rstrip_sep_empty a : Path.rstrip_sep a = "" → Path.all_sep a = true.
Proof.
  induction a as [|c a IH]; [reflexivity|]. simpl.
  destruct (Path.rstrip_sep a) eqn:E; [|discriminate].
  destruct (Path.is_sep c); [intros _; exact (IH eq_refl)|discriminate].
Qed.

Lemma rstrip_sep_all a : Path.all_sep a = true → Path.rstrip_sep a = "".
Proof.
  induction a as [|c a IH]; [reflexivity|]. simpl. intros Hall.
  apply andb_prop in Hall as [Hc Hall]. rewrite (IH Hall), Hc. reflexivity.
Qed.

Lemma rstrip_sep_ends a : Path.endswith_sep (Path.rstrip_sep a) = false.
Proof.
  induction a as [|c a IH]; [reflexivity|]. simpl.
  destruct (Path.rstrip_sep a) as [|c' r] eqn:E.
  - destruct (Path.is_sep c) eqn:Ec; [reflexivity|simpl; exact Ec].
  - exact IH.
Qed.

Lemma rstrip_sep_fixed a : Path.endswith_sep a = false → Path.rstrip_sep a = a.
Proof.
  induction a as [|c a IH]; [reflexivity|]. intros He. simpl.
  destruct a as [|c' a].
  - simpl in *. rewrite He. reflexivity.
  - rewrite (IH He). reflexivity.
Qed.

Lemma rstrip_sep_snoc a : Path.rstrip_sep (a +:+ String Path.sep "") = Path.rstrip_sep a.
Proof.
  induction a as [|c a IH]; [reflexivity|].
  rewrite append_cons. simpl. rewrite IH. reflexivity.
Qed.

Lemma all_sep_snoc a : Path.all_sep (a +:+ String Path.sep "") = Path.all_sep a.
Proof.
  induction a as [|c a IH]; [reflexivity|].
  rewrite append_cons. simpl. rewrite IH. reflexivity.
Qed.

Lemma dirname_join a b : no_sep b = true → Path.dirname (Path.join a b) = trim_head (join_prefix a).
Proof. intros Hb. unfold Path.dirname. rewrite rsplit_join by exact Hb. reflexivity. Qed.

(** Joining a name to a directory name that [os.path.dirname] returned and
    taking the directory name again gives the same directory name. *)
Lemma trim_head_stable P : trim_head (join_prefix (trim_head P)) = trim_head P.
Proof.
  unfold trim_head at 2 3.
  destruct (String.eqb_spec P "") as [->|HP]; [reflexivity|]. simpl.
  destruct (Path.all_sep P) eqn:Eall; simpl.
  - unfold join_prefix. rewrite (all_sep_endswith P HP Eall), orb_true_r.
    unfold trim_head. rewrite Eall, andb_false_r. reflexivity.
  - set (D := Path.rstrip_sep P).
    assert (HD : Path.all_sep D = false).
    { destruct (Path.all_sep D) eqn:E; [|reflexivity].
      pose proof (rstrip_sep_all D E) as Hr.
      unfold D in Hr. rewrite rstrip_sep_fixed in Hr by apply rstrip_sep_ends.
      apply rstrip_sep_empty in Hr. congruence. }
    assert (HDn : D ≠ "") by (intros E; rewrite E in HD; discriminate).
    assert (HDe : Path.endswith_sep D = false) by apply rstrip_sep_ends.
    unfold join_prefix. rewrite HDe.
    destruct (String.eqb_spec D "") as [|_]; [contradiction|]. simpl.
    unfold trim_head. rewrite all_sep_snoc, HD.
    destruct (String.eqb_spec (D +:+ String Path.sep "") "") as [E|_].
    + destruct D; discriminate.
    + simpl. rewrite rstrip_sep_snoc. apply rstrip_sep_fixed. exact HDe.
Qed.

(** X23. The caption file is written beside the pictures: whatever the
    output directory is called, the directory name of the caption file is
    the directory name of the picture of every step. *)
Theorem X23_caption_beside_pictures dir i :
  Path.dirname (caption_path dir) = Path.dirname (jack_path dir i).
Proof.
  unfold caption_path, jack_path.
  rewrite (dirname_join dir (jack_name i)) by apply no_sep_jack_name.
  rewrite (dirname_join dir (jack_name 0)) by apply no_sep_jack_name.
  rewrite dirname_join by reflexivity.
  apply trim_head_stable.
Qed.

(** X24. For an output directory whose name is not empty and does not end
    with a separator, the picture of step i is [dir/jack_i.png] and the
    caption file is [dir/cyber_jack_thread.txt]. *)
Theorem X24_output_paths dir i :
  dir ≠ "" → Path.endswith_sep dir = false →
  jack_path dir i = dir +:+ "/jack_" +:+ pretty i +:+ ".png"
  ∧ caption_path dir = dir +:+ "/cyber_jack_thread.txt".
Proof.
  intros Hdir Hend.
  assert (Hpre : join_prefix dir = dir +:+ String Path.sep "").
  { unfold join_prefix. rewrite Hend.
    destruct (String.eqb_spec dir ""); [contradiction|reflexivity]. }
  assert (Hall : Path.all_sep dir = false).
  { destruct (Path.all_sep dir) eqn:E; [|reflexivity].
    rewrite (all_sep_endswith dir Hdir E) in Hend. discriminate. }
  split.
  - unfold jack_path. rewrite join_relative by apply jack_name_relative.
    rewrite Hpre, append_assoc. reflexivity.
  - unfold caption_path, jack_path.
    rewrite (dirname_join dir (jack_name 0)) by apply no_sep_jack_name.
    rewrite Hpre. unfold trim_head. rewrite all_sep_snoc, Hall.
    destruct (String.eqb_spec (dir +:+ String Path.sep "") "") as [E|_];
      [destruct dir; discriminate|].
    simpl. rewrite rstrip_sep_snoc, (rstrip_sep_fixed dir Hend).
    rewrite join_relative by reflexivity.
    rewrite Hpre, append_assoc. reflexivity.
Qed.

End CaptionFacts.


Lemma X24_output_paths_witness :
  "out" ≠ "" ∧ Path.endswith_sep "out" = false
  ∧ jack_path "out" 2 = "out" +:+ "/jack_" +:+ pretty 2 +:+ ".png"
  ∧ caption_path "out" = "out" +:+ "/cyber_jack_thread.txt".
Proof.
  split; [discriminate|]. split; [reflexivity|].
  apply (X24_output_paths "out" 2); [discriminate|reflexivity].
Defined.
